(** * ploomber: project discovery ([ploomber.util.default]) and the local
    storage client ([ploomber.clients.storage.local])

    A shallow embedding of the two modules over a small model of the
    POSIX file system, of [pathlib]'s pure paths and of the [os],
    [glob] (with [fnmatch]) and [shutil] calls the modules make,
    followed by the properties of the specification that were checked
    against it.

    Scope of the model.  The store holds regular files and directories
    only: there are no symbolic links, permissions, special files or I/O
    failures, so [Path.resolve] is the lexical normal form of a path taken
    from the working directory.  Strings are byte strings, and a
    character of a name or of a pattern is one byte.  A function
    that only reads the store takes it as an argument; one that writes is
    a computation in [M], which threads the store and keeps it when an
    exception is raised. *)

From stdpp Require Import base option list strings gmap.
From Stdlib Require Import Ascii.

Set Default Proof Using "Type".

(* ================================================================== *)
(** * Python values and exceptions *)

(** The exceptions the two modules raise or let through.  For
    [RemoteFileNotFound] the constructor carries the two values that the
    message interpolates: [str(local)] and the backup directory printed by
    the client's [__repr__]. *)
Inductive exn :=
| TypeError
| ValueError
| UnboundLocalError
| FileNotFoundError
| FileExistsError
| NotADirectoryError
| IsADirectoryError
| SameFileError
| OSError
| DAGSpecNotFound
| RemoteFileNotFound (local : string) (backup_dir : string).

(** Outcome of a call: a value or a raised exception. *)
Inductive res (A : Type) :=
| Ok (a : A)
| Raise (e : exn).
Arguments Ok {A} a.
Arguments Raise {A} e.

Definition res_bind {A B} (r : res A) (k : A → res B) : res B :=
  match r with
  | Ok a => k a
  | Raise e => Raise e
  end.

Declare Scope py_scope.
Delimit Scope py_scope with py.
Notation "x <- r ;; k" := (res_bind r (λ x, k))
  (at level 100, r at next level, right associativity) : py_scope.

(* ================================================================== *)
(** * pathlib: pure POSIX paths *)

Module PurePath.

(** [s.split(sep)] for a one-character separator: never empty, one more
    element than separators. *)
Fixpoint split_on (sep : ascii) (s : string) : list string :=
  match s with
  | EmptyString => [EmptyString]
  | String c s' =>
      if Ascii.eqb c sep then EmptyString :: split_on sep s'
      else match split_on sep s' with
           | [] => [String c EmptyString]
           | x :: xs => String c x :: xs
           end
  end.

(** [s.split('/')]. *)
Definition segments (s : string) : list string := split_on "/" s.

(** A parsed path: whether it starts at the root, and its components.
    Empty components and ["."] never occur in [names]; [".."] may. *)
Record Path := mkPath { anchored : bool; names : list string }.

Definition is_name (c : string) : bool :=
  negb (bool_decide (c = "")) && negb (bool_decide (c = ".")).

(** [Path(s)] for a string.  Repeated and trailing separators and ["."]
    components are dropped; a leading double slash is read as the root. *)
Definition parse (s : string) : Path :=
  {| anchored := match s with String c _ => Ascii.eqb c "/" | _ => false end;
     names := filter (λ c, is_name c = true) (segments s) |}.

(** [Path.parts]: the root, when there is one, counts as a part. *)
Definition parts (p : Path) : list string :=
  if anchored p then "/" :: names p else names p.

(** [str(p)]. *)
Definition render (p : Path) : string :=
  if anchored p then "/" +:+ String.concat "/" (names p)
  else match names p with
       | [] => "."
       | _ => String.concat "/" (names p)
       end.

(** [Path(a, b)], also [a / b]. *)
Definition join (a b : Path) : Path :=
  if anchored b then b
  else {| anchored := anchored a; names := names a ++ names b |}.

(** [p.parent]: lexical, the root and the empty path are their own. *)
Definition parent (p : Path) : Path :=
  {| anchored := anchored p; names := removelast (names p) |}.

(** [p.name]. *)
Definition name (p : Path) : string := List.last (names p) "".

(** [p.suffix != '']: the last dot of the name is neither its first nor
    its last character. *)
Definition has_suffix (p : Path) : bool :=
  match rev (split_on "." (name p)) with
  | last :: (_ :: _) as before =>
      negb (bool_decide (last = "")) && negb (bool_decide (before = [""]))
  | _ => false
  end.

(** One lexical step of normalisation on an absolute location. *)
Definition step (loc : list string) (c : string) : list string :=
  if decide (c = "..") then removelast loc else loc ++ [c].

(** [p.resolve()] from working directory [cwd]: an absolute location,
    root first, with every [".."] of [p] applied. *)
Definition resolve (cwd : list string) (p : Path) : list string :=
  fold_left step (names p) (if anchored p then [] else cwd).

(** An absolute location as a [Path]. *)
Definition of_loc (loc : list string) : Path :=
  {| anchored := true; names := loc |}.

(** [p.relative_to(root)] on absolute locations: the suffix, or the
    [ValueError] pathlib raises when [root] is not a prefix. *)
Fixpoint strip (root loc : list string) : option (list string) :=
  match root, loc with
  | [], _ => Some loc
  | r :: root', c :: loc' =>
      if decide (r = c) then strip root' loc' else None
  | _ :: _, [] => None
  end.

Definition relative_to (loc root : list string) : res Path :=
  match strip root loc with
  | Some suffix => Ok {| anchored := false; names := suffix |}
  | None => Raise ValueError
  end.

(** [os.path.relpath(path, start)] on absolute locations. *)
Fixpoint relpath_names (path start : list string) : list string :=
  match path, start with
  | c :: path', d :: start' =>
      if decide (c = d) then relpath_names path' start'
      else replicate (length start) ".." ++ path
  | _, _ => replicate (length start) ".." ++ path
  end.

Definition relpath (path start : list string) : string :=
  render {| anchored := false; names := relpath_names path start |}.

End PurePath.
Export PurePath.

(** A path argument as Python callers pass it: [None], a string or a
    [Path] object. *)
Inductive pathlike :=
| PNone
| PStr (s : string)
| PPath (p : Path).

(** Truth value in [x or default] and [if x:]. *)
Definition truthy (a : pathlike) : bool :=
  match a with
  | PNone => false
  | PStr s => negb (bool_decide (s = ""))
  | PPath _ => true
  end.

(** [Path(a)]; [Path(None)] raises [TypeError]. *)
Definition to_Path (a : pathlike) : res Path :=
  match a with
  | PNone => Raise TypeError
  | PStr s => Ok (parse s)
  | PPath p => Ok p
  end.

(* ================================================================== *)
(** * The file system *)

Module FS.

(** A directory tree.  A directory lists its entries by name; lookup
    takes the first entry of a name. *)
#[warnings="-register-all"] Inductive node :=
| File (data : list Byte.byte)
| Dir (entries : list (string * node)).

Fixpoint assoc (c : string) (es : list (string * node)) : option node :=
  match es with
  | [] => None
  | (k, v) :: es' => if decide (k = c) then Some v else assoc c es'
  end.

Fixpoint assoc_set (c : string) (v : node) (es : list (string * node))
  : list (string * node) :=
  match es with
  | [] => [(c, v)]
  | (k, x) :: es' =>
      if decide (k = c) then (c, v) :: es' else (k, x) :: assoc_set c v es'
  end.

Fixpoint assoc_del (c : string) (es : list (string * node))
  : list (string * node) :=
  match es with
  | [] => []
  | (k, x) :: es' =>
      if decide (k = c) then assoc_del c es' else (k, x) :: assoc_del c es'
  end.

(** The node at an absolute location. *)
Fixpoint get (t : node) (loc : list string) : option node :=
  match loc with
  | [] => Some t
  | c :: loc' =>
      match t with
      | Dir es =>
          match assoc c es with
          | Some m => get m loc'
          | None => None
          end
      | File _ => None
      end
  end.

(** Bind [loc] to [v], replacing what is there; the parent of [loc]
    must be an existing directory. *)
Fixpoint put (t : node) (loc : list string) (v : node) : option node :=
  match loc with
  | [] => Some v
  | c :: loc' =>
      match t with
      | Dir es =>
          match loc' with
          | [] => Some (Dir (assoc_set c v es))
          | _ :: _ =>
              match assoc c es with
              | Some m =>
                  match put m loc' v with
                  | Some m' => Some (Dir (assoc_set c m' es))
                  | None => None
                  end
              | None => None
              end
          end
      | File _ => None
      end
  end.

(** Unlink [loc] and everything below it. *)
Fixpoint del (t : node) (loc : list string) : node :=
  match loc with
  | [] => t
  | c :: loc' =>
      match t with
      | Dir es =>
          match loc' with
          | [] => Dir (assoc_del c es)
          | _ :: _ =>
              match assoc c es with
              | Some m => Dir (assoc_set c (del m loc') es)
              | None => t
              end
          end
      | File _ => t
      end
  end.

(** The process's view: working directory and tree. *)
Record world := mkWorld { cwd : list string; tree : node }.

Definition with_tree (w : world) (t : node) : world :=
  {| cwd := cwd w; tree := t |}.

(** A computation that may change the store and may raise; the store
    at the time of the exception is kept. *)
Definition M (A : Type) : Type := world → res A * world.

Definition mret {A} (a : A) : M A := λ w, (Ok a, w).
Definition mraise {A} (e : exn) : M A := λ w, (Raise e, w).
Definition mbind {A B} (m : M A) (k : A → M B) : M B :=
  λ w, match m w with
       | (Ok a, w') => k a w'
       | (Raise e, w') => (Raise e, w')
       end.
(** A read-only call. *)
Definition mread {A} (f : world → res A) : M A := λ w, (f w, w).

(** ** Kernel path walk *)

Definition start (w : world) (p : Path) : list string :=
  if anchored p then [] else cwd w.

(** Every component is looked up in a directory: [ENOTDIR] when the
    walk stands on a file, [ENOENT] when it stands on nothing. *)
Fixpoint walk (t : node) (loc : list string) (cs : list string)
  : res (list string) :=
  match cs with
  | [] => Ok loc
  | c :: cs' =>
      match get t loc with
      | Some (Dir _) => walk t (step loc c) cs'
      | Some (File _) => Raise NotADirectoryError
      | None => Raise FileNotFoundError
      end
  end.

(** Where [p] denotes: its parent directories exist, the location
    itself need not. *)
Definition locate (w : world) (p : Path) : res (list string) :=
  walk (tree w) (start w p) (names p).

(** [os.stat(p)]. *)
Definition stat (w : world) (p : Path) : res node :=
  (loc <- locate w p;;
   match get (tree w) loc with
   | Some n => Ok n
   | None => Raise FileNotFoundError
   end)%py.

(** [Path.exists], [Path.is_file], [Path.is_dir]: errors read as no. *)
Definition exists_ (w : world) (p : Path) : bool :=
  match stat w p with Ok _ => true | Raise _ => false end.

Definition is_file (w : world) (p : Path) : bool :=
  match stat w p with Ok (File _) => true | _ => false end.

Definition is_dir (w : world) (p : Path) : bool :=
  match stat w p with Ok (Dir _) => true | _ => false end.

(** [os.listdir(p)]. *)
Definition listdir (w : world) (p : Path) : res (list string) :=
  (n <- stat w p;;
   match n with
   | Dir es => Ok (map fst es)
   | File _ => Raise NotADirectoryError
   end)%py.

(** ** Directory creation *)

(** [os.mkdir(p)]. *)
Definition os_mkdir (p : Path) : M unit := λ w,
  match locate w p with
  | Raise e => (Raise e, w)
  | Ok loc =>
      match get (tree w) loc with
      | Some _ => (Raise FileExistsError, w)
      | None =>
          match put (tree w) loc (Dir []) with
          | Some t' => (Ok (), with_tree w t')
          | None => (Raise FileNotFoundError, w)
          end
      end
  end.

(** [Path.mkdir(parents=True, exist_ok=True)], by recursion on the
    components taken from the last: [rnames] is [names p] reversed.

    pathlib tries [os.mkdir]; on [FileNotFoundError] it makes the
    parent the same way and tries once more; on any other [OSError] it
    re-raises unless the path is a directory by now. *)
Definition mkdir_once (p : Path) : M unit := λ w,
  match os_mkdir p w with
  | (Ok u, w') => (Ok u, w')
  | (Raise FileNotFoundError, w') => (Raise FileNotFoundError, w')
  | (Raise e, w') => if is_dir w' p then (Ok (), w') else (Raise e, w')
  end.

Fixpoint mkdir_rev (anch : bool) (rnames : list string) : M unit := λ w,
  let p := mkPath anch (rev rnames) in
  match os_mkdir p w with
  | (Ok u, w') => (Ok u, w')
  | (Raise FileNotFoundError, w') =>
      match rnames with
      | [] => (Raise FileNotFoundError, w')
      | _ :: rparent =>
          match mkdir_rev anch rparent w' with
          | (Ok _, w1) => mkdir_once p w1
          | (Raise e, w1) => (Raise e, w1)
          end
      end
  | (Raise e, w') => if is_dir w' p then (Ok (), w') else (Raise e, w')
  end.

Definition mkdir_parents (p : Path) : M unit :=
  mkdir_rev (anchored p) (rev (names p)).

(** [os.makedirs(p)] with [exist_ok=False]: the head is made first
    when it is missing, a [FileExistsError] from that is swallowed, and
    the final [os.mkdir] decides. *)
Fixpoint makedirs_rev (anch : bool) (rnames : list string) : M unit := λ w,
  let p := mkPath anch (rev rnames) in
  match rnames with
  | [] => os_mkdir p w
  | _ :: rhead =>
      let head := mkPath anch (rev rhead) in
      if (anch || negb (bool_decide (rhead = []))) && negb (exists_ w head)
      then match makedirs_rev anch rhead w with
           | (Ok _, w1) => os_mkdir p w1
           | (Raise FileExistsError, w1) => os_mkdir p w1
           | (Raise e, w1) => (Raise e, w1)
           end
      else os_mkdir p w
  end.

Definition makedirs (p : Path) : M unit :=
  makedirs_rev (anchored p) (rev (names p)).

End FS.
Export FS.

Notation "x <~ m ;; k" := (mbind m (λ x, k))
  (at level 100, m at next level, right associativity) : py_scope.

(* ================================================================== *)
(** * fnmatch: shell patterns *)

Module Fnmatch.

(** [fnmatch.translate] turns a pattern into the pieces of a regular
    expression; a piece other than [STAR] takes exactly one character of
    the name. *)

(** The text of a set between its brackets, as [re] reads it: a
    character that stands for itself (escaped where [re] would read it
    otherwise), or the sign of a range. *)
Inductive atom :=
| Lit (c : ascii)
| Dash.

Inductive piece :=
| STAR
| AnyChar                                  (* [.] *)
| Never                                    (* [(?!)] *)
| Char (c : ascii)                         (* [re.escape(c)] *)
| OneOf (negated : bool) (stuff : list atom).  (* [[stuff]], [[^stuff]] *)

(** The part of [l] before the first [c], and the part after it. *)
Fixpoint cut (c : ascii) (l : list ascii) : option (list ascii * list ascii) :=
  match l with
  | [] => None
  | x :: l' =>
      if Ascii.eqb x c then Some ([], l')
      else match cut c l' with
           | Some (before, after) => Some (x :: before, after)
           | None => None
           end
  end.

(** The scan for the closing bracket, from the character after [[]:
    a [!] and then a []] met first do not close the set.  Gives
    [pat[i:j]] and [pat[j+1:]]. *)
Definition bracket (rest : list ascii) : option (list ascii * list ascii) :=
  let '(bang, r1) :=
    match rest with
    | "!"%char :: r => (["!"%char], r)
    | _ => ([], rest)
    end in
  let '(brk, r2) :=
    match r1 with
    | "]"%char :: r => (["]"%char], r)
    | _ => ([], r1)
    end in
  match cut "]" r2 with
  | Some (mid, after) => Some (bang ++ brk ++ mid, after)
  | None => None
  end.

(** The [while True] loop that cuts [stuff] at its range signs: a [-]
    among the first [skip] characters is an ordinary character, and so
    are the two characters after a range sign.  [chunk] is the current
    chunk, reversed. *)
Fixpoint split_chunks (skip : nat) (chunk : list ascii) (stuff : list ascii)
  : list (list ascii) :=
  match stuff with
  | [] => [rev chunk]
  | c :: stuff' =>
      match skip with
      | S skip' => split_chunks skip' (c :: chunk) stuff'
      | O =>
          if Ascii.eqb c "-" then rev chunk :: split_chunks 2 [] stuff'
          else split_chunks 0 (c :: chunk) stuff'
      end
  end.

(** [if chunk: chunks.append(chunk) else: chunks[-1] += '-']. *)
Definition close_chunks (chunks : list (list ascii)) : list (list ascii) :=
  match rev chunks with
  | [] :: c :: before => rev ((c ++ ["-"%char]) :: before)
  | _ => chunks
  end.

(** Code-point order. *)
Definition char_lt (a b : ascii) : bool :=
  (N_of_ascii a <? N_of_ascii b)%N.

(** "Remove empty ranges": from the last pair of neighbours to the
    first, a pair whose range would be empty loses both ends and is
    merged. *)
Fixpoint drop_empty (chunks : list (list ascii)) : list (list ascii) :=
  match chunks with
  | [] => []
  | a :: rest =>
      match drop_empty rest with
      | [] => [a]
      | b :: rest' =>
          match last a, head b with
          | Some x, Some y =>
              if char_lt y x then (removelast a ++ tail b) :: rest'
              else a :: b :: rest'
          | _, _ => a :: b :: rest'
          end
      end
  end.

(** ['-'.join(...)] of the escaped chunks. *)
Fixpoint join_chunks (chunks : list (list ascii)) : list atom :=
  match chunks with
  | [] => []
  | [c] => map Lit c
  | c :: rest => map Lit c ++ Dash :: join_chunks rest
  end.

(** The piece for [[stuff]]. *)
Definition set_piece (stuff : list ascii) : piece :=
  let text :=
    if bool_decide ("-"%char ∈ stuff)
    then join_chunks
           (drop_empty
              (close_chunks
                 (split_chunks
                    (match stuff with "!"%char :: _ => 2 | _ => 1 end)
                    [] stuff)))
    else map Lit stuff in
  match text with
  | [] => Never
  | [Lit "!"%char] => AnyChar
  | Lit "!"%char :: text' => OneOf true text'
  | _ => OneOf false text
  end.

(** The first loop of [translate].  After a set, [skip] counts the
    characters of the pattern that the set has used up. *)
Fixpoint pieces (skip : nat) (pat : list ascii) : list piece :=
  match pat with
  | [] => []
  | c :: rest =>
      match skip with
      | S skip' => pieces skip' rest
      | O =>
          if Ascii.eqb c "*" then STAR :: pieces 0 rest
          else if Ascii.eqb c "?" then AnyChar :: pieces 0 rest
          else if Ascii.eqb c "[" then
            match bracket rest with
            | Some (stuff, _) =>
                set_piece stuff :: pieces (S (length stuff)) rest
            | None => Char "[" :: pieces 0 rest
            end
          else Char c :: pieces 0 rest
      end
  end.

(** "compress consecutive [*] into one". *)
Fixpoint compress (ps : list piece) : list piece :=
  match ps with
  | STAR :: ((STAR :: _) as ps') => compress ps'
  | p :: ps' => p :: compress ps'
  | [] => []
  end.

(** The fixed pieces at the start, and the fixed pieces after each
    [STAR]. *)
Fixpoint split_stars (ps : list piece) : list piece * list (list piece) :=
  match ps with
  | [] => ([], [])
  | STAR :: ps' =>
      let '(fixed, groups) := split_stars ps' in ([], fixed :: groups)
  | p :: ps' =>
      let '(fixed, groups) := split_stars ps' in (p :: fixed, groups)
  end.

Definition atom_char (a : atom) : ascii :=
  match a with
  | Lit c => c
  | Dash => "-"%char
  end.

(** Membership in a set, item by item as [re] parses it: an item
    followed by the range sign and one more item is a range; a range
    sign with nothing after it is a hyphen. *)
Fixpoint in_set (c : ascii) (stuff : list atom) : bool :=
  match stuff with
  | [] => false
  | this :: rest =>
      match rest with
      | Dash :: that :: rest' =>
          (negb (char_lt c (atom_char this)) &&
           negb (char_lt (atom_char that) c))
          || in_set c rest'
      | [Dash] => Ascii.eqb c (atom_char this) || Ascii.eqb c "-"
      | _ => Ascii.eqb c (atom_char this) || in_set c rest
      end
  end.

Definition takes (p : piece) (c : ascii) : bool :=
  match p with
  | STAR => false
  | AnyChar => true
  | Never => false
  | Char x => Ascii.eqb x c
  | OneOf negated stuff => xorb negated (in_set c stuff)
  end.

(** Fixed pieces at the head of [name]; what is left of the name. *)
Fixpoint match_fixed (fixed : list piece) (name : list ascii)
  : option (list ascii) :=
  match fixed with
  | [] => Some name
  | p :: fixed' =>
      match name with
      | [] => None
      | c :: name' => if takes p c then match_fixed fixed' name' else None
      end
  end.

(** [(?>.*?fixed)]: the first place where [fixed] fits, for good. *)
Fixpoint lazy_find (fixed : list piece) (name : list ascii)
  : option (list ascii) :=
  match match_fixed fixed name with
  | Some rest => Some rest
  | None =>
      match name with
      | [] => None
      | _ :: name' => lazy_find fixed name'
      end
  end.

(** [.*fixed\Z]: [fixed] fits the end of the name. *)
Fixpoint ends_with (fixed : list piece) (name : list ascii) : bool :=
  match match_fixed fixed name with
  | Some [] => true
  | _ =>
      match name with
      | [] => false
      | _ :: name' => ends_with fixed name'
      end
  end.

(** The groups after the stars: every group but the last is matched at
    its first fit; a star that ends the pattern takes the rest. *)
Fixpoint match_groups (groups : list (list piece)) (name : list ascii)
  : bool :=
  match groups with
  | [] => bool_decide (name = [])
  | [[]] => true
  | [fixed] => ends_with fixed name
  | fixed :: groups' =>
      match lazy_find fixed name with
      | Some rest => match_groups groups' rest
      | None => false
      end
  end.

(** [fnmatchcase(name, pat)]: the whole name against the pattern. *)
Definition fnmatchcase (name pat : string) : bool :=
  let '(fixed, groups) :=
    split_stars (compress (pieces 0 (String.list_ascii_of_string pat))) in
  match match_fixed fixed (String.list_ascii_of_string name) with
  | Some rest => match_groups groups rest
  | None => false
  end.

(** [fnmatch.filter(names, pat)] on POSIX. *)
Definition filter (names : list string) (pat : string) : list string :=
  List.filter (λ name, fnmatchcase name pat) names.

End Fnmatch.

(* ================================================================== *)
(** * glob *)

Module Glob.

(** [has_magic(s)]: the string has one of [*], [?], [[]. *)
Fixpoint has_magic (s : string) : bool :=
  match s with
  | EmptyString => false
  | String c s' =>
      Ascii.eqb c "*" || Ascii.eqb c "?" || Ascii.eqb c "[" || has_magic s'
  end.

(** [_ishidden(path)]. *)
Definition _ishidden (path : string) : bool :=
  match path with
  | String c _ => Ascii.eqb c "."
  | EmptyString => false
  end.

(** [_listdir(dirname, dir_fd, dironly)]: the names in a directory,
    those of its directories only with [dironly]; nothing when the
    directory cannot be read.  The empty relative path is the working
    directory. *)
Definition _listdir (w : world) (dirname : Path) (dironly : bool)
  : list string :=
  match stat w dirname with
  | Ok (Dir entries) =>
      map fst
        (List.filter
           (λ entry, match snd entry with
                     | Dir _ => true
                     | File _ => negb dironly
                     end) entries)
  | _ => []
  end.

(** [_glob1(dirname, pattern, dir_fd, dironly)]. *)
Definition _glob1 (w : world) (dirname : Path) (pattern : string)
    (dironly : bool) : list string :=
  let names := _listdir w dirname dironly in
  let names :=
    if negb (_ishidden pattern)
    then List.filter (λ x, negb (_ishidden x)) names
    else names in
  Fnmatch.filter names pattern.

(** [_glob0(dirname, basename, dir_fd, dironly)] for a basename that is
    not empty. *)
Definition _glob0 (w : world) (dirname : Path) (basename : string)
  : list string :=
  if exists_ w (join dirname (mkPath false [basename])) then [basename]
  else [].

(** [_iglob(pathname, root_dir, dir_fd, recursive, dironly)] without
    [root_dir], [dir_fd] and [recursive], for a [pathname] that is the
    string of a path: [os.path.split] then takes the last component off,
    so the recursion is on the components from the last, [rnames] being
    the components reversed.  The matches are the paths whose strings
    [glob] yields, in the order of the directory listings. *)
Fixpoint _iglob (w : world) (anch : bool) (rnames : list string)
    (dironly : bool) : list Path :=
  let pathname := mkPath anch (rev rnames) in
  if negb (existsb has_magic rnames) then
    let found :=
      match anch, rnames with
      | true, [] => is_dir w pathname    (* ["/"]: the basename is empty *)
      | _, _ => exists_ w pathname
      end in
    if found then [pathname] else []
  else
    match rnames with
    | [] => []
    | basename :: rdirname =>
        let dirs :=
          if existsb has_magic rdirname then _iglob w anch rdirname true
          else [mkPath anch (rev rdirname)] in
        let glob_in_dir dirname :=
          if has_magic basename then _glob1 w dirname basename dironly
          else _glob0 w dirname basename in
        flat_map
          (λ dirname,
             map (λ name, join dirname (mkPath false [name]))
                 (glob_in_dir dirname))
          dirs
    end.

(** [glob(str(pathname))]. *)
Definition glob (w : world) (pathname : Path) : list Path :=
  _iglob w (anchored pathname) (rev (names pathname)) false.

End Glob.
Export Glob.

(* ================================================================== *)
(** * ploomber.util.default *)

Module Default.

(** [s.endswith(suffix)]. *)
Definition endswith (s suffix : string) : bool :=
  let n := String.length s in
  let k := String.length suffix in
  bool_decide (k ≤ n) && bool_decide (String.substring (n - k) k s = suffix).

(** [sorted] on strings: insertion by code-point order. *)
Fixpoint insert_sorted (x : string) (l : list string) : list string :=
  match l with
  | [] => [x]
  | y :: l' => if String.leb x y then x :: l else y :: insert_sorted x l'
  end.

Definition sorted (l : list string) : list string :=
  foldr insert_sorted [] l.

(** [Path(a or d)] for a default [d]. *)
Definition path_or (a : pathlike) (d : Path) : Path :=
  match a with
  | PNone => d
  | PStr s => if decide (s = "") then d else parse s
  | PPath p => p
  end.

(** The truth value of [os.environ.get(k)]: set and not empty. *)
Definition env_get (environ : gmap string string) (k : string)
  : option string :=
  match environ !! k with
  | Some v => if decide (v = "") then None else Some v
  | None => None
  end.

(** A name that begins with a dot, which [*] does not match. *)
Definition hidden (d : string) : bool := _ishidden d.

(** [_package_location(root_path, name)].  The order in which [glob]
    yields its matches does not matter, since they are sorted.  Each
    match [f] is the string of the path it was built from, and
    [Path(f).parent] is that path's parent. *)
Definition _package_location (w : world) (root_path : Path) (name : string)
  : option string :=
  let pattern :=
    join (join (join root_path (parse "src")) (parse "*")) (parse name) in
  let candidates :=
    sorted (map render
      (filter (λ f, endswith (render (parent f)) ".egg-info" = false)
              (glob w pattern))) in
  head candidates.

(** [find_file_recursively]: the loop, on the resolved directory. *)
Fixpoint ascend (w : world) (name : string) (levels : nat)
    (current_dir : list string) : option (list string) :=
  match levels with
  | O => None
  | S levels' =>
      let current_path := join (of_loc current_dir) (parse name) in
      if exists_ w current_path
      then Some (resolve (cwd w) current_path)
      else ascend w name levels' (removelast current_dir)
  end.

Definition find_file_recursively (w : world) (name : string)
    (max_levels_up : nat) (starting_dir : pathlike)
  : option (list string) :=
  let current_dir := path_or starting_dir (of_loc (cwd w)) in
  ascend w name max_levels_up (resolve (cwd w) current_dir).

Definition options : list string :=
  [ "environment.yml"; "environment.lock.yml"; "requirements.txt";
    "requirements.lock.txt"; "setup.py" ].

(** The [for name in options] loop of [find_root_recursively]. *)
Fixpoint first_root (w : world) (starting_dir : pathlike)
    (names : list string) : option (list string) :=
  match names with
  | [] => None
  | name :: rest =>
      match find_file_recursively w name 6 starting_dir with
      | Some path => Some (removelast path)
      | None => first_root w starting_dir rest
      end
  end.

(** [find_root_recursively(starting_dir, raise_)]. *)
Definition find_root_recursively (w : world) (starting_dir : pathlike)
    (raise_ : bool) : res (option (list string)) :=
  match first_root w starting_dir options with
  | Some root => Ok (Some root)
  | None => if raise_ then Raise ValueError else Ok None
  end.

(** The file name both entry-point functions look for. *)
Definition FILENAME (name : option string) : string :=
  match name with
  | None => "pipeline.yaml"
  | Some n => "pipeline." +:+ n +:+ ".yaml"
  end.

(** [entry_point(root_path, name)]. *)
Definition entry_point (environ : gmap string string) (w : world)
    (root_path : pathlike) (name : option string) : res string :=
  let root_path := path_or root_path (parse ".") in
  match env_get environ "ENTRY_POINT" with
  | Some env_var => Ok env_var
  | None =>
      let FILENAME := FILENAME name in
      let pkg_location := _package_location w root_path FILENAME in
      let relative_to_root_path := join root_path (parse FILENAME) in
      (* everything after the first [return pkg_location] *)
      let otherwise :=
        match find_file_recursively w FILENAME 6 (PPath root_path) with
        | Some parent_location =>
            Ok (relpath (resolve (cwd w) (of_loc parent_location))
                        (resolve (cwd w) root_path))
        | None =>
            match find_root_recursively w (PPath root_path) false with
            | Ok (Some root_project) =>
                match _package_location w (of_loc root_project) FILENAME with
                | Some pkg_location =>
                    Ok (relpath (resolve (cwd w) (parse pkg_location))
                                (resolve (cwd w) root_path))
                | None => Raise DAGSpecNotFound
                end
            | Ok None => Raise DAGSpecNotFound
            | Raise e => Raise e
            end
        end in
      match pkg_location with
      | Some pkg =>
          if negb (exists_ w relative_to_root_path) then Ok pkg
          else otherwise
      | None => otherwise
      end
  end.


(** [path_to_env_with_name(name, path_to_parent)].  [sibling_env] is a
    local that stays unbound when [path_to_parent] is falsy; reading it
    then raises [UnboundLocalError]. *)
Definition path_to_env_with_name (environ : gmap string string) (w : world)
    (name : option string) (path_to_parent : pathlike)
  : res (option string) :=
  let env_var := env_get environ "PLOOMBER_ENV_FILENAME" in
  (filename <-
     match env_var with
     | Some v =>
         if bool_decide (1 < length (parts (parse v)))
         then (p <- to_Path path_to_parent;;
               let path_to_parent_abs := render (of_loc (resolve (cwd w) p)) in
               Raise ValueError)
         else Ok v
     | None =>
         Ok (match name with
             | None => "env.yaml"
             | Some n => "env." +:+ n +:+ ".yaml"
             end)
     end;;
   let local_env := resolve (cwd w) (join (parse ".") (parse filename)) in
   if exists_ w (of_loc local_env) then Ok (Some (render (of_loc local_env)))
   else
     let sibling_env :=
       if truthy path_to_parent
       then match to_Path path_to_parent with
            | Ok p => Some (resolve (cwd w) (join p (parse filename)))
            | Raise _ => None
            end
       else None in
     let found :=
       match sibling_env with
       | Some s =>
           if exists_ w (of_loc s) then Some (render (of_loc s)) else None
       | None => None
       end in
     match found with
     | Some s => Ok (Some s)
     | None =>
         match env_var with
         | Some _ =>
             match sibling_env with
             | Some _ => Raise FileNotFoundError
             | None => Raise UnboundLocalError
             end
         | None => Ok None
         end
     end)%py.

(** [extract_name(path)]. *)
Definition extract_name (path : Path) : option string :=
  let parts := split_on "." (name path) in
  if bool_decide (length parts < 3) then None else parts !! 1.

(** [path_to_env(path_to_spec)]. *)
Definition path_to_env (environ : gmap string string) (w : world)
    (path_to_spec : pathlike) : res (option string) :=
  match path_to_spec with
  | PNone => path_to_env_with_name environ w None PNone
  | PStr _ | PPath _ =>
      (spec <- to_Path path_to_spec;;
       if is_dir w spec then Raise ValueError
       else if negb (has_suffix spec) then Raise ValueError
       else
         let path_to_parent := PPath (parent spec) in
         match extract_name spec with
         | None => path_to_env_with_name environ w None path_to_parent
         | Some name =>
             path <- path_to_env_with_name environ w (Some name)
                       path_to_parent;;
             match path with
             | None => path_to_env_with_name environ w None path_to_parent
             | Some _ => Ok path
             end
         end)%py
  end.

(** [find_package_name(starting_dir)]. *)
Definition find_package_name (w : world) (starting_dir : pathlike)
  : res string :=
  (found <- find_root_recursively w starting_dir true;;
   match found with
   | None => Raise ValueError
   | Some root =>
       match _package_location w (of_loc root) "pipeline.yaml" with
       | None => Raise ValueError
       | Some pkg => Ok (name (parent (parse pkg)))
       end
   end)%py.

End Default.

(* ================================================================== *)
(** * shutil *)

Module Shutil.

(** [open(src, 'rb').read()]. *)
Definition read_file (w : world) (src : Path) : res (list Byte.byte) :=
  (n <- stat w src;;
   match n with
   | File data => Ok data
   | Dir _ => Raise IsADirectoryError
   end)%py.

(** [open(dst, 'wb').write(data)]: creates or truncates. *)
Definition write_file (dst : Path) (data : list Byte.byte) : M unit := λ w,
  match locate w dst with
  | Raise e => (Raise e, w)
  | Ok loc =>
      match get (tree w) loc with
      | Some (Dir _) => (Raise IsADirectoryError, w)
      | _ =>
          match put (tree w) loc (File data) with
          | Some t' => (Ok (), with_tree w t')
          | None => (Raise FileNotFoundError, w)
          end
      end
  end.

(** [shutil._samefile]: both exist and are the same entry. *)
Definition samefile (w : world) (a b : Path) : bool :=
  match locate w a, locate w b with
  | Ok la, Ok lb =>
      bool_decide (la = lb) && bool_decide (is_Some (get (tree w) la))
  | _, _ => false
  end.

(** [shutil.copyfile(src, dst)]. *)
Definition copyfile (src dst : Path) : M unit := λ w,
  if samefile w src dst then (Raise SameFileError, w)
  else match read_file w src with
       | Raise e => (Raise e, w)
       | Ok data => write_file dst data w
       end.

(** [shutil.copy(src, dst)]: into [dst] under the source's base name
    when [dst] is a directory. *)
Definition copy (src dst : Path) : M unit := λ w,
  let dst' :=
    if is_dir w dst
    then (if decide (name src = "") then dst
          else join dst (mkPath false [name src]))
    else dst in
  copyfile src dst' w.

(** [shutil.copytree(src, dst)] with its defaults.  The entries of
    [src] are listed first, then [os.makedirs(dst)] must create [dst],
    then the listed entries are copied with their subtrees.

    When [dst] lies two or more levels inside [src], below an entry
    that was listed, the copy descends into what it is writing and only
    ends with an [OSError] once names get too long; the partial copy
    left on disk in that case is not modelled. *)
Definition regress (es : list (string * node)) (sloc dloc : list string)
  : bool :=
  match strip sloc dloc with
  | Some (c :: _ :: _) => bool_decide (is_Some (assoc c es))
  | _ => false
  end.

Definition copytree (src dst : Path) : M unit := λ w,
  match stat w src with
  | Raise e => (Raise e, w)
  | Ok (File _) => (Raise NotADirectoryError, w)
  | Ok (Dir es) =>
      match makedirs dst w with
      | (Raise e, w1) => (Raise e, w1)
      | (Ok _, w1) =>
          match locate w src, locate w1 dst with
          | Ok sloc, Ok dloc =>
              if regress es sloc dloc then (Raise OSError, w1)
              else match put (tree w1) dloc (Dir es) with
                   | Some t' => (Ok (), with_tree w1 t')
                   | None => (Raise OSError, w1)
                   end
          | _, _ => (Raise OSError, w1)
          end
      end
  end.

End Shutil.

(* ================================================================== *)
(** * ploomber.clients.storage.local *)

Module Local.

(** The instance: [_path_to_backup_dir] as given (it may be relative),
    [_path_to_project_root] resolved at construction. *)
Record LocalStorageClient := mkClient {
  _path_to_backup_dir : Path;
  _path_to_project_root : list string
}.

(** [__init__(path_to_backup_dir, path_to_project_root=None)]. *)
Definition __init__ (path_to_backup_dir : Path)
    (path_to_project_root : pathlike) : M LocalStorageClient :=
  (_ <~ mkdir_parents path_to_backup_dir;;
   mread (λ w,
     project_root <-
       (if truthy path_to_project_root then to_Path path_to_project_root
        else (found <- Default.find_root_recursively w PNone true;;
              match found with
              | Some root => Ok (of_loc root)
              | None => Raise ValueError
              end));;
     Ok {| _path_to_backup_dir := path_to_backup_dir;
           _path_to_project_root := resolve (cwd w) project_root |}))%py.

(** Modelled from the spec: [ploomber.clients.storage.util._resolve] is
    not among the sources.  The specification has [map] "canonicalize
    [local_path] to an absolute path" with ".." normalised, which on
    this store is [Path.resolve] from the working directory. *)
Definition spec_resolve (cwd : list string) (local : Path) : list string :=
  resolve cwd local.

Section methods.

(** The helper [_resolve] the methods call, as a function of the working
    directory and the path: the methods are embedded over any such
    helper, and [spec_resolve] is the one the specification describes. *)
Context (_resolve : list string → Path → list string).

(** [_remote_path(local)]. *)
Definition _remote_path (c : LocalStorageClient) (w : world) (local : Path)
  : res Path :=
  (relative <- relative_to (_resolve (cwd w) local) (_path_to_project_root c);;
   Ok (join (_path_to_backup_dir c) relative))%py.

(** [_remote_exists(local)]. *)
Definition _remote_exists (c : LocalStorageClient) (local : Path) : M bool :=
  (remote <~ mread (λ w, _remote_path c w local);;
   mread (λ w, Ok (exists_ w remote)))%py.

(** [download(local, destination=None)]. *)
Definition download (c : LocalStorageClient) (local : Path)
    (destination : option Path) : M unit :=
  (remote <~ mread (λ w, _remote_path c w local);;
   let destination := default local destination in
   _ <~ mkdir_parents (parent destination);;
   λ w,
     if is_file w remote then Shutil.copy remote destination w
     else if is_dir w remote then Shutil.copytree remote destination w
     else (Raise (RemoteFileNotFound (render local)
                    (render (_path_to_backup_dir c))), w))%py.

(** [upload(local)]. *)
Definition upload (c : LocalStorageClient) (local : Path) : M unit :=
  (remote_path <~ mread (λ w, _remote_path c w local);;
   _ <~ mkdir_parents (parent remote_path);;
   λ w,
     if is_file w local then Shutil.copy local remote_path w
     else Shutil.copytree local remote_path w)%py.

End methods.

End Local.

(* ================================================================== *)
(** * Notions used in the statements *)

(** A location free of [".."], as [os.getcwd()] returns it. *)
Definition normal (loc : list string) : Prop := ".." ∉ loc.

(** The [k]-th ancestor of a location. *)
Fixpoint up (k : nat) (loc : list string) : list string :=
  match k with
  | O => loc
  | S k' => up k' (removelast loc)
  end.

(** What a location holds: a file with its bytes, a directory, or
    nothing. *)
Inductive kind :=
| KFile (data : list Byte.byte)
| KDir.

Definition kind_of (n : option node) : option kind :=
  match n with
  | Some (File data) => Some (KFile data)
  | Some (Dir _) => Some KDir
  | None => None
  end.

Definition kind_at (w : world) (loc : list string) : option kind :=
  kind_of (get (tree w) loc).

(** [w'] is [w] with nothing changed but directories added where there
    was nothing: no file is created, removed or rewritten. *)
Definition only_new_dirs (w w' : world) : Prop :=
  cwd w' = cwd w ∧
  ∀ loc, kind_at w' loc = kind_at w loc ∨
         (kind_at w loc = None ∧ kind_at w' loc = Some KDir).

(** Directories of [t] are directories of [t']. *)
Definition keeps_dirs (t t' : node) : Prop :=
  ∀ q, kind_of (get t q) = Some KDir → kind_of (get t' q) = Some KDir.

(** [shutil.rmtree(loc)] or [os.unlink(loc)] by some other party. *)
Definition removed (w : world) (loc : list string) : world :=
  with_tree w (del (tree w) loc).

(** The string has a directory separator. *)
Fixpoint has_sep (s : string) : bool :=
  match s with
  | EmptyString => false
  | String c s' => Ascii.eqb c "/" || has_sep s'
  end.

(** The directory a search starts from: [Path(starting_dir or
    os.getcwd()).resolve()]. *)
Definition start_dir (w : world) (starting_dir : pathlike) : list string :=
  resolve (cwd w) (Default.path_or starting_dir (of_loc (cwd w))).

(** The entry [name] exists in the [k]-th ancestor of [dir]. *)
Definition marker (w : world) (dir : list string) (name : string) (k : nat)
  : Prop :=
  exists_ w (join (of_loc (up k dir)) (parse name)) = true.

(** The specification's wording of [find_project_root], nearest first:
    ascend one directory at a time and take the first directory that
    holds any of the marker names. *)
Fixpoint nearest_root (w : world) (levels : nat) (dir : list string)
  : option (list string) :=
  match levels with
  | O => None
  | S levels' =>
      if existsb (λ name, exists_ w (join (of_loc dir) (parse name)))
                 Default.options
      then Some dir
      else nearest_root w levels' (removelast dir)
  end.

Definition spec_find_project_root (w : world) (starting_dir : pathlike)
  : option (list string) :=
  nearest_root w 6 (start_dir w starting_dir).

(** A package-style candidate for [name] under [root_path]: the path
    [root_path/src/d/name] exists, for an entry [d] of [root_path/src]
    that [*] matches and whose path does not end in [.egg-info]. *)
Definition pkg_candidate (w : world) (root_path : Path) (name : string)
    (f : Path) : Prop :=
  ∃ ds d,
    listdir w (join root_path (parse "src")) = Ok ds ∧
    d ∈ ds ∧ Default.hidden d = false ∧
    f = join (join (join root_path (parse "src")) (mkPath false [d]))
             (parse name) ∧
    exists_ w f = true ∧
    Default.endswith (render (parent f)) ".egg-info" = false.

(** A package-style match for a file name that is a pattern: an entry
    [n] of a directory [root_path/src/d], [d] not hidden, that the
    pattern [name] matches, hidden entries being left out unless the
    pattern begins with a dot itself; the path of [d] does not end in
    [.egg-info]. *)
Definition pattern_candidate (w : world) (root_path : Path) (name : string)
    (f : Path) : Prop :=
  ∃ ds d ns n,
    listdir w (join root_path (parse "src")) = Ok ds ∧
    d ∈ ds ∧ Default.hidden d = false ∧
    listdir w (join (join root_path (parse "src")) (mkPath false [d]))
      = Ok ns ∧
    n ∈ ns ∧ (Default.hidden name = false → Default.hidden n = false) ∧
    Fnmatch.fnmatchcase n name = true ∧
    f = join (join (join root_path (parse "src")) (mkPath false [d]))
             (mkPath false [n]) ∧
    Default.endswith (render (parent f)) ".egg-info" = false.

(** Every element of the list is below those that follow it. *)
Fixpoint ascending (l : list string) : Prop :=
  match l with
  | [] => True
  | x :: l' => (∀ y, y ∈ l' → String.leb x y = true) ∧ ascending l'
  end.

(** The character occurs in the string. *)
Fixpoint contains (ch : ascii) (s : string) : bool :=
  match s with
  | EmptyString => false
  | String c s' => Ascii.eqb c ch || contains ch s'
  end.

(** The string of the first location of the list that exists. *)
Definition first_existing (w : world) (locs : list (list string))
  : option string :=
  match List.find (λ loc, exists_ w (of_loc loc)) locs with
  | Some loc => Some (render (of_loc loc))
  | None => None
  end.

(** Where [path_to_env_with_name] looks for [filename]: in the working
    directory, then next to the spec. *)
Definition env_here (w : world) (filename : string) : list string :=
  resolve (cwd w) (join (parse ".") (parse filename)).

Definition env_sibling (w : world) (path_to_parent : Path)
    (filename : string) : list string :=
  resolve (cwd w) (join path_to_parent (parse filename)).

(** The file name [path_to_env_with_name] looks for without an
    override. *)
Definition env_filename (name : option string) : string :=
  match name with
  | None => "env.yaml"
  | Some n => "env." +:+ n +:+ ".yaml"
  end.

(** No component of the path has one of the signs [*], [?], [[] that
    [glob] reads as a pattern. *)
Definition magic_free (p : Path) : Prop :=
  existsb has_magic (names p) = false.

(** A string that can be the name of a directory entry. *)
Definition plain_name (c : string) : Prop :=
  has_sep c = false ∧ c ≠ "" ∧ c ≠ ".".

(** The path [root_path/src/d/name] of a package-style candidate. *)
Definition src_file (root_path : Path) (d name : string) : Path :=
  join (join (join root_path (parse "src")) (mkPath false [d])) (parse name).

(** ** Stores used in the examples *)

Module Ex.

Definition bytes (s : string) : list Byte.byte :=
  String.list_byte_of_string s.

(** A project at [/proj] with a file, a directory and an empty backup
    directory; the process runs in [/proj]. *)
Definition project : world :=
  {| cwd := ["proj"];
     tree :=
       Dir [("proj",
             Dir [("environment.yml", File []);
                  ("file", File (bytes "content"));
                  ("dir", Dir [("file", File (bytes "content"))]);
                  ("backup", Dir [])])] |}.

Definition client : Local.LocalStorageClient :=
  {| Local._path_to_backup_dir := parse "backup";
     Local._path_to_project_root := ["proj"] |}.

(** Its methods, with the helper the specification describes. *)
Definition remote_path := Local._remote_path Local.spec_resolve client.
Definition upload := Local.upload Local.spec_resolve client.
Definition download := Local.download Local.spec_resolve client.

(** The project after [upload('file')]. *)
Definition mirrored : world := snd (upload (parse "file") project).

(** The project after [upload('dir')]. *)
Definition mirrored_dir : world := snd (upload (parse "dir") project).

(** Three directories under [src] hold the manifest: one is build
    metadata, one is hidden. *)
Definition packages : world :=
  {| cwd := ["proj"];
     tree :=
       Dir [("proj",
             Dir [("src",
                   Dir [("package_c", Dir [("pipeline.yaml", File [])]);
                        (".hidden", Dir [("pipeline.yaml", File [])]);
                        ("package_a.egg-info",
                         Dir [("pipeline.yaml", File [])]);
                        ("package_b", Dir [("pipeline.yaml", File [])])]);
                  ("tests", Dir [])])] |}.

(** [environment.yml] at the top, [setup.py] one level down, the
    process two levels down (the layout of the repository's own test of
    marker priority). *)
Definition nested_package : world :=
  {| cwd := ["package"; "nested"];
     tree :=
       Dir [("environment.yml", File []);
            ("package",
             Dir [("setup.py", File []); ("nested", Dir [])])] |}.

(** [pipeline.yaml] both in the working directory and in a package. *)
Definition both_manifests : world :=
  {| cwd := ["proj"];
     tree :=
       Dir [("proj",
             Dir [("pipeline.yaml", File []);
                  ("src",
                   Dir [("some_pkg", Dir [("pipeline.yaml", File [])])])])]
  |}.

(** As [both_manifests], for the pipeline name [[a]]. *)
Definition bracket_manifests : world :=
  {| cwd := ["proj"];
     tree :=
       Dir [("proj",
             Dir [("pipeline.[a].yaml", File []);
                  ("src",
                   Dir [("some_pkg",
                         Dir [("pipeline.[a].yaml", File [])])])])]
  |}.

(** Environment files: [env.yaml] in the working directory and next to
    a spec in [dir], [env.dev.yaml] next to the spec only. *)
Definition with_envs : world :=
  {| cwd := ["proj"];
     tree :=
       Dir [("proj",
             Dir [("env.yaml", File []);
                  ("dir",
                   Dir [("env.dev.yaml", File []);
                        ("env.yaml", File []);
                        ("pipeline.dev.yaml", File [])])])]
  |}.

Definition only_package : world :=
  {| cwd := ["proj"];
     tree :=
       Dir [("proj",
             Dir [("src",
                   Dir [("some_pkg", Dir [("pipeline.yaml", File [])])])])]
  |}.

(** An installable project: [setup.py] at the top, the manifest in a
    package under [src], the process in [tests]. *)
Definition installable : world :=
  {| cwd := ["proj"; "tests"];
     tree :=
       Dir [("proj",
             Dir [("setup.py", File []);
                  ("src",
                   Dir [("package_b.egg-info",
                         Dir [("pipeline.yaml", File [])]);
                        ("package_b", Dir [("pipeline.yaml", File [])])]);
                  ("tests", Dir [])])] |}.

End Ex.

(* ================================================================== *)
(** * Facts about paths *)

Section path_facts.
Implicit Types (loc root l cs : list string) (c : string).

Lemma strip_Some root loc s : strip root loc = Some s ↔ loc = root ++ s.
Proof.
  revert loc. induction root as [|r root IH]; intros loc; simpl.
  - split; congruence.
  - destruct loc as [|c loc]; [split; discriminate|].
    case_decide; subst.
    + rewrite IH. split; congruence.
    + split; [discriminate|]. intros [= ? ?]. congruence.
Qed.

Lemma strip_app root s : strip root (root ++ s) = Some s.
Proof. by apply strip_Some. Qed.

Lemma strip_None root loc : strip root loc = None ↔ ¬ root `prefix_of` loc.
Proof.
  split.
  - intros H [s ->]. by rewrite strip_app in H.
  - intros H. destruct (strip root loc) as [s|] eqn:E; [|done].
    apply strip_Some in E. destruct H. by exists s.
Qed.

Lemma relpath_names_app root s : relpath_names (root ++ s) root = s.
Proof.
  induction root as [|r root IH]; simpl.
  - by destruct s.
  - by rewrite decide_True.
Qed.

Lemma normal_nil : normal [].
Proof. apply not_elem_of_nil. Qed.

Lemma normal_cons c l : normal (c :: l) ↔ c ≠ ".." ∧ normal l.
Proof.
  unfold normal. rewrite not_elem_of_cons.
  split; intros [??]; split; congruence.
Qed.

Lemma normal_cons_intro c l : c ≠ ".." → normal l → normal (c :: l).
Proof. intros. by apply normal_cons. Qed.

Lemma normal_app l1 l2 : normal (l1 ++ l2) ↔ normal l1 ∧ normal l2.
Proof. unfold normal. apply not_elem_of_app. Qed.

Lemma normal_removelast l : normal l → normal (removelast l).
Proof.
  induction l as [|x l IH]; [done|].
  intros [Hx Hl]%normal_cons. simpl. destruct l as [|y l].
  - apply normal_nil.
  - apply normal_cons. split; [done|]. by apply IH.
Qed.

Lemma normal_step l c : normal l → normal (step l c).
Proof.
  unfold step. case_decide.
  - apply normal_removelast.
  - intros H'. apply normal_app. split; [done|].
    apply normal_cons. split; [done | apply normal_nil].
Qed.

Lemma normal_fold_step cs l : normal l → normal (fold_left step cs l).
Proof.
  revert l. induction cs as [|c cs IH]; intros l Hl; simpl; [done|].
  apply IH, normal_step, Hl.
Qed.

Lemma normal_resolve cwd p : normal cwd → normal (resolve cwd p).
Proof.
  intros H. unfold resolve. apply normal_fold_step.
  destruct (anchored p); [apply normal_nil | done].
Qed.

Lemma normal_up k l : normal l → normal (up k l).
Proof.
  revert l. induction k as [|k IH]; intros l H; simpl; [done|].
  by apply IH, normal_removelast.
Qed.

Lemma fold_step_normal cs l : normal cs → fold_left step cs l = l ++ cs.
Proof.
  revert l. induction cs as [|c cs IH]; intros l H; simpl.
  - by rewrite app_nil_r.
  - apply normal_cons in H as [Hc Hcs]. rewrite IH by done.
    unfold step. rewrite decide_False by done.
    by rewrite <- app_assoc.
Qed.

Lemma resolve_of_loc cwd l : normal l → resolve cwd (of_loc l) = l.
Proof. intros H. unfold resolve. simpl. by rewrite fold_step_normal. Qed.

Lemma has_sep_app a b : has_sep (a +:+ b) = has_sep a || has_sep b.
Proof.
  induction a as [|c a IH]; simpl; [done|].
  by rewrite IH, orb_assoc.
Qed.

Lemma segments_no_sep s : has_sep s = false → segments s = [s].
Proof.
  unfold segments. induction s as [|c s IH]; simpl; [done|].
  intros [Hc Hs]%orb_false_iff. rewrite Hc, IH by done. done.
Qed.

Lemma length_append a b :
  String.length (a +:+ b) = String.length a + String.length b.
Proof. induction a as [|c a IH]; simpl; [done|]. by rewrite IH. Qed.

End path_facts.

(** Closed locations are checked component by component. *)
Ltac solve_normal :=
  simpl;
  repeat (apply normal_cons_intro; [discriminate|]);
  apply normal_nil.

(* ================================================================== *)
(** * Override variables *)

Import Default.

(** C7, as amended.  When [ENTRY_POINT] is set to a non-empty value,
    [entry_point] returns that value verbatim, whatever [root_path],
    [name] and the store are; when it is set to the empty string,
    [entry_point] does what it does with the variable unset. *)
Theorem entry_point_env_var environ w root_path name :
  (∀ v, environ !! "ENTRY_POINT" = Some v → v ≠ "" →
        entry_point environ w root_path name = Ok v) ∧
  (environ !! "ENTRY_POINT" = Some "" →
   entry_point environ w root_path name
     = entry_point (delete "ENTRY_POINT" environ) w root_path name).
Proof.
  split.
  - intros v Hv Hne. unfold entry_point, env_get. rewrite Hv.
    by rewrite decide_False.
  - intros Hv. unfold entry_point, env_get.
    by rewrite Hv, lookup_delete_eq.
Qed.

Lemma entry_point_env_var_witness :
  entry_point {[ "ENTRY_POINT" := "some.entry.point" ]} Ex.only_package
              PNone None = Ok "some.entry.point"
  ∧ entry_point {[ "ENTRY_POINT" := "" ]} Ex.only_package PNone None
    = entry_point (delete "ENTRY_POINT" {[ "ENTRY_POINT" := "" ]})
        Ex.only_package PNone None.
Proof.
  split.
  - apply (proj1 (entry_point_env_var _ Ex.only_package PNone None));
      [reflexivity | discriminate].
  - apply (proj2 (entry_point_env_var _ Ex.only_package PNone None)).
    reflexivity.
Defined.

(** C7 as stated fails: with [ENTRY_POINT] set to the empty string the
    test [if env_var:] is false and discovery runs as if it were unset. *)
Lemma entry_point_env_var_empty :
  let environ : gmap string string := {[ "ENTRY_POINT" := "" ]} in
  environ !! "ENTRY_POINT" = Some "" ∧
  entry_point environ Ex.only_package PNone None
    = Ok "src/some_pkg/pipeline.yaml" ∧
  entry_point environ Ex.only_package PNone None ≠ Ok "".
Proof. vm_compute. repeat split; discriminate. Qed.

(** C9.  With [PLOOMBER_ENV_FILENAME] holding more than one path
    component, [path_to_env_with_name] raises [ValueError] for every
    [path_to_parent] that [Path] accepts, whatever the store holds (no
    candidate is looked up); for [path_to_parent=None], which is what
    [path_to_env(None)] passes, building the message raises [TypeError]
    instead. *)
Theorem path_to_env_with_name_directories environ name v :
  environ !! "PLOOMBER_ENV_FILENAME" = Some v →
  1 < length (parts (parse v)) →
  (∀ w path_to_parent,
     path_to_parent ≠ PNone →
     path_to_env_with_name environ w name path_to_parent = Raise ValueError)
  ∧ (∀ w, path_to_env_with_name environ w name PNone = Raise TypeError)
  ∧ (∀ w, path_to_env environ w PNone = Raise TypeError).
Proof.
  intros Hv Hlen.
  assert (v ≠ "") as Hne by (intros ->; vm_compute in Hlen; lia).
  assert (env_get environ "PLOOMBER_ENV_FILENAME" = Some v) as Hget.
  { unfold env_get. rewrite Hv. by rewrite decide_False. }
  split; [|split].
  - intros w p Hp. unfold path_to_env_with_name. rewrite Hget.
    rewrite bool_decide_eq_true_2 by done.
    by destruct p.
  - intros w. unfold path_to_env_with_name. rewrite Hget.
    by rewrite bool_decide_eq_true_2 by done.
  - intros w. unfold path_to_env, path_to_env_with_name. rewrite Hget.
    by rewrite bool_decide_eq_true_2 by done.
Qed.

Lemma path_to_env_with_name_directories_witness :
  path_to_env_with_name {[ "PLOOMBER_ENV_FILENAME" := "path/to/env.yaml" ]}
    Ex.project None (PStr "dir") = Raise ValueError
  ∧ path_to_env_with_name {[ "PLOOMBER_ENV_FILENAME" := "path/to/env.yaml" ]}
    Ex.project None PNone = Raise TypeError.
Proof.
  pose proof (path_to_env_with_name_directories
    {[ "PLOOMBER_ENV_FILENAME" := "path/to/env.yaml" ]} None
    "path/to/env.yaml" eq_refl) as H.
  destruct H as (H1 & H2 & _); [vm_compute; lia|].
  split; [apply H1; discriminate | apply H2].
Defined.

(** C10.  With [PLOOMBER_ENV_FILENAME] holding a bare file name that
    exists neither in the working directory nor next to [path_to_parent],
    [path_to_env_with_name] raises [FileNotFoundError] when
    [path_to_parent] is truthy; when it is [None], which is what
    [path_to_env(None)] passes, the message reads the unbound local
    [sibling_env] and the call raises [UnboundLocalError] instead. *)
Theorem path_to_env_with_name_missing environ w name v :
  environ !! "PLOOMBER_ENV_FILENAME" = Some v →
  v ≠ "" →
  length (parts (parse v)) ≤ 1 →
  exists_ w (of_loc (resolve (cwd w) (join (parse ".") (parse v)))) = false →
  (∀ path_to_parent p,
     truthy path_to_parent = true →
     to_Path path_to_parent = Ok p →
     exists_ w (of_loc (resolve (cwd w) (join p (parse v)))) = false →
     path_to_env_with_name environ w name path_to_parent
       = Raise FileNotFoundError)
  ∧ path_to_env_with_name environ w name PNone = Raise UnboundLocalError
  ∧ path_to_env environ w PNone = Raise UnboundLocalError.
Proof.
  intros Hv Hne Hlen Hlocal.
  assert (env_get environ "PLOOMBER_ENV_FILENAME" = Some v) as Hget.
  { unfold env_get. rewrite Hv. by rewrite decide_False. }
  split.
  - intros a p Ha Hp Hsib. unfold path_to_env_with_name. rewrite Hget.
    rewrite bool_decide_eq_false_2 by lia. simpl.
    rewrite Hlocal, Ha, Hp. by rewrite Hsib.
  - assert (path_to_env_with_name environ w None PNone
            = Raise UnboundLocalError) as Hnone.
    { unfold path_to_env_with_name. rewrite Hget.
      rewrite bool_decide_eq_false_2 by lia. simpl. by rewrite Hlocal. }
    split; [|exact Hnone].
    unfold path_to_env_with_name. rewrite Hget.
    rewrite bool_decide_eq_false_2 by lia. simpl.
    by rewrite Hlocal.
Qed.

Lemma path_to_env_with_name_missing_witness :
  path_to_env_with_name {[ "PLOOMBER_ENV_FILENAME" := "env.dev.yaml" ]}
    Ex.project None (PStr "dir") = Raise FileNotFoundError
  ∧ path_to_env_with_name {[ "PLOOMBER_ENV_FILENAME" := "env.dev.yaml" ]}
    Ex.project None PNone = Raise UnboundLocalError.
Proof.
  pose proof (path_to_env_with_name_missing
    {[ "PLOOMBER_ENV_FILENAME" := "env.dev.yaml" ]} Ex.project None
    "env.dev.yaml" eq_refl) as H.
  destruct H as (H1 & H2 & _); [discriminate | vm_compute; lia | reflexivity |].
  split; [|exact H2].
  apply (H1 (PStr "dir") (parse "dir")); reflexivity.
Defined.

(* ================================================================== *)
(** * Project root discovery *)

Section find_root.
Context (w : world).

Lemma ascend_None name n dir :
  ascend w name n dir = None ↔ ∀ k, k < n → ¬ marker w dir name k.
Proof.
  revert dir. induction n as [|n IH]; intros dir; simpl.
  - split; [intros _ k Hk; lia | done].
  - destruct (exists_ w (join (of_loc dir) (parse name))) eqn:E.
    + split; [done|]. intros H. destruct (H 0); [lia | exact E].
    + rewrite IH. split.
      * intros H [|k] Hk; unfold marker; simpl.
        -- by rewrite E.
        -- apply H. lia.
      * intros H k Hk. apply (H (S k)). lia.
Qed.

Lemma ascend_Some name n dir k :
  k < n →
  marker w dir name k →
  (∀ j, j < k → ¬ marker w dir name j) →
  ascend w name n dir
    = Some (resolve (cwd w) (join (of_loc (up k dir)) (parse name))).
Proof.
  revert dir k. induction n as [|n IH]; intros dir k Hk Hm Hfirst; [lia|].
  simpl. destruct k as [|k].
  - unfold marker in Hm. simpl in Hm. by rewrite Hm.
  - destruct (exists_ w (join (of_loc dir) (parse name))) eqn:E.
    + destruct (Hfirst 0); [lia | exact E].
    + simpl. apply IH; [lia | exact Hm |].
      intros j Hj. apply (Hfirst (S j)). lia.
Qed.

(** The marker names are single components. *)
Lemma options_plain name :
  name ∈ options → parse name = mkPath false [name] ∧ name ≠ "..".
Proof.
  unfold options. rewrite !elem_of_cons, elem_of_nil.
  intros [->|[->|[->|[->|[->|[]]]]]]; split; (reflexivity || discriminate).
Qed.

Lemma marker_parent name dir k :
  normal dir → name ∈ options →
  removelast
    (resolve (cwd w) (join (of_loc (up k dir)) (parse name))) = up k dir.
Proof.
  intros Hn [-> Hne]%options_plain. unfold join. simpl.
  unfold resolve. simpl. rewrite fold_step_normal.
  - simpl. apply removelast_last.
  - apply normal_app. split; [by apply normal_up|].
    apply normal_cons. split; [done | apply normal_nil].
Qed.

Lemma first_root_found sd names pre name post k :
  normal (cwd w) →
  names = pre ++ name :: post →
  name ∈ options →
  (∀ n j, n ∈ pre → j < 6 → ¬ marker w (start_dir w sd) n j) →
  k < 6 →
  marker w (start_dir w sd) name k →
  (∀ j, j < k → ¬ marker w (start_dir w sd) name j) →
  first_root w sd names = Some (up k (start_dir w sd)).
Proof.
  intros Hcwd -> Hname. revert k.
  induction pre as [|n pre IH]; intros k Hpre Hk Hm Hfirst; simpl.
  - unfold find_file_recursively. fold (start_dir w sd).
    rewrite (ascend_Some name 6 _ k) by done.
    f_equal. apply marker_parent; [|done].
    by apply normal_resolve.
  - unfold find_file_recursively. fold (start_dir w sd).
    assert (ascend w n 6 (start_dir w sd) = None) as ->.
    { apply ascend_None. intros j Hj. apply Hpre; [|done]. by left. }
    apply IH; try done.
    intros n' j Hn'. apply Hpre. by right.
Qed.

Lemma first_root_none sd names :
  (∀ n j, n ∈ names → j < 6 → ¬ marker w (start_dir w sd) n j) →
  first_root w sd names = None.
Proof.
  induction names as [|n names IH]; intros H; simpl; [done|].
  unfold find_file_recursively. fold (start_dir w sd).
  assert (ascend w n 6 (start_dir w sd) = None) as ->.
  { apply ascend_None. intros j Hj. apply H; [|done]. by left. }
  apply IH. intros n' j Hn'. apply H. by right.
Qed.

End find_root.

(** C3, as amended.  [find_root_recursively] takes the marker names in
    priority order and, for each, looks in the starting directory and its
    five nearest ancestors: it returns the directory holding the nearest
    entry of the first name that is found at all (so proximity decides
    only between entries of the same name), and when no name is found in
    those six directories it returns [None], or raises [ValueError] with
    [raise_]. *)
Theorem find_root_recursively_priority w starting_dir raise_ :
  normal (cwd w) →
  (∀ pre name post k,
     options = pre ++ name :: post →
     (∀ n j, n ∈ pre → j < 6 →
        ¬ marker w (start_dir w starting_dir) n j) →
     k < 6 →
     marker w (start_dir w starting_dir) name k →
     (∀ j, j < k → ¬ marker w (start_dir w starting_dir) name j) →
     find_root_recursively w starting_dir raise_
       = Ok (Some (up k (start_dir w starting_dir))))
  ∧ ((∀ n j, n ∈ options → j < 6 →
        ¬ marker w (start_dir w starting_dir) n j) →
     find_root_recursively w starting_dir raise_
       = if raise_ then Raise ValueError else Ok None).
Proof.
  intros Hcwd. split.
  - intros pre name post k Hopts Hpre Hk Hm Hfirst.
    unfold find_root_recursively.
    rewrite (first_root_found w starting_dir options pre name post k);
      try done.
    rewrite Hopts. apply elem_of_app. right. by left.
  - intros Hnone. unfold find_root_recursively.
    by rewrite first_root_none.
Qed.

Lemma find_root_recursively_priority_witness :
  find_root_recursively Ex.nested_package PNone false = Ok (Some [])
  ∧ find_root_recursively (mkWorld [] (Dir [])) PNone true = Raise ValueError.
Proof.
  split.
  - apply (find_root_recursively_priority Ex.nested_package PNone false)
      with (pre := []) (name := "environment.yml")
           (post := ["environment.lock.yml"; "requirements.txt";
                     "requirements.lock.txt"; "setup.py"]) (k := 2).
    + solve_normal.
    + reflexivity.
    + intros n j Hn. by apply elem_of_nil in Hn.
    + lia.
    + reflexivity.
    + intros [|[|j]] Hj; [discriminate | discriminate | lia].
  - apply (find_root_recursively_priority (mkWorld [] (Dir [])) PNone true).
    + apply normal_nil.
    + intros n j Hn Hj.
      unfold options in Hn. rewrite !elem_of_cons, elem_of_nil in Hn.
      do 6 (destruct j as [|j];
            [destruct Hn as [->|[->|[->|[->|[->|[]]]]]]; discriminate|]).
      lia.
Defined.

(** C3 as stated fails: in the layout of the repository's own priority
    test the nearest marker is [package/setup.py], one level up, and the
    nearest-first reading gives [/package]; the code returns the root
    [/], where the higher-priority [environment.yml] lies two levels
    up. *)
Lemma find_root_recursively_not_nearest :
  marker Ex.nested_package (start_dir Ex.nested_package PNone) "setup.py" 1 ∧
  (∀ n, n ∈ options →
        ¬ marker Ex.nested_package (start_dir Ex.nested_package PNone) n 0) ∧
  spec_find_project_root Ex.nested_package PNone = Some ["package"] ∧
  find_root_recursively Ex.nested_package PNone false = Ok (Some []).
Proof.
  repeat split.
  intros n Hn. unfold options in Hn. rewrite !elem_of_cons, elem_of_nil in Hn.
  destruct Hn as [->|[->|[->|[->|[->|[]]]]]]; discriminate.
Qed.

(* ================================================================== *)
(** * Facts about the store *)

Section tree_facts.
Implicit Types (t m : node) (loc q l s : list string) (c : string).
Implicit Types (es : list (string * node)).

Lemma assoc_set_eq c v es : assoc c (assoc_set c v es) = Some v.
Proof.
  induction es as [|[k x] es IH]; simpl.
  - by rewrite decide_True.
  - case_decide; simpl.
    + by rewrite decide_True.
    + by rewrite decide_False.
Qed.

Lemma assoc_set_ne c c' v es :
  c ≠ c' → assoc c' (assoc_set c v es) = assoc c' es.
Proof.
  intros Hne. induction es as [|[k x] es IH]; simpl.
  - by rewrite decide_False.
  - case_decide; subst; simpl.
    + by rewrite !decide_False.
    + case_decide; [done | apply IH].
Qed.

Lemma assoc_set_id c v es : assoc c es = Some v → assoc_set c v es = es.
Proof.
  induction es as [|[k x] es IH]; simpl; [done|].
  case_decide; subst.
  - by intros [= ->].
  - intros H'. by rewrite IH.
Qed.

Lemma get_app t l s : get t (l ++ s) = get t l ≫= λ m, get m s.
Proof.
  revert t. induction l as [|c l IH]; intros t; simpl; [done|].
  destruct t as [|es]; [done|].
  destruct (assoc c es); [apply IH | done].
Qed.

(** What lies on the way to an existing entry is a directory. *)
Lemma get_snoc t l c n :
  get t (l ++ [c]) = Some n →
  ∃ es, get t l = Some (Dir es) ∧ assoc c es = Some n.
Proof.
  rewrite get_app. destruct (get t l) as [[|es]|]; simpl; try done.
  destruct (assoc c es) eqn:E; [|done].
  intros [= ->]. by exists es.
Qed.

Lemma get_removelast t l n :
  get t l = Some n → l ≠ [] →
  ∃ es, get t (removelast l) = Some (Dir es).
Proof.
  destruct l as [|c l _] using rev_ind; [done|].
  intros (es & H & _)%get_snoc _. exists es.
  by rewrite removelast_last.
Qed.

Lemma put_snoc t l c v es :
  get t l = Some (Dir es) → is_Some (put t (l ++ [c]) v).
Proof.
  revert t. induction l as [|a l IH]; intros t; simpl.
  - by intros [= ->].
  - destruct t as [|es0]; [done|].
    destruct (assoc a es0) as [m|] eqn:E; [|done].
    intros Hm. destruct (IH m Hm) as [m' Hm'].
    rewrite Hm'. by destruct (l ++ [c]).
Qed.

Lemma put_existing t loc v : is_Some (get t loc) → is_Some (put t loc v).
Proof.
  destruct loc as [|c l _] using rev_ind; [done|].
  intros [n (es & H & _)%get_snoc]. by eapply put_snoc.
Qed.

Lemma put_get_id t loc v : get t loc = Some v → put t loc v = Some t.
Proof.
  revert t. induction loc as [|c l IH]; intros t; simpl.
  - by intros [= ->].
  - destruct t as [|es]; [done|].
    destruct (assoc c es) as [m|] eqn:E; [|done].
    intros Hm. destruct l as [|c2 l].
    + simpl in Hm. injection Hm as ->. by rewrite assoc_set_id.
    + rewrite (IH m Hm). by rewrite assoc_set_id.
Qed.

(** Reading at or below the location just written. *)
Lemma get_put_below t loc v t' s :
  put t loc v = Some t' → get t' (loc ++ s) = get v s.
Proof.
  revert t t'. induction loc as [|c l IH]; intros t t'; simpl.
  - by intros [= ->].
  - destruct t as [|es]; [done|]. destruct l as [|c2 l].
    + intros [= <-]. simpl. by rewrite assoc_set_eq.
    + destruct (assoc c es) as [m|]; [|done].
      destruct (put m (c2 :: l) v) as [m'|] eqn:E; [|done].
      intros [= <-]. rewrite <- (IH m m' E). simpl.
      by rewrite assoc_set_eq.
Qed.

Lemma get_put_eq t loc v t' : put t loc v = Some t' → get t' loc = Some v.
Proof.
  intros H. rewrite <- (app_nil_r loc). by rewrite (get_put_below _ _ _ _ _ H).
Qed.

(** Reading anywhere else: the kind is kept, and the node itself when
    the location is not on the way to the one written. *)
Lemma get_put_other t loc v t' q :
  put t loc v = Some t' →
  strip loc q = None →
  kind_of (get t' q) = kind_of (get t q) ∧
  (strip q loc = None → get t' q = get t q).
Proof.
  revert t t' q. induction loc as [|c l IH]; intros t t' q; simpl; [done|].
  destruct t as [|es]; [done|]. destruct q as [|c' q].
  - destruct l as [|c2 l].
    + intros [= <-] _. by split.
    + destruct (assoc c es) as [m|]; [|done].
      destruct (put m (c2 :: l) v) as [m'|]; [|done].
      intros [= <-] _. by split.
  - case_decide; subst.
    + destruct l as [|c2 l]; [done|].
      destruct (assoc c' es) as [m|] eqn:E; [|done].
      destruct (put m (c2 :: l) v) as [m'|] eqn:E'; [|done].
      intros [= <-] Hs. simpl. rewrite assoc_set_eq, E, decide_True by done.
      by apply IH.
    + intros Hput _.
      assert (get t' (c' :: q) = get (Dir es) (c' :: q)) as ->; [|done].
      destruct l as [|c2 l].
      * injection Hput as <-. simpl. by rewrite assoc_set_ne.
      * destruct (assoc c es) as [m|]; [|done].
        destruct (put m (c2 :: l) v) as [m'|]; [|done].
        injection Hput as <-. simpl. by rewrite assoc_set_ne.
Qed.

Lemma get_below_absent t loc s : get t loc = None → get t (loc ++ s) = None.
Proof. intros H. by rewrite get_app, H. Qed.

Lemma get_below_file t loc data s :
  get t loc = Some (File data) → s ≠ [] → get t (loc ++ s) = None.
Proof. intros H Hs. rewrite get_app, H. simpl. by destruct s. Qed.

End tree_facts.

Section walk_facts.
Implicit Types (t : node) (loc q l cs : list string) (c : string).
Implicit Types (w : world) (p : Path).

Lemma kind_of_dir o : kind_of o = Some KDir ↔ ∃ es, o = Some (Dir es).
Proof.
  split.
  - destruct o as [[|es]|]; simpl; try done. by exists es.
  - by intros [es ->].
Qed.

Lemma kind_of_file o data :
  kind_of o = Some (KFile data) ↔ o = Some (File data).
Proof. destruct o as [[|es]|]; simpl; split; congruence. Qed.

Lemma kind_of_none o : kind_of o = None ↔ o = None.
Proof. by destruct o as [[|es]|]. Qed.

Lemma walk_resolve t l cs loc :
  walk t l cs = Ok loc → loc = fold_left step cs l.
Proof.
  revert l. induction cs as [|c cs IH]; intros l; simpl.
  - by intros [= ->].
  - destruct (get t l) as [[|es]|]; try done. apply IH.
Qed.

Lemma walk_app t l cs1 cs2 :
  walk t l (cs1 ++ cs2) = (l' <- walk t l cs1;; walk t l' cs2)%py.
Proof.
  revert l. induction cs1 as [|c cs1 IH]; intros l; simpl; [done|].
  destruct (get t l) as [[|es]|]; auto.
Qed.

Lemma walk_mono t t' l cs loc :
  keeps_dirs t t' → walk t l cs = Ok loc → walk t' l cs = Ok loc.
Proof.
  intros Hk. revert l. induction cs as [|c cs IH]; intros l; simpl; [done|].
  destruct (get t l) as [[|es]|] eqn:E; try done.
  assert (kind_of (get t' l) = Some KDir) as [es' ->]%kind_of_dir.
  { apply Hk. by rewrite E. }
  apply IH.
Qed.

Lemma locate_resolve w p loc : locate w p = Ok loc → loc = resolve (cwd w) p.
Proof. unfold locate, resolve, start. apply walk_resolve. Qed.

(** The last component is looked up in the directory the parent
    denotes. *)
Lemma locate_last w a ns c :
  locate w (mkPath a (ns ++ [c])) =
    (l <- locate w (mkPath a ns);;
     match get (tree w) l with
     | Some (Dir _) => Ok (step l c)
     | Some (File _) => Raise NotADirectoryError
     | None => Raise FileNotFoundError
     end)%py.
Proof.
  unfold locate, start. simpl. rewrite walk_app.
  destruct (walk _ _ ns); simpl; [|done].
  by destruct (get (tree w) a0) as [[|es]|].
Qed.

Lemma parent_snoc a ns c : parent (mkPath a (ns ++ [c])) = mkPath a ns.
Proof. unfold parent. simpl. by rewrite removelast_last. Qed.

Lemma is_dir_stat w p : is_dir w p = true ↔ ∃ es, stat w p = Ok (Dir es).
Proof.
  unfold is_dir. split.
  - destruct (stat w p) as [[|es]|]; try done. by exists es.
  - by intros [es ->].
Qed.

Lemma stat_inv w p n :
  stat w p = Ok n ↔
  ∃ loc, locate w p = Ok loc ∧ get (tree w) loc = Some n.
Proof.
  unfold stat. destruct (locate w p) as [loc|e]; simpl.
  - destruct (get (tree w) loc) as [m|] eqn:E; split.
    + intros [= ->]. by exists loc.
    + intros (? & [= <-] & H). congruence.
    + done.
    + intros (? & [= <-] & H). congruence.
  - split; [done|]. by intros (? & [=] & _).
Qed.

Lemma exists_false_stat w p loc :
  exists_ w p = false → locate w p = Ok loc → get (tree w) loc = None.
Proof.
  intros H Hl. unfold exists_, stat in H. rewrite Hl in H. simpl in H.
  by destruct (get (tree w) loc).
Qed.

(** Once the parent is a directory, the path itself can be located. *)
Lemma locate_of_parent w p :
  is_dir w (parent p) = true → ∃ loc, locate w p = Ok loc.
Proof.
  destruct p as [a ns]. destruct ns as [|c ns _] using rev_ind.
  - intros (es & (loc & H & _)%stat_inv)%is_dir_stat. by exists loc.
  - rewrite parent_snoc.
    intros (es & (loc & H & Hg)%stat_inv)%is_dir_stat.
    rewrite locate_last, H. simpl. rewrite Hg. by eexists.
Qed.

End walk_facts.

Section mkdir_facts.
Implicit Types (w : world) (p : Path) (loc q : list string).

Lemma only_new_dirs_refl w : only_new_dirs w w.
Proof. split; [done|]. intros loc. by left. Qed.

Lemma only_new_dirs_trans w1 w2 w3 :
  only_new_dirs w1 w2 → only_new_dirs w2 w3 → only_new_dirs w1 w3.
Proof.
  intros [Hc1 H1] [Hc2 H2]. split; [congruence|]. intros loc.
  destruct (H1 loc) as [E1|[E1 E1']], (H2 loc) as [E2|[E2 E2']].
  - left. congruence.
  - right. split; congruence.
  - right. split; congruence.
  - congruence.
Qed.

Lemma only_new_dirs_keeps w w' :
  only_new_dirs w w' → keeps_dirs (tree w) (tree w').
Proof.
  intros [_ H] q Hq. destruct (H q) as [E|[E _]]; unfold kind_at in *;
    congruence.
Qed.

Lemma only_new_dirs_file w w' loc data :
  only_new_dirs w w' →
  get (tree w') loc = Some (File data) ↔ get (tree w) loc = Some (File data).
Proof.
  intros [_ H]. rewrite <- !kind_of_file.
  destruct (H loc) as [E|[E E']]; unfold kind_at in *; split; congruence.
Qed.

Lemma locate_mono w w' p loc :
  cwd w' = cwd w → keeps_dirs (tree w) (tree w') →
  locate w p = Ok loc → locate w' p = Ok loc.
Proof.
  intros Hc Hk. unfold locate, start. rewrite Hc. by apply walk_mono.
Qed.

Lemma stat_new_dirs w w' p n :
  only_new_dirs w w' → stat w p = Ok n →
  ∃ n', stat w' p = Ok n' ∧ kind_of (Some n') = kind_of (Some n).
Proof.
  intros Hn (loc & Hl & Hg)%stat_inv.
  pose proof (locate_mono w w' p loc (proj1 Hn)
                (only_new_dirs_keeps _ _ Hn) Hl) as Hl'.
  destruct Hn as [_ Hn]. destruct (Hn loc) as [E|[E _]];
    unfold kind_at in *; rewrite Hg in E.
  - destruct (get (tree w') loc) as [n'|] eqn:Eg; [|by destruct n].
    exists n'. split; [|done]. apply stat_inv. by exists loc.
  - by destruct n.
Qed.

Lemma is_dir_new_dirs w w' p :
  only_new_dirs w w' → is_dir w p = true → is_dir w' p = true.
Proof.
  intros Hn (es & Hs)%is_dir_stat.
  destruct (stat_new_dirs _ _ _ _ Hn Hs) as ([|es'] & Hs' & Hk); [done|].
  apply is_dir_stat. by exists es'.
Qed.

Lemma read_file_new_dirs w w' p data :
  only_new_dirs w w' →
  Shutil.read_file w p = Ok data → Shutil.read_file w' p = Ok data.
Proof.
  intros Hn. unfold Shutil.read_file.
  destruct (stat w p) as [[d|es]|] eqn:Hs; simpl; try done.
  intros [= ->].
  destruct (stat_new_dirs _ _ _ _ Hn Hs) as ([d'|] & -> & Hk); [|done].
  simpl in *. congruence.
Qed.

Lemma os_mkdir_spec p w r w' :
  os_mkdir p w = (r, w') →
  only_new_dirs w w' ∧ (r = Ok () → is_dir w' p = true).
Proof.
  unfold os_mkdir.
  destruct (locate w p) as [loc|e] eqn:El;
    [|intros [= <- <-]; split; [apply only_new_dirs_refl | done]].
  destruct (get (tree w) loc) as [n|] eqn:Eg;
    [intros [= <- <-]; split; [apply only_new_dirs_refl | done]|].
  destruct (put (tree w) loc (Dir [])) as [t'|] eqn:Ep;
    [|intros [= <- <-]; split; [apply only_new_dirs_refl | done]].
  intros [= <- <-].
  assert (only_new_dirs w (with_tree w t')) as Hn.
  { split; [done|]. intros q. unfold kind_at. simpl.
    destruct (strip loc q) as [s|] eqn:Es.
    - apply strip_Some in Es as ->. destruct s as [|c s].
      + right. rewrite app_nil_r. by rewrite (get_put_eq _ _ _ _ Ep), Eg.
      + left. rewrite (get_put_below _ _ _ _ _ Ep). simpl.
        by rewrite get_below_absent.
    - left. by apply (get_put_other _ _ _ _ _ Ep). }
  split; [done|]. intros _. apply is_dir_stat. exists [].
  apply stat_inv. exists loc. split.
  - apply (locate_mono w); [done | | done]. by apply only_new_dirs_keeps.
  - simpl. by apply get_put_eq in Ep.
Qed.

Lemma mkdir_once_spec p w r w' :
  mkdir_once p w = (r, w') →
  only_new_dirs w w' ∧ (r = Ok () → is_dir w' p = true).
Proof.
  unfold mkdir_once. destruct (os_mkdir p w) as [[u|e] w1] eqn:E.
  - intros [= <- <-]. destruct u. by apply os_mkdir_spec in E.
  - apply os_mkdir_spec in E as [Hn _].
    destruct e; try (destruct (is_dir w1 p) eqn:Ed);
      intros [= <- <-]; by split.
Qed.

Lemma mkdir_rev_spec anch rnames w r w' :
  mkdir_rev anch rnames w = (r, w') →
  only_new_dirs w w' ∧
  (r = Ok () → is_dir w' (mkPath anch (rev rnames)) = true).
Proof.
  revert w r w'. induction rnames as [|c rn IH]; intros w r w'.
  - simpl. destruct (os_mkdir _ w) as [[u|e] w1] eqn:E.
    + intros [= <- <-]. destruct u. by apply os_mkdir_spec in E.
    + apply os_mkdir_spec in E as [Hn _].
      destruct e; try (destruct (is_dir w1 _) eqn:Ed);
        intros [= <- <-]; by split.
  - cbn [mkdir_rev]. destruct (os_mkdir _ w) as [[u|e] w1] eqn:E.
    + intros [= <- <-]. destruct u. by apply os_mkdir_spec in E.
    + apply os_mkdir_spec in E as [Hn _].
      destruct e; try (destruct (is_dir w1 _) eqn:Ed; intros [= <- <-];
                       by split).
      destruct (mkdir_rev anch rn w1) as [[u|e] w2] eqn:E2.
      * apply IH in E2 as [Hn2 _]. intros [Hn3 Hd]%mkdir_once_spec.
        split; [|done].
        eapply only_new_dirs_trans; [done|].
        by eapply only_new_dirs_trans.
      * apply IH in E2 as [Hn2 _]. intros [= <- <-].
        split; [|done]. by eapply only_new_dirs_trans.
Qed.

Lemma mkdir_parents_spec p w r w' :
  mkdir_parents p w = (r, w') →
  only_new_dirs w w' ∧ (r = Ok () → is_dir w' p = true).
Proof.
  unfold mkdir_parents. intros H%mkdir_rev_spec.
  rewrite rev_involutive in H. by destruct p.
Qed.

(** On a directory that is already there nothing happens. *)
Lemma mkdir_parents_existing p w :
  is_dir w p = true → mkdir_parents p w = (Ok (), w).
Proof.
  intros Hd. unfold mkdir_parents.
  assert (os_mkdir (mkPath (anchored p) (rev (rev (names p)))) w
          = (Raise FileExistsError, w)) as Hm.
  { rewrite rev_involutive.
    apply is_dir_stat in Hd as (es & (loc & Hl & Hg)%stat_inv).
    unfold os_mkdir. destruct p as [a ns]. simpl. by rewrite Hl, Hg. }
  assert (is_dir w (mkPath (anchored p) (rev (rev (names p)))) = true) as Hd'.
  { rewrite rev_involutive. by destruct p. }
  destruct (rev (names p)) as [|c rn]; cbn [mkdir_rev]; by rewrite Hm, Hd'.
Qed.

End mkdir_facts.

(* ================================================================== *)
(** * The storage client *)

Import Local.

Section copy_facts.
Implicit Types (w : world) (p src dst : Path) (loc q : list string).

(** A path whose parent is a directory and which is not one itself can
    be bound. *)
Lemma locate_put w p loc v :
  is_dir w (parent p) = true → is_dir w p = false →
  locate w p = Ok loc → is_Some (put (tree w) loc v).
Proof.
  destruct p as [a ns]. destruct ns as [|c ns _] using rev_ind.
  - intros Hp Hd. unfold parent in Hp. simpl in Hp. congruence.
  - rewrite parent_snoc.
    intros (es & (l & Hl & Hg)%stat_inv)%is_dir_stat Hd.
    rewrite locate_last, Hl. simpl. rewrite Hg. intros [= <-].
    unfold step. case_decide; [|by eapply put_snoc].
    exfalso. subst c.
    assert (∃ es', get (tree w) (removelast l) = Some (Dir es')) as [es' He].
    { destruct l as [|x l]; [by exists es|].
      by apply (get_removelast _ _ _ Hg). }
    assert (is_dir w (mkPath a (ns ++ [".."])) = true); [|congruence].
    apply is_dir_stat. exists es'. apply stat_inv. exists (removelast l).
    split; [|done]. rewrite locate_last, Hl. simpl. rewrite Hg.
    unfold step. by rewrite decide_True.
Qed.

(** Writing a file where there is no directory changes that location
    and nothing else. *)
Lemma put_file_kinds t loc data t' q :
  put t loc (File data) = Some t' →
  kind_of (get t loc) ≠ Some KDir →
  kind_of (get t' q) =
    if decide (q = loc) then Some (KFile data) else kind_of (get t q).
Proof.
  intros Hp Hk. destruct (strip loc q) as [s|] eqn:Es.
  - apply strip_Some in Es as ->. destruct s as [|c s].
    + rewrite app_nil_r, decide_True by done.
      by rewrite (get_put_eq _ _ _ _ Hp).
    + rewrite decide_False.
      2:{ intros H. apply (f_equal length) in H.
          rewrite length_app in H. simpl in H. lia. }
      rewrite (get_put_below _ _ _ _ _ Hp). simpl.
      destruct (get t loc) as [[d|es]|] eqn:Eg.
      * by rewrite (get_below_file _ _ _ _ Eg).
      * done.
      * by rewrite get_below_absent.
  - rewrite decide_False.
    2:{ intros ->. pose proof (strip_app loc []) as H.
        rewrite app_nil_r in H. congruence. }
    by apply (get_put_other _ _ _ _ _ Hp).
Qed.

Lemma with_tree_same w : with_tree w (tree w) = w.
Proof. by destruct w. Qed.

(** [shutil.copy] of a regular file onto a path that is not a
    directory and not the file itself. *)
Lemma copy_file_spec w src dst data :
  Shutil.read_file w src = Ok data →
  is_dir w (parent dst) = true →
  is_dir w dst = false →
  resolve (cwd w) src ≠ resolve (cwd w) dst →
  ∃ t',
    put (tree w) (resolve (cwd w) dst) (File data) = Some t' ∧
    Shutil.copy src dst w = (Ok (), with_tree w t') ∧
    Shutil.read_file (with_tree w t') dst = Ok data ∧
    Shutil.read_file (with_tree w t') src = Ok data ∧
    keeps_dirs (tree w) t' ∧
    ∀ q, kind_of (get t' q) =
           if decide (q = resolve (cwd w) dst) then Some (KFile data)
           else kind_of (get (tree w) q).
Proof.
  intros Hread Hpar Hnd Hne.
  destruct (locate_of_parent _ _ Hpar) as [dloc Hdl].
  pose proof (locate_resolve _ _ _ Hdl) as Hdr.
  destruct (locate_put w dst dloc (File data) Hpar Hnd Hdl) as [t' Hput].
  assert (∃ sloc, locate w src = Ok sloc ∧
                  get (tree w) sloc = Some (File data)) as (sloc & Hsl & Hsg).
  { unfold Shutil.read_file in Hread.
    destruct (stat w src) as [[d|es]|] eqn:Hs; simpl in Hread; try done.
    injection Hread as ->. by apply stat_inv in Hs. }
  pose proof (locate_resolve _ _ _ Hsl) as Hsr.
  assert (kind_of (get (tree w) dloc) ≠ Some KDir) as Hk.
  { intros [es He]%kind_of_dir.
    assert (is_dir w dst = true); [|congruence].
    apply is_dir_stat. exists es. apply stat_inv. by exists dloc. }
  pose proof (λ q, put_file_kinds _ _ _ _ q Hput Hk) as Hkinds.
  assert (keeps_dirs (tree w) t') as Hkeep.
  { intros q Hq. rewrite Hkinds. case_decide; [|done]. subst q. congruence. }
  exists t'. rewrite <- Hdr. repeat split; try done.
  - unfold Shutil.copy. rewrite Hnd. unfold Shutil.copyfile, Shutil.samefile.
    rewrite Hsl, Hdl.
    rewrite (bool_decide_eq_false_2 (sloc = dloc)) by congruence. simpl.
    rewrite Hread. unfold Shutil.write_file. rewrite Hdl.
    destruct (get (tree w) dloc) as [[d|es]|] eqn:Eg; rewrite ?Hput;
      try done.
  - unfold Shutil.read_file.
    assert (stat (with_tree w t') dst = Ok (File data)) as ->; [|done].
    apply stat_inv. exists dloc. split.
    + by apply (locate_mono w).
    + simpl. by apply get_put_eq in Hput.
  - unfold Shutil.read_file.
    assert (stat (with_tree w t') src = Ok (File data)) as ->; [|done].
    apply stat_inv. exists sloc. split.
    + by apply (locate_mono w).
    + simpl. apply kind_of_file. rewrite Hkinds.
      rewrite decide_False by congruence. by rewrite Hsg.
Qed.

Lemma exists_is_dir w p : is_dir w p = true → exists_ w p = true.
Proof. unfold is_dir, exists_. by destruct (stat w p) as [[|]|]. Qed.

(** [os.makedirs] of a fresh name in an existing directory. *)
Lemma makedirs_fresh w p :
  is_dir w (parent p) = true → exists_ w p = false →
  ∃ t',
    get (tree w) (resolve (cwd w) p) = None ∧
    locate w p = Ok (resolve (cwd w) p) ∧
    put (tree w) (resolve (cwd w) p) (Dir []) = Some t' ∧
    makedirs p w = (Ok (), with_tree w t').
Proof.
  intros Hpar Hex.
  destruct (locate_of_parent _ _ Hpar) as [loc Hl].
  pose proof (locate_resolve _ _ _ Hl) as <-.
  pose proof (exists_false_stat _ _ _ Hex Hl) as Hg.
  assert (is_dir w p = false) as Hnd.
  { destruct (is_dir w p) eqn:E; [|done].
    apply exists_is_dir in E. congruence. }
  destruct (locate_put w p loc (Dir []) Hpar Hnd Hl) as [t' Hput].
  exists t'. repeat split; try done.
  assert (os_mkdir p w = (Ok (), with_tree w t')) as Hm.
  { unfold os_mkdir. by rewrite Hl, Hg, Hput. }
  destruct p as [a ns]. unfold makedirs. simpl.
  destruct ns as [|c ns _] using rev_ind; [done|].
  rewrite rev_app_distr. simpl.
  rewrite parent_snoc in Hpar. apply exists_is_dir in Hpar.
  by rewrite !rev_involutive, Hpar, andb_false_r.
Qed.

(** [os.makedirs] of something that exists. *)
Lemma makedirs_existing w p n :
  is_dir w (parent p) = true → stat w p = Ok n →
  makedirs p w = (Raise FileExistsError, w).
Proof.
  intros Hpar (loc & Hl & Hg)%stat_inv.
  assert (os_mkdir p w = (Raise FileExistsError, w)) as Hm.
  { unfold os_mkdir. by rewrite Hl, Hg. }
  destruct p as [a ns]. unfold makedirs. simpl.
  destruct ns as [|c ns _] using rev_ind; [done|].
  rewrite rev_app_distr. simpl.
  rewrite parent_snoc in Hpar. apply exists_is_dir in Hpar.
  by rewrite !rev_involutive, Hpar, andb_false_r.
Qed.

End copy_facts.

Section copytree_facts.
Implicit Types (w : world) (p src dst : Path) (loc q : list string).

(** [shutil.copytree] of a directory onto a fresh name in an existing
    directory, the destination not lying inside the source. *)
Lemma copytree_fresh w src dst es :
  stat w src = Ok (Dir es) →
  is_dir w (parent dst) = true →
  exists_ w dst = false →
  strip (resolve (cwd w) src) (resolve (cwd w) dst) = None →
  ∃ t',
    Shutil.copytree src dst w = (Ok (), with_tree w t') ∧
    keeps_dirs (tree w) t' ∧
    stat (with_tree w t') dst = Ok (Dir es) ∧
    stat (with_tree w t') src = Ok (Dir es) ∧
    ∀ q, strip (resolve (cwd w) dst) q = None →
         kind_of (get t' q) = kind_of (get (tree w) q).
Proof.
  intros Hs Hpar Hex Hout.
  destruct (makedirs_fresh w dst Hpar Hex) as (t1 & Hg & Hl & Hput1 & Hmk).
  set (dloc := resolve (cwd w) dst) in *.
  pose proof Hs as (sloc & Hsl & Hsg)%stat_inv.
  pose proof (locate_resolve _ _ _ Hsl) as Hsr. rewrite <- Hsr in Hout.
  assert (only_new_dirs w (with_tree w t1)) as Hn1.
  { apply (os_mkdir_spec dst w (Ok ())). unfold os_mkdir.
    by rewrite Hl, Hg, Hput1. }
  pose proof (only_new_dirs_keeps _ _ Hn1) as Hk1. simpl in Hk1.
  assert (get t1 dloc = Some (Dir [])) as Hg1 by by apply get_put_eq in Hput1.
  destruct (put_existing t1 dloc (Dir es)) as [t2 Hput2]; [by rewrite Hg1|].
  assert (strip dloc sloc = None) as Hout'.
  { destruct (strip dloc sloc) as [s|] eqn:E; [|done].
    apply strip_Some in E. rewrite E in Hsg.
    by rewrite (get_below_absent _ _ s Hg) in Hsg. }
  assert (∀ q, strip dloc q = None →
               kind_of (get t2 q) = kind_of (get (tree w) q)) as Hframe.
  { intros q Hq.
    rewrite (proj1 (get_put_other _ _ _ _ _ Hput2 Hq)).
    by rewrite (proj1 (get_put_other _ _ _ _ _ Hput1 Hq)). }
  assert (keeps_dirs (tree w) t2) as Hk2.
  { intros q Hq. destruct (strip dloc q) as [s|] eqn:E.
    - apply strip_Some in E. subst q.
      by rewrite (get_below_absent _ _ s Hg) in Hq.
    - by rewrite Hframe. }
  exists t2. repeat split; try done.
  - unfold Shutil.copytree. rewrite Hs, Hmk, Hsl.
    rewrite (locate_mono w (with_tree w t1) dst dloc) by done.
    unfold Shutil.regress. rewrite Hout. simpl. by rewrite Hput2.
  - apply stat_inv. exists dloc. split.
    + by apply (locate_mono w).
    + simpl. by apply get_put_eq in Hput2.
  - apply stat_inv. exists sloc. split.
    + by apply (locate_mono w).
    + simpl.
      rewrite (proj2 (get_put_other _ _ _ _ _ Hput2 Hout') Hout).
      by rewrite (proj2 (get_put_other _ _ _ _ _ Hput1 Hout') Hout).
Qed.

(** [shutil.copytree] onto something that exists. *)
Lemma copytree_existing w src dst es n :
  stat w src = Ok (Dir es) →
  is_dir w (parent dst) = true →
  stat w dst = Ok n →
  Shutil.copytree src dst w = (Raise FileExistsError, w).
Proof.
  intros Hs Hpar Hd. unfold Shutil.copytree.
  by rewrite Hs, (makedirs_existing w dst n).
Qed.

(** With the working directory in place, whatever exists lies in a
    directory. *)
Lemma parent_is_dir w p n :
  is_dir w (mkPath false []) = true →
  stat w p = Ok n →
  is_dir w (parent p) = true.
Proof.
  intros Hcwd (loc & Hl & Hg)%stat_inv.
  destruct p as [a ns]. destruct ns as [|c ns _] using rev_ind.
  - destruct a; [|done].
    apply is_dir_stat in Hcwd as (es & (l & Hl' & Hg')%stat_inv).
    apply is_dir_stat. unfold parent. simpl.
    injection Hl as <-. unfold stat, locate. simpl.
    destruct (tree w) as [d|es0] eqn:Et; [|by exists es0].
    by destruct l.
  - rewrite parent_snoc. rewrite locate_last in Hl.
    destruct (locate w (mkPath a ns)) as [l|] eqn:El; simpl in Hl; [|done].
    destruct (get (tree w) l) as [[d|es]|] eqn:Eg; try done.
    apply is_dir_stat. exists es. apply stat_inv. by exists l.
Qed.

Lemma is_file_read w p data :
  Shutil.read_file w p = Ok data → stat w p = Ok (File data).
Proof.
  unfold Shutil.read_file.
  destruct (stat w p) as [[d|es]|]; simpl; congruence.
Qed.

Lemma stat_is_file w p data : stat w p = Ok (File data) → is_file w p = true.
Proof. unfold is_file. by intros ->. Qed.

Lemma stat_is_dir w p es :
  stat w p = Ok (Dir es) → is_file w p = false ∧ is_dir w p = true.
Proof. unfold is_file, is_dir. by intros ->. Qed.

End copytree_facts.

Section storage_client.

(** Whatever the helper [_resolve] computes from the working directory
    and the path. *)
Context (_resolve : list string → Path → list string).

Local Abbreviation _remote_path := (Local._remote_path _resolve).
Local Abbreviation _remote_exists := (Local._remote_exists _resolve).
Local Abbreviation download := (Local.download _resolve).
Local Abbreviation upload := (Local.upload _resolve).

Implicit Types (w : world) (c : LocalStorageClient) (local remote : Path).

(** C4.  A path that [_resolve] does not take to a location under the
    project root makes [_remote_path], and with it [_remote_exists],
    [download] and [upload], raise [ValueError] with the store left as it
    was; for a path under the root the mirror path is the backup
    directory joined with the suffix relative to the root. *)
Theorem remote_path_under_root c w local :
  (¬ _path_to_project_root c `prefix_of` _resolve (cwd w) local →
     _remote_path c w local = Raise ValueError ∧
     _remote_exists c local w = (Raise ValueError, w) ∧
     (∀ destination,
        download c local destination w = (Raise ValueError, w)) ∧
     upload c local w = (Raise ValueError, w))
  ∧ (∀ suffix,
       _resolve (cwd w) local = _path_to_project_root c ++ suffix →
       _remote_path c w local
         = Ok (join (_path_to_backup_dir c) (mkPath false suffix))).
Proof.
  split.
  - intros Hout%strip_None.
    assert (_remote_path c w local = Raise ValueError) as Hr.
    { unfold Local._remote_path, relative_to. by rewrite Hout. }
    repeat split; try done.
    + unfold Local._remote_exists, mbind, mread. by rewrite Hr.
    + intros destination. unfold Local.download, mbind, mread. by rewrite Hr.
    + unfold Local.upload, mbind, mread. by rewrite Hr.
  - intros suffix Hin. unfold Local._remote_path, relative_to.
    by rewrite Hin, strip_app.
Qed.

(** C8, as amended.  When the parent directory of the destination exists
    or can be made, and with it in place the mirror entry is neither a
    file nor a directory, [download] raises [RemoteFileNotFound] naming
    the requested path and the client's backup directory; the store then
    differs from the initial one by newly made directories at most: no
    file is written or changed, at the destination or elsewhere. *)
Theorem download_remote_not_found c w local destination remote w1 :
  _remote_path c w local = Ok remote →
  mkdir_parents (parent (default local destination)) w = (Ok (), w1) →
  exists_ w1 remote = false →
  download c local destination w
    = (Raise (RemoteFileNotFound (render local)
                (render (_path_to_backup_dir c))), w1)
  ∧ only_new_dirs w w1
  ∧ (∀ loc data,
       get (tree w1) loc = Some (File data) ↔
       get (tree w) loc = Some (File data)).
Proof.
  intros Hr Hm He.
  pose proof (mkdir_parents_spec _ _ _ _ Hm) as [Hn _].
  split; [|split; [done|]].
  - unfold Local.download, mbind, mread. rewrite Hr, Hm.
    unfold is_file, is_dir. unfold exists_ in He.
    by destruct (stat w1 remote).
  - intros loc data. by apply only_new_dirs_file.
Qed.

(** The usual case: the destination's parent is already there, and the
    store is left exactly as it was. *)
Lemma download_missing_in_place c w local destination remote :
  _remote_path c w local = Ok remote →
  is_dir w (parent (default local destination)) = true →
  exists_ w remote = false →
  download c local destination w
    = (Raise (RemoteFileNotFound (render local)
                (render (_path_to_backup_dir c))), w).
Proof.
  intros Hr Hpar He.
  unfold Local.download, mbind, mread. rewrite Hr.
  rewrite (mkdir_parents_existing _ _ Hpar).
  unfold is_file, is_dir. unfold exists_ in He.
  by destruct (stat w remote).
Qed.

Lemma is_dir_keeps w w' p :
  cwd w' = cwd w → keeps_dirs (tree w) (tree w') →
  is_dir w p = true → is_dir w' p = true.
Proof.
  intros Hc Hk (es & (loc & Hl & Hg)%stat_inv)%is_dir_stat.
  assert (kind_of (get (tree w') loc) = Some KDir) as [es' He]%kind_of_dir.
  { apply Hk. by rewrite Hg. }
  apply is_dir_stat. exists es'. apply stat_inv. exists loc.
  split; [|done]. by apply (locate_mono w).
Qed.

Lemma remote_path_cwd c w w' local :
  cwd w' = cwd w → _remote_path c w' local = _remote_path c w local.
Proof. intros Hc. unfold Local._remote_path. by rewrite Hc. Qed.

(** [upload] of a regular file. *)
Lemma upload_file c w local remote w1 data :
  _remote_path c w local = Ok remote →
  mkdir_parents (parent remote) w = (Ok (), w1) →
  Shutil.read_file w local = Ok data →
  is_dir w1 remote = false →
  resolve (cwd w) local ≠ resolve (cwd w) remote →
  ∃ t',
    upload c local w = (Ok (), with_tree w1 t') ∧
    Shutil.read_file (with_tree w1 t') remote = Ok data ∧
    Shutil.read_file (with_tree w1 t') local = Ok data ∧
    keeps_dirs (tree w1) t' ∧
    ∀ q, kind_of (get t' q) =
           if decide (q = resolve (cwd w) remote) then Some (KFile data)
           else kind_at w1 q.
Proof.
  intros Hr Hm Hread Hnd Hne.
  pose proof (mkdir_parents_spec _ _ _ _ Hm) as [Hn Hpar].
  specialize (Hpar eq_refl). pose proof (proj1 Hn) as Hc.
  pose proof (read_file_new_dirs _ _ _ _ Hn Hread) as Hread1.
  rewrite <- Hc in Hne.
  destruct (copy_file_spec w1 local remote data Hread1 Hpar Hnd Hne)
    as (t' & Hput & Hcopy & Hrr & Hrl & Hk & Hkinds).
  exists t'. rewrite <- Hc. repeat split; try done.
  unfold Local.upload, mbind, mread. rewrite Hr, Hm.
  by rewrite (stat_is_file _ _ _ (is_file_read _ _ _ Hread1)).
Qed.

(** [upload] of a directory. *)
Lemma upload_dir c w local remote w1 es :
  _remote_path c w local = Ok remote →
  mkdir_parents (parent remote) w = (Ok (), w1) →
  stat w1 local = Ok (Dir es) →
  exists_ w1 remote = false →
  strip (resolve (cwd w) local) (resolve (cwd w) remote) = None →
  ∃ t',
    upload c local w = (Ok (), with_tree w1 t') ∧
    stat (with_tree w1 t') remote = Ok (Dir es) ∧
    stat (with_tree w1 t') local = Ok (Dir es) ∧
    keeps_dirs (tree w1) t' ∧
    ∀ q, strip (resolve (cwd w) remote) q = None →
         kind_of (get t' q) = kind_at w1 q.
Proof.
  intros Hr Hm Hs Hex Hout.
  pose proof (mkdir_parents_spec _ _ _ _ Hm) as [Hn Hpar].
  specialize (Hpar eq_refl). pose proof (proj1 Hn) as Hc.
  rewrite <- Hc in Hout.
  destruct (copytree_fresh w1 local remote es Hs Hpar Hex Hout)
    as (t' & Hcopy & Hk & Hsr & Hsl & Hframe).
  exists t'. rewrite <- Hc. repeat split; try done.
  unfold Local.upload, mbind, mread. rewrite Hr, Hm.
  by rewrite (proj1 (stat_is_dir _ _ _ Hs)).
Qed.

(** [download] of a file onto an identical file rewrites it with the
    same bytes. *)
Lemma download_file_same c w local remote data :
  _remote_path c w local = Ok remote →
  Shutil.read_file w remote = Ok data →
  Shutil.read_file w local = Ok data →
  is_dir w (parent local) = true →
  resolve (cwd w) local ≠ resolve (cwd w) remote →
  download c local None w = (Ok (), w).
Proof.
  intros Hr Hrr Hrl Hpar Hne.
  assert (is_dir w local = false) as Hnd.
  { unfold is_dir. by rewrite (is_file_read _ _ _ Hrl). }
  destruct (copy_file_spec w remote local data Hrr Hpar Hnd)
    as (t' & Hput & Hcopy & _); [congruence|].
  pose proof (is_file_read _ _ _ Hrl) as (loc & Hl & Hg)%stat_inv.
  rewrite <- (locate_resolve _ _ _ Hl) in Hput.
  rewrite (put_get_id _ _ _ Hg) in Hput. injection Hput as <-.
  rewrite with_tree_same in Hcopy.
  unfold Local.download, mbind, mread. rewrite Hr. simpl.
  rewrite (mkdir_parents_existing _ _ Hpar).
  by rewrite (stat_is_file _ _ _ (is_file_read _ _ _ Hrr)).
Qed.

(** [download] of a directory onto something that exists. *)
Lemma download_dir_existing c w local remote es n :
  _remote_path c w local = Ok remote →
  stat w remote = Ok (Dir es) →
  stat w local = Ok n →
  is_dir w (parent local) = true →
  download c local None w = (Raise FileExistsError, w).
Proof.
  intros Hr Hs Hl Hpar.
  unfold Local.download, mbind, mread. rewrite Hr. simpl.
  rewrite (mkdir_parents_existing _ _ Hpar).
  destruct (stat_is_dir _ _ _ Hs) as [-> ->].
  by apply (copytree_existing w remote local es n).
Qed.

(** [download] of a directory onto a fresh name. *)
Lemma download_dir_fresh c w local remote es :
  _remote_path c w local = Ok remote →
  stat w remote = Ok (Dir es) →
  is_dir w (parent local) = true →
  exists_ w local = false →
  strip (resolve (cwd w) remote) (resolve (cwd w) local) = None →
  ∃ w', download c local None w = (Ok (), w') ∧
        stat w' local = Ok (Dir es) ∧ stat w' remote = Ok (Dir es).
Proof.
  intros Hr Hs Hpar Hex Hout.
  destruct (copytree_fresh w remote local es Hs Hpar Hex Hout)
    as (t' & Hcopy & Hk & Hsl & Hsr & _).
  exists (with_tree w t'). repeat split; try done.
  unfold Local.download, mbind, mread. rewrite Hr. simpl.
  rewrite (mkdir_parents_existing _ _ Hpar).
  by destruct (stat_is_dir _ _ _ Hs) as [-> ->].
Qed.


(** C2, as amended.  [upload] first makes the parent directory of the
    mirror path, adding directories only; [w1] is the store at that point
    and the call raises if this fails.  Then
    - a regular file whose mirror path is not the file itself and is not
      a directory in [w1] is copied to the mirror path, replacing a file
      that may be there, and nothing else changes;
    - a directory (entries [es] in [w1]) whose mirror path does not exist
      in [w1] and does not lie inside it is copied with its subtree to
      the mirror path, and nothing outside the mirror path changes. *)
Theorem upload_copies_to_mirror c w local remote w1 :
  _remote_path c w local = Ok remote →
  mkdir_parents (parent remote) w = (Ok (), w1) →
  only_new_dirs w w1 ∧ is_dir w1 (parent remote) = true
  ∧ (∀ data,
       Shutil.read_file w local = Ok data →
       is_dir w1 remote = false →
       resolve (cwd w) local ≠ resolve (cwd w) remote →
       ∃ w2, upload c local w = (Ok (), w2) ∧
             Shutil.read_file w2 remote = Ok data ∧
             ∀ q, q ≠ resolve (cwd w) remote →
                  kind_at w2 q = kind_at w1 q)
  ∧ (∀ es,
       stat w1 local = Ok (Dir es) →
       exists_ w1 remote = false →
       strip (resolve (cwd w) local) (resolve (cwd w) remote) = None →
       ∃ w2, upload c local w = (Ok (), w2) ∧
             stat w2 remote = Ok (Dir es) ∧
             ∀ q, strip (resolve (cwd w) remote) q = None →
                  kind_at w2 q = kind_at w1 q).
Proof.
  intros Hr Hm.
  pose proof (mkdir_parents_spec _ _ _ _ Hm) as [Hn Hpar].
  repeat split; try apply Hn; [by apply Hpar | |].
  - intros data Hread Hnd Hne.
    destruct (upload_file c w local remote w1 data Hr Hm Hread Hnd Hne)
      as (t' & Hup & Hrr & _ & _ & Hkinds).
    exists (with_tree w1 t'). repeat split; try done.
    intros q Hq. unfold kind_at at 1. simpl. rewrite Hkinds.
    by rewrite decide_False.
  - intros es Hs Hex Hout.
    destruct (upload_dir c w local remote w1 es Hr Hm Hs Hex Hout)
      as (t' & Hup & Hsr & _ & _ & Hframe).
    exists (with_tree w1 t'). repeat split; try done.
Qed.

(** C1, as amended.  Let [w1] be the store once [upload] has made the
    parent of the mirror path.
    - For a regular file, under the conditions of [upload] on files,
      [upload] followed by [download] succeeds and leaves the file with
      the bytes it had; [download] changes nothing.
    - For a directory, under the conditions of [upload] on directories,
      [upload] succeeds and the mirror holds the tree; [download] while
      the directory is still there raises [FileExistsError] and changes
      nothing; in any later store [w3] where the mirror still holds the
      tree, the directory is gone and its parent is in place, [download]
      succeeds and the directory holds the tree again. *)
Theorem upload_download_round_trip c w local remote w1 :
  _remote_path c w local = Ok remote →
  mkdir_parents (parent remote) w = (Ok (), w1) →
  is_dir w (mkPath false []) = true →
  (∀ data,
     Shutil.read_file w local = Ok data →
     is_dir w1 remote = false →
     resolve (cwd w) local ≠ resolve (cwd w) remote →
     ∃ w2, upload c local w = (Ok (), w2) ∧
           download c local None w2 = (Ok (), w2) ∧
           Shutil.read_file w2 local = Ok data)
  ∧ (∀ es,
       stat w1 local = Ok (Dir es) →
       exists_ w1 remote = false →
       strip (resolve (cwd w) local) (resolve (cwd w) remote) = None →
       ∃ w2, upload c local w = (Ok (), w2) ∧
             stat w2 remote = Ok (Dir es) ∧
             stat w2 local = Ok (Dir es) ∧
             download c local None w2 = (Raise FileExistsError, w2) ∧
             ∀ w3,
               cwd w3 = cwd w →
               stat w3 remote = Ok (Dir es) →
               is_dir w3 (parent local) = true →
               exists_ w3 local = false →
               ∃ w4, download c local None w3 = (Ok (), w4) ∧
                     stat w4 local = Ok (Dir es)).
Proof.
  intros Hr Hm Hcwd.
  pose proof (mkdir_parents_spec _ _ _ _ Hm) as [Hn _].
  pose proof (proj1 Hn) as Hc.
  pose proof (is_dir_new_dirs _ _ _ Hn Hcwd) as Hcwd1.
  split.
  - intros data Hread Hnd Hne.
    destruct (upload_file c w local remote w1 data Hr Hm Hread Hnd Hne)
      as (t' & Hup & Hrr & Hrl & Hk & _).
    exists (with_tree w1 t'). repeat split; try done.
    apply (download_file_same c _ local remote data); try done.
    + by rewrite (remote_path_cwd c w).
    + apply (parent_is_dir _ _ (File data)); [|by apply is_file_read].
      by apply (is_dir_keeps w1).
    + simpl. by rewrite Hc.
  - intros es Hs Hex Hout.
    destruct (upload_dir c w local remote w1 es Hr Hm Hs Hex Hout)
      as (t' & Hup & Hsr & Hsl & Hk & _).
    exists (with_tree w1 t'). repeat split; try done.
    + apply (download_dir_existing c _ local remote es (Dir es)); try done.
      * by rewrite (remote_path_cwd c w).
      * apply (parent_is_dir _ _ (Dir es)); [|done].
        by apply (is_dir_keeps w1).
    + intros w3 Hc3 Hs3 Hpar3 Hex3.
      destruct (download_dir_fresh c w3 local remote es) as (w4 & Hd & Hl4 & _);
        try done.
      * by rewrite (remote_path_cwd c w).
      * (* the directory exists in [w1] where the mirror does not, so it
           does not lie inside the mirror *)
        rewrite Hc3, <- Hc.
        destruct (strip (resolve (cwd w1) remote) (resolve (cwd w1) local))
          as [s|] eqn:E; [|done].
        apply strip_Some in E.
        apply stat_inv in Hs as (xloc & Hxl & Hxg).
        rewrite (locate_resolve _ _ _ Hxl), E in Hxg.
        pose proof (mkdir_parents_spec _ _ _ _ Hm) as [_ Hpar].
        destruct (locate_of_parent w1 remote (Hpar eq_refl)) as [mloc Hml].
        pose proof (exists_false_stat _ _ _ Hex Hml) as Hmg.
        rewrite (locate_resolve _ _ _ Hml) in Hmg.
        by rewrite (get_below_absent _ _ s Hmg) in Hxg.
      * by exists w4.
Qed.

End storage_client.

(** ** The client of the specification, on an example store *)

Lemma remote_path_under_root_witness :
  Ex.upload (parse "../outside") Ex.project = (Raise ValueError, Ex.project)
  ∧ Ex.remote_path Ex.project (parse "dir/file")
    = Ok (parse "backup/dir/file").
Proof.
  destruct (remote_path_under_root spec_resolve Ex.client Ex.project
              (parse "../outside")) as [Hout _].
  destruct (remote_path_under_root spec_resolve Ex.client Ex.project
              (parse "dir/file")) as [_ Hin].
  split.
  - apply Hout. intros [k Hk]. vm_compute in Hk. discriminate.
  - apply (Hin ["dir"; "file"]). reflexivity.
Defined.

Lemma download_remote_not_found_witness :
  ∃ w1,
    Ex.download (parse "nested/file") None Ex.project
      = (Raise (RemoteFileNotFound "nested/file" "backup"), w1)
    ∧ only_new_dirs Ex.project w1
    ∧ (∀ loc data,
         get (tree w1) loc = Some (File data) ↔
         get (tree Ex.project) loc = Some (File data)).
Proof.
  eexists.
  apply (download_remote_not_found spec_resolve Ex.client Ex.project
           (parse "nested/file") None (parse "backup/nested/file"));
    reflexivity.
Defined.

(** C8 as stated fails: when the parent of the destination is a regular
    file, [mkdir] raises [FileExistsError] before the mirror entry is
    looked at, although that entry is neither a file nor a directory. *)
Lemma download_parent_is_file :
  Ex.remote_path Ex.project (parse "file/x") = Ok (parse "backup/file/x") ∧
  is_file Ex.project (parse "backup/file/x") = false ∧
  is_dir Ex.project (parse "backup/file/x") = false ∧
  Ex.download (parse "file/x") None Ex.project
    = (Raise FileExistsError, Ex.project).
Proof. repeat split. Qed.

Lemma upload_copies_to_mirror_witness :
  (∃ w2, Ex.upload (parse "file") Ex.project = (Ok (), w2) ∧
         Shutil.read_file w2 (parse "backup/file") = Ok (Ex.bytes "content"))
  ∧ (∃ w2, Ex.upload (parse "dir") Ex.project = (Ok (), w2) ∧
           stat w2 (parse "backup/dir")
             = Ok (Dir [("file", File (Ex.bytes "content"))])).
Proof.
  split.
  - destruct (upload_copies_to_mirror spec_resolve Ex.client Ex.project
                (parse "file") (parse "backup/file") Ex.project
                eq_refl eq_refl) as (_ & _ & Hfile & _).
    destruct (Hfile (Ex.bytes "content")) as (w2 & Hup & Hread & _);
      [reflexivity | reflexivity | discriminate |].
    by exists w2.
  - destruct (upload_copies_to_mirror spec_resolve Ex.client Ex.project
                (parse "dir") (parse "backup/dir") Ex.project
                eq_refl eq_refl) as (_ & _ & _ & Hdir).
    destruct (Hdir [("file", File (Ex.bytes "content"))])
      as (w2 & Hup & Hs & _); [reflexivity | reflexivity | reflexivity |].
    by exists w2.
Defined.

(** C2 as stated fails for directories: once [dir] has a mirror, a second
    [upload] of it raises [FileExistsError] from [shutil.copytree] and
    replaces nothing. *)
Lemma upload_directory_twice :
  let w2 := snd (Ex.upload (parse "dir") Ex.project) in
  fst (Ex.upload (parse "dir") Ex.project) = Ok () ∧
  is_dir w2 (parse "dir") = true ∧
  is_dir w2 (parse "backup/dir") = true ∧
  Ex.upload (parse "dir") w2 = (Raise FileExistsError, w2).
Proof. repeat split. Qed.

Lemma upload_download_round_trip_witness :
  (∃ w2, Ex.upload (parse "file") Ex.project = (Ok (), w2) ∧
         Ex.download (parse "file") None w2 = (Ok (), w2) ∧
         Shutil.read_file w2 (parse "file") = Ok (Ex.bytes "content"))
  ∧ (∃ w2 w4,
       Ex.upload (parse "dir") Ex.project = (Ok (), w2) ∧
       Ex.download (parse "dir") None (removed w2 ["proj"; "dir"])
         = (Ok (), w4) ∧
       stat w4 (parse "dir")
         = Ok (Dir [("file", File (Ex.bytes "content"))])).
Proof.
  destruct (upload_download_round_trip spec_resolve Ex.client Ex.project
              (parse "file") (parse "backup/file") Ex.project
              eq_refl eq_refl eq_refl) as [Hfile _].
  destruct (upload_download_round_trip spec_resolve Ex.client Ex.project
              (parse "dir") (parse "backup/dir") Ex.project
              eq_refl eq_refl eq_refl) as [_ Hdir].
  split.
  - apply (Hfile (Ex.bytes "content"));
      [reflexivity | reflexivity | discriminate].
  - destruct (Hdir [("file", File (Ex.bytes "content"))])
      as (w2 & Hup & Hsr & Hsl & _ & Hlater);
      [reflexivity | reflexivity | reflexivity |].
    assert (w2 = snd (Ex.upload (parse "dir") Ex.project)) as Hw2.
    { unfold Ex.upload. by rewrite Hup. }
    destruct (Hlater (removed w2 ["proj"; "dir"])) as (w4 & Hd & Hs4);
      [by rewrite Hw2 | by rewrite Hw2 | by rewrite Hw2 | by rewrite Hw2 |].
    by exists w2, w4.
Defined.

(** C1 as stated fails for directories: right after [upload], the
    directory is still in place and [download] raises [FileExistsError]
    from [shutil.copytree]. *)
Lemma download_onto_uploaded_directory :
  let w2 := snd (Ex.upload (parse "dir") Ex.project) in
  fst (Ex.upload (parse "dir") Ex.project) = Ok () ∧
  is_dir w2 (parse "dir") = true ∧
  Ex.download (parse "dir") None w2 = (Raise FileExistsError, w2).
Proof. repeat split. Qed.

(* ================================================================== *)
(** * Manifest discovery *)

Section manifest_facts.
Implicit Types (w : world) (l : list string) (x y : string).

Lemma elem_of_map {A B} (f : A → B) (xs : list A) (b : B) :
  b ∈ map f xs ↔ ∃ a, b = f a ∧ a ∈ xs.
Proof.
  rewrite list_elem_of_In, in_map_iff. split.
  - intros (a & <- & Ha). exists a. by rewrite list_elem_of_In.
  - intros (a & -> & Ha). exists a. by rewrite <- list_elem_of_In.
Qed.

Lemma elem_of_insert_sorted x y l :
  y ∈ insert_sorted x l ↔ y = x ∨ y ∈ l.
Proof.
  induction l as [|z l IH]; simpl.
  - rewrite elem_of_cons, elem_of_nil. tauto.
  - destruct (String.leb x z).
    + by rewrite elem_of_cons.
    + rewrite !elem_of_cons, IH. tauto.
Qed.

Lemma elem_of_sorted y l : y ∈ sorted l ↔ y ∈ l.
Proof.
  induction l as [|x l IH]; simpl; [done|].
  by rewrite elem_of_insert_sorted, elem_of_cons, IH.
Qed.

Lemma head_sorted_None l : head (sorted l) = None ↔ l = [].
Proof.
  rewrite head_None. split; [|by intros ->].
  intros H. apply elem_of_nil_inv. intros x Hx.
  apply elem_of_sorted in Hx. rewrite H in Hx. by apply elem_of_nil in Hx.
Qed.

Lemma head_sorted_Some l x : head (sorted l) = Some x → x ∈ l.
Proof.
  intros [l' H]%head_Some. apply elem_of_sorted. rewrite H. by left.
Qed.

(** ** What [glob] yields *)

Lemma elem_of_flat_map {A B} (f : A → list B) (xs : list A) (b : B) :
  b ∈ flat_map f xs ↔ ∃ a, a ∈ xs ∧ b ∈ f a.
Proof.
  rewrite list_elem_of_In, in_flat_map. split.
  - intros (a & Ha & Hb). exists a. by rewrite !list_elem_of_In.
  - intros (a & Ha & Hb). exists a. by rewrite <- !list_elem_of_In.
Qed.

(** [*] matches every name. *)
Lemma fnmatch_star x : Fnmatch.fnmatchcase x "*" = true.
Proof. done. Qed.

Lemma filter_star names : Fnmatch.filter names "*" = names.
Proof.
  unfold Fnmatch.filter. induction names as [|x names IH]; [done|].
  cbn [List.filter]. by rewrite fnmatch_star, IH.
Qed.

(** The components of a string without signs have none. *)
Lemma has_magic_split sep s c :
  has_magic s = false → c ∈ split_on sep s → has_magic c = false.
Proof.
  revert c. induction s as [|a s IH]; intros c; simpl.
  - intros _ Hc. apply elem_of_cons in Hc as [->|Hc]; [done|].
    by apply elem_of_nil in Hc.
  - intros [[[Ha1 Ha2]%orb_false_elim Ha3]%orb_false_elim Hs]%orb_false_elim.
    destruct (Ascii.eqb a sep).
    + intros [->|Hc]%elem_of_cons; [done | by apply IH].
    + destruct (split_on sep s) as [|x xs] eqn:E.
      * intros [->|Hc]%elem_of_cons; [|by apply elem_of_nil in Hc].
        simpl. by rewrite Ha1, Ha2, Ha3.
      * intros [->|Hc]%elem_of_cons.
        -- simpl. rewrite Ha1, Ha2, Ha3. simpl. apply IH; [done | by left].
        -- apply IH; [done | by right].
Qed.

Lemma has_magic_parse name :
  has_magic name = false → existsb has_magic (names (parse name)) = false.
Proof.
  intros Hm. apply not_true_is_false. intros (c & Hc & Hmc)%existsb_exists.
  apply list_elem_of_In, list_elem_of_filter in Hc as [_ Hc].
  by rewrite (has_magic_split "/" name c Hm Hc) in Hmc.
Qed.

Lemma assoc_elem c es n : assoc c es = Some n → (c, n) ∈ es.
Proof.
  induction es as [|[k v] es IH]; simpl; [done|].
  destruct (decide (k = c)) as [->|].
  - intros [= ->]. by left.
  - intros H. right. by apply IH.
Qed.

Lemma assoc_is_Some c es : c ∈ map fst es → is_Some (assoc c es).
Proof.
  induction es as [|[k v] es IH]; simpl.
  - intros H. by apply elem_of_nil in H.
  - intros [->|H]%elem_of_cons.
    + by rewrite decide_True.
    + destruct (decide (k = c)); [done | by apply IH].
Qed.

Lemma join_assoc g l1 l2 :
  join (join g (mkPath false l1)) (mkPath false l2)
    = join g (mkPath false (l1 ++ l2)).
Proof. unfold join. simpl. by rewrite app_assoc. Qed.

(** An entry of a directory exists. *)
Lemma exists_entry w p ds d :
  listdir w p = Ok ds → d ∈ ds → d ≠ ".." →
  exists_ w (join p (mkPath false [d])) = true.
Proof.
  unfold listdir. destruct (stat w p) as [[data|es]|] eqn:Hs; try done.
  simpl. intros [= <-] Hd Hdd.
  apply stat_inv in Hs as (loc & Hl & Hg).
  destruct (assoc_is_Some d es Hd) as [n Hn].
  assert (stat w (join p (mkPath false [d])) = Ok n) as Hsd.
  { apply stat_inv. exists (loc ++ [d]). split.
    - destruct p as [a ns]. unfold join. simpl.
      rewrite locate_last, Hl. simpl. rewrite Hg.
      unfold step. by rewrite decide_False.
    - rewrite get_app, Hg. simpl. by rewrite Hn. }
  unfold exists_. by rewrite Hsd.
Qed.

(** What exists under a path lies in a directory. *)
Lemma exists_below w p c :
  exists_ w (join p (mkPath false [c])) = true → is_dir w p = true.
Proof.
  unfold exists_.
  destruct (stat w (join p (mkPath false [c]))) as [n|] eqn:Hs; [|done].
  intros _. apply stat_inv in Hs as (loc & Hl & _).
  destruct p as [a ns]. unfold join in Hl. simpl in Hl.
  rewrite locate_last in Hl.
  destruct (locate w (mkPath a ns)) as [l|] eqn:El; simpl in Hl; [|done].
  destruct (get (tree w) l) as [[data|es]|] eqn:Eg; try done.
  apply is_dir_stat. exists es. apply stat_inv. by exists l.
Qed.

Lemma exists_below_all w p cs c :
  exists_ w (join p (mkPath false (c :: cs))) = true →
  is_dir w (join p (mkPath false [c])) = true ∨
  (cs = [] ∧ exists_ w (join p (mkPath false [c])) = true).
Proof.
  revert c. induction cs as [|x cs IH] using rev_ind; intros c Hex.
  - right. by split.
  - left. destruct cs as [|y cs].
    + simpl in Hex. change [c; x] with ([c] ++ [x]) in Hex.
      rewrite <- join_assoc in Hex. by apply exists_below in Hex.
    + change (c :: (y :: cs) ++ [x]) with ((c :: y :: cs) ++ [x]) in Hex.
      rewrite <- join_assoc in Hex. apply exists_below in Hex.
      destruct (IH c) as [Hd|[[=] _]]; [|done].
      unfold exists_, is_dir in *. by destruct (stat w _) as [[|]|].
Qed.

(** The names [_listdir] gives. *)
Lemma filter_entries_all (es : list (string * node)) :
  List.filter
    (λ entry, match snd entry with
              | Dir _ => true
              | File _ => negb false
              end) es = es.
Proof.
  induction es as [|[k [data|es']] es IH]; [done| |]; simpl in *;
    by rewrite IH.
Qed.

Lemma listdir_all w p d :
  d ∈ _listdir w p false ↔ ∃ ds, listdir w p = Ok ds ∧ d ∈ ds.
Proof.
  unfold _listdir, listdir.
  destruct (stat w p) as [[data|es]|].
  - rewrite elem_of_nil. split; [done | by intros (? & [=] & _)].
  - rewrite filter_entries_all.
    split; [intros H; by exists (map fst es) | by intros (? & [= <-] & H)].
  - rewrite elem_of_nil. split; [done | by intros (? & [=] & _)].
Qed.

Lemma listdir_dirs w p d :
  d ∈ _listdir w p true ↔
  ∃ es es', stat w p = Ok (Dir es) ∧ (d, Dir es') ∈ es.
Proof.
  unfold _listdir.
  destruct (stat w p) as [[data|es]|]; simpl.
  - rewrite elem_of_nil. split; [done | by intros (? & ? & [=] & _)].
  - rewrite elem_of_map. split.
    + intros ([k n] & -> & Hin).
      apply list_elem_of_In, filter_In in Hin as [Hin Hn]. simpl in *.
      destruct n as [data|es']; [done|].
      exists es, es'. by rewrite list_elem_of_In.
    + intros (? & es' & [= <-] & Hin). exists (d, Dir es'). split; [done|].
      apply list_elem_of_In, filter_In. by rewrite <- list_elem_of_In.
  - rewrite elem_of_nil. split; [done | by intros (? & ? & [=] & _)].
Qed.

Lemma listdir_dirs_all w p d : d ∈ _listdir w p true → d ∈ _listdir w p false.
Proof.
  intros (es & es' & Hs & Hin)%listdir_dirs. apply listdir_all.
  exists (map fst es). unfold listdir. rewrite Hs. simpl. split; [done|].
  apply elem_of_map. by exists (d, Dir es').
Qed.

(** An entry under which something exists is a directory. *)
Lemma entry_is_dir w p ds d :
  listdir w p = Ok ds → d ≠ ".." →
  is_dir w (join p (mkPath false [d])) = true →
  d ∈ _listdir w p true.
Proof.
  unfold listdir. destruct (stat w p) as [[data|es]|] eqn:Hs; try done.
  intros _ Hdd (es' & (loc & Hl & Hg)%stat_inv)%is_dir_stat.
  apply stat_inv in Hs as (lp & Hlp & Hgp).
  destruct p as [a ns]. unfold join in Hl. simpl in Hl.
  rewrite locate_last, Hlp in Hl. simpl in Hl. rewrite Hgp in Hl.
  injection Hl as <-. unfold step in Hg. rewrite decide_False in Hg by done.
  apply get_snoc in Hg as (es0 & Hg0 & Ha).
  rewrite Hgp in Hg0. injection Hg0 as <-.
  apply listdir_dirs. exists es, es'. split.
  - apply stat_inv. by exists lp.
  - by apply assoc_elem.
Qed.

Lemma hidden_not_dotdot d : hidden d = false → d ≠ "..".
Proof. by intros H ->. Qed.

(** One step of [_iglob] on a pattern with a sign. *)
Lemma iglob_cons w a c rdir dironly :
  has_magic c || existsb has_magic rdir = true →
  _iglob w a (c :: rdir) dironly =
    flat_map
      (λ dirname,
         map (λ name, join dirname (mkPath false [name]))
             (if has_magic c then _glob1 w dirname c dironly
              else _glob0 w dirname c))
      (if existsb has_magic rdir then _iglob w a rdir true
       else [mkPath a (rev rdir)]).
Proof. intros H. cbn [_iglob existsb]. by rewrite H. Qed.

Local Arguments _iglob : simpl never.

(** A component without signs after a pattern: the matches of the
    pattern under which the component exists. *)
Lemma iglob_literal w a c rdir dironly f :
  has_magic c = false → existsb has_magic rdir = true →
  f ∈ _iglob w a (c :: rdir) dironly ↔
  ∃ g, g ∈ _iglob w a rdir true ∧
       f = join g (mkPath false [c]) ∧ exists_ w f = true.
Proof.
  intros Hc Hr. rewrite iglob_cons by by rewrite Hc, Hr.
  rewrite Hc, Hr, elem_of_flat_map. unfold _glob0. split.
  - intros (g & Hg & Hf). exists g. split; [done|].
    destruct (exists_ w (join g (mkPath false [c]))) eqn:E; simpl in Hf.
    + apply elem_of_cons in Hf as [->|Hf]; [done|].
      by apply elem_of_nil in Hf.
    + by apply elem_of_nil in Hf.
  - intros (g & Hg & -> & Hex). exists g. split; [done|].
    rewrite Hex. by left.
Qed.

Lemma existsb_magic_rev l : existsb has_magic (rev l) = existsb has_magic l.
Proof.
  induction l as [|x l IH]; [done|]. simpl.
  rewrite existsb_app, IH. simpl. rewrite orb_false_r. apply orb_comm.
Qed.

Lemma existsb_magic_app l1 l2 :
  existsb has_magic l2 = true → existsb has_magic (l1 ++ l2) = true.
Proof. intros H. rewrite existsb_app, H. apply orb_true_r. Qed.

Lemma iglob_literal_tail w a rdir comps dironly f :
  existsb has_magic rdir = true →
  existsb has_magic comps = false →
  comps ≠ [] →
  f ∈ _iglob w a (rev comps ++ rdir) dironly ↔
  ∃ g, g ∈ _iglob w a rdir true ∧
       f = join g (mkPath false comps) ∧ exists_ w f = true.
Proof.
  intros Hr. revert dironly f.
  induction comps as [|c comps IH] using rev_ind; intros dironly f Hm Hne;
    [done|].
  rewrite existsb_app in Hm. apply orb_false_elim in Hm as [Hm Hc].
  simpl in Hc. rewrite orb_false_r in Hc.
  rewrite rev_app_distr.
  change ((rev [c] ++ rev comps) ++ rdir) with (c :: (rev comps ++ rdir)).
  rewrite iglob_literal by (done || by apply existsb_magic_app).
  destruct comps as [|c0 comps0].
  { simpl. done. }
  set (comps := c0 :: comps0) in *.
  split.
  - intros (g' & Hg' & -> & Hex).
    apply IH in Hg' as (g & Hg & -> & Hex'); [|done|done].
    exists g. by rewrite join_assoc in *.
  - intros (g & Hg & -> & Hex). exists (join g (mkPath false comps)).
    rewrite join_assoc. split; [|done].
    apply IH; [done | done |]. exists g. split; [done|]. split; [done|].
    rewrite <- join_assoc in Hex. apply exists_below in Hex.
    unfold exists_, is_dir in *. by destruct (stat w _) as [[|]|].
Qed.

(** [*] after a path without signs: the entries of the directory that
    are not hidden. *)
Lemma iglob_star w a rsrc dironly g :
  existsb has_magic rsrc = false →
  g ∈ _iglob w a ("*" :: rsrc) dironly ↔
  ∃ d, d ∈ _listdir w (mkPath a (rev rsrc)) dironly ∧ hidden d = false ∧
       g = join (mkPath a (rev rsrc)) (mkPath false [d]).
Proof.
  intros Hr. rewrite iglob_cons by done. rewrite Hr.
  change (has_magic "*") with true. cbn [flat_map]. rewrite app_nil_r.
  rewrite elem_of_map. unfold _glob1. change (_ishidden "*") with false.
  cbn [negb]. rewrite filter_star. split.
  - intros (d & -> & Hd). apply list_elem_of_In, filter_In in Hd as [Hd Hh].
    exists d. rewrite list_elem_of_In. split; [done|]. split; [|done].
    unfold hidden. by destruct (_ishidden d).
  - intros (d & Hd & Hh & ->). exists d. split; [done|].
    apply list_elem_of_In, filter_In. rewrite <- list_elem_of_In.
    split; [done|]. unfold hidden in Hh. by rewrite Hh.
Qed.

(** The matches of [root_path/src/*/name] when neither [root_path] nor
    [name] has a sign: every entry [d] of [root_path/src] that is not
    hidden and under which [name] exists. *)
Lemma glob_src_star_spec w root_path name f :
  magic_free root_path →
  has_magic name = false →
  anchored (parse name) = false →
  f ∈ glob w (join (join (join root_path (parse "src")) (parse "*"))
                   (parse name)) ↔
  ∃ ds d,
    listdir w (join root_path (parse "src")) = Ok ds ∧
    d ∈ ds ∧ hidden d = false ∧
    f = join (join (join root_path (parse "src")) (mkPath false [d]))
             (parse name) ∧
    exists_ w f = true.
Proof.
  intros Hroot Hname%has_magic_parse Hrel.
  destruct root_path as [a ns]. unfold magic_free in Hroot. simpl in Hroot.
  destruct (parse name) as [an comps] eqn:Hp. simpl in Hrel, Hname. subst an.
  set (src := mkPath a (ns ++ ["src"])).
  assert (join (mkPath a ns) (parse "src") = src) as -> by done.
  assert (glob w (join (join src (parse "*")) (mkPath false comps))
          = _iglob w a (rev comps ++ "*" :: rev (ns ++ ["src"])) false) as ->.
  { unfold glob, join. simpl. by rewrite !rev_app_distr. }
  assert (existsb has_magic (rev (ns ++ ["src"])) = false) as Hsrc.
  { rewrite existsb_magic_rev, existsb_app, Hroot. done. }
  assert (mkPath a (rev (rev (ns ++ ["src"]))) = src) as Hrr
    by by rewrite rev_involutive.
  assert (∀ d, join (join src (mkPath false [d])) (mkPath false comps)
               = join src (mkPath false (d :: comps))) as Hj
    by (intros d; by rewrite join_assoc).
  destruct comps as [|c comps].
  - (* the pattern ends in the star *)
    simpl. rewrite iglob_star by done. rewrite Hrr. split.
    + intros (d & (ds & Hl & Hd)%listdir_all & Hh & ->).
      exists ds, d. repeat split; try done.
      apply (exists_entry w src ds d Hl Hd). by apply hidden_not_dotdot.
    + intros (ds & d & Hl & Hd & Hh & -> & _). exists d.
      split; [apply listdir_all; by exists ds|]. split; [done|].
      unfold join. simpl. by rewrite app_nil_r.
  - rewrite iglob_literal_tail; [|done|done|done]. split.
    + intros (g & (d & Hd & Hh & ->)%iglob_star & -> & Hex); [|done].
      rewrite Hrr in *.
      apply listdir_dirs_all, listdir_all in Hd as (ds & Hl & Hd).
      by exists ds, d.
    + intros (ds & d & Hl & Hd & Hh & -> & Hex).
      exists (join src (mkPath false [d])). split; [|done].
      apply iglob_star; [done|]. rewrite Hrr. exists d.
      split; [|done].
      apply (entry_is_dir w src ds d Hl); [by apply hidden_not_dotdot|].
      rewrite Hj in Hex.
      change (d :: c :: comps) with ([d] ++ c :: comps) in Hex.
      rewrite <- join_assoc in Hex.
      destruct (exists_below_all w _ comps c Hex) as [Hd'|[_ Hd']].
      * apply (exists_below w _ c). by apply exists_is_dir.
      * by apply (exists_below w _ c).
Qed.

Lemma package_location_None w root_path name :
  magic_free root_path →
  has_magic name = false →
  anchored (parse name) = false →
  _package_location w root_path name = None ↔
  ¬ ∃ f, pkg_candidate w root_path name f.
Proof.
  intros Hroot Hname Hrel.
  unfold _package_location. rewrite head_sorted_None. split.
  - intros Hnil (f & ds & d & Hl & Hd & Hh & Hf & Hex & Hegg).
    assert (render f ∈ ([] : list string)) as Hin;
      [|by apply elem_of_nil in Hin].
    rewrite <- Hnil. apply elem_of_map. exists f. split; [done|].
    apply list_elem_of_filter. split; [done|].
    apply glob_src_star_spec; [done|done|done|]. by exists ds, d.
  - intros Hnone. apply elem_of_nil_inv. intros s Hs.
    apply elem_of_map in Hs as (f & -> & Hf).
    apply list_elem_of_filter in Hf as [Hegg Hf].
    apply glob_src_star_spec in Hf as (ds & d & Hl & Hd & Hh & Hf & Hex);
      [|done|done|done].
    apply Hnone. exists f, ds, d. by repeat split.
Qed.

Lemma package_location_Some w root_path name s :
  magic_free root_path →
  has_magic name = false →
  anchored (parse name) = false →
  _package_location w root_path name = Some s →
  ∃ f, pkg_candidate w root_path name f ∧ s = render f.
Proof.
  intros Hroot Hname Hrel.
  unfold _package_location. intros Hs%head_sorted_Some.
  apply elem_of_map in Hs as (f & -> & Hf).
  apply list_elem_of_filter in Hf as [Hegg Hf].
  apply glob_src_star_spec in Hf as (ds & d & Hl & Hd & Hh & Hf & Hex);
    [|done|done|done].
  exists f. split; [|done]. exists ds, d. by repeat split.
Qed.

(** The names [_glob1] gives. *)
Lemma glob1_spec w dirname pattern n :
  n ∈ _glob1 w dirname pattern false ↔
  (∃ ns, listdir w dirname = Ok ns ∧ n ∈ ns) ∧
  (hidden pattern = false → hidden n = false) ∧
  Fnmatch.fnmatchcase n pattern = true.
Proof.
  unfold _glob1, Fnmatch.filter, hidden.
  rewrite list_elem_of_In, filter_In, <- list_elem_of_In.
  destruct (_ishidden pattern); simpl.
  - rewrite listdir_all. split; [by intros [? ?] | by intros (? & _ & ?)].
  - rewrite list_elem_of_In, filter_In, <- list_elem_of_In, listdir_all.
    split.
    + intros [[? Hh] ?]. repeat split; try done.
      intros _. by destruct (_ishidden n).
    + intros (? & Hh & ?). repeat split; try done. by rewrite Hh.
Qed.

(** The matches of [root_path/src/*/name] when [name] is a single
    component with a sign and [root_path] has none. *)
Lemma glob_src_pattern_spec w root_path name f :
  magic_free root_path →
  has_sep name = false →
  has_magic name = true →
  f ∈ glob w (join (join (join root_path (parse "src")) (parse "*"))
                   (parse name)) ↔
  ∃ ds d ns n,
    listdir w (join root_path (parse "src")) = Ok ds ∧
    d ∈ ds ∧ hidden d = false ∧
    listdir w (join (join root_path (parse "src")) (mkPath false [d]))
      = Ok ns ∧
    n ∈ ns ∧ (hidden name = false → hidden n = false) ∧
    Fnmatch.fnmatchcase n name = true ∧
    f = join (join (join root_path (parse "src")) (mkPath false [d]))
             (mkPath false [n]).
Proof.
  intros Hroot Hsep Hmagic.
  assert (parse name = mkPath false [name]) as Hp.
  { unfold parse. rewrite (segments_no_sep _ Hsep).
    rewrite filter_cons_True, filter_nil.
    - f_equal. destruct name as [|c name]; [done|]. simpl in Hsep.
      by apply orb_false_elim in Hsep as [-> _].
    - unfold is_name. rewrite !bool_decide_eq_false_2; [done| |];
        by intros ->. }
  rewrite Hp.
  destruct root_path as [a ns0]. unfold magic_free in Hroot. simpl in Hroot.
  set (src := mkPath a (ns0 ++ ["src"])).
  assert (join (mkPath a ns0) (parse "src") = src) as -> by done.
  assert (glob w (join (join src (parse "*")) (mkPath false [name]))
          = _iglob w a (name :: "*" :: rev (ns0 ++ ["src"])) false) as ->.
  { unfold glob, join. simpl. by rewrite !rev_app_distr. }
  assert (existsb has_magic (rev (ns0 ++ ["src"])) = false) as Hsrc.
  { rewrite existsb_magic_rev, existsb_app, Hroot. done. }
  assert (mkPath a (rev (rev (ns0 ++ ["src"]))) = src) as Hrr
    by by rewrite rev_involutive.
  rewrite iglob_cons by by rewrite Hmagic.
  rewrite Hmagic. change (existsb has_magic ("*" :: _)) with true. cbn iota.
  rewrite elem_of_flat_map. split.
  - intros (g & (d & Hd & Hh & ->)%iglob_star & Hf); [|done].
    rewrite Hrr in *.
    apply elem_of_map in Hf as (n & -> & Hn).
    apply glob1_spec in Hn as ((ns & Hl & Hn) & Hhn & Hm).
    apply listdir_dirs_all, listdir_all in Hd as (ds & Hls & Hd).
    by exists ds, d, ns, n.
  - intros (ds & d & ns & n & Hls & Hd & Hh & Hl & Hn & Hhn & Hm & ->).
    exists (join src (mkPath false [d])). split.
    + apply iglob_star; [done|]. rewrite Hrr. exists d. split; [|done].
      apply (entry_is_dir w src ds d Hls); [by apply hidden_not_dotdot|].
      unfold listdir in Hl. unfold is_dir.
      by destruct (stat w (join src (mkPath false [d]))) as [[|]|].
    + apply elem_of_map. exists n. split; [done|].
      apply glob1_spec. split; [by exists ns | done].
Qed.

(** The manifest file name is a relative path, and has a sign only if
    the pipeline name has one. *)
Lemma FILENAME_relative name : anchored (parse (FILENAME name)) = false.
Proof. by destruct name. Qed.

End manifest_facts.




Section direct_manifest.
Implicit Types (w : world) (l s : list string).

(** An absolute normal location that exists is reached by the walk
    from the root. *)
Lemma walk_abs t pre s :
  normal s → is_Some (get t (pre ++ s)) → walk t pre s = Ok (pre ++ s).
Proof.
  revert pre. induction s as [|c s IH]; intros pre Hn Hg; simpl.
  - by rewrite app_nil_r.
  - apply normal_cons in Hn as [Hc Hn].
    assert (∃ es, get t pre = Some (Dir es)) as [es ->].
    { rewrite get_app in Hg. destruct (get t pre) as [[d|es]|]; simpl in Hg.
      - by destruct Hg.
      - by exists es.
      - by destruct Hg. }
    unfold step. rewrite decide_False by done.
    rewrite IH; [by rewrite <- app_assoc | done | by rewrite <- app_assoc].
Qed.

Lemma exists_resolved w p :
  normal (cwd w) → exists_ w p = true →
  exists_ w (of_loc (resolve (cwd w) p)) = true.
Proof.
  intros Hn Hex. unfold exists_ in *.
  destruct (stat w p) as [n|] eqn:Hs; [|done].
  apply stat_inv in Hs as (loc & Hl & Hg).
  pose proof (locate_resolve _ _ _ Hl) as ->.
  assert (stat w (of_loc (resolve (cwd w) p)) = Ok n) as ->; [|done].
  apply stat_inv. exists (resolve (cwd w) p). split; [|done].
  unfold locate, start. simpl.
  apply (walk_abs _ []); [by apply normal_resolve | simpl; by rewrite Hg].
Qed.

(** The manifest file name is one plain component when the
    discriminator has no separator. *)
Lemma FILENAME_plain name :
  (∀ n, name = Some n → has_sep n = false) →
  parse (FILENAME name) = mkPath false [FILENAME name] ∧
  FILENAME name ≠ "..".
Proof.
  intros Hname.
  assert (has_sep (FILENAME name) = false) as Hsep.
  { destruct name as [n|]; [|done]. unfold FILENAME.
    rewrite !has_sep_app, (Hname n eq_refl). done. }
  unfold parse. rewrite (segments_no_sep _ Hsep).
  destruct name as [n|]; simpl; split; done.
Qed.

Lemma length_concat_last sep l x :
  l ≠ [] →
  String.length (String.concat sep (l ++ [x]))
    = String.length (String.concat sep l) + String.length sep
      + String.length x.
Proof.
  induction l as [|y l IH]; [done|]. intros _.
  destruct l as [|z l].
  - simpl. rewrite !length_append. lia.
  - change (String.concat sep ((y :: z :: l) ++ [x]))
      with (y +:+ sep +:+ String.concat sep ((z :: l) ++ [x])).
    change (String.concat sep (y :: z :: l))
      with (y +:+ sep +:+ String.concat sep (z :: l)).
    rewrite !length_append, IH by done. lia.
Qed.

Lemma render_longer a l x :
  l ≠ [] → render (mkPath a (l ++ [x])) ≠ x.
Proof.
  intros Hl Heq. apply (f_equal String.length) in Heq.
  unfold render in Heq. simpl in Heq.
  destruct a.
  - rewrite length_append, length_concat_last in Heq by done.
    simpl in Heq. lia.
  - destruct (l ++ [x]) eqn:E; [by destruct l|]. rewrite <- E in Heq.
    rewrite length_concat_last in Heq by done. simpl in Heq. lia.
Qed.

End direct_manifest.

(** C5.  With [ENTRY_POINT] unset, a discriminator free of separators
    and the manifest file present directly in [root_path], [entry_point]
    returns the manifest's file name, which is its path relative to
    [root_path]; this is never the path of a package-style match, whether
    or not one exists. *)
Theorem entry_point_direct environ w root_path name :
  environ !! "ENTRY_POINT" = None →
  normal (cwd w) →
  (∀ n, name = Some n → has_sep n = false) →
  exists_ w (join (path_or root_path (parse ".")) (parse (FILENAME name)))
    = true →
  entry_point environ w root_path name = Ok (FILENAME name)
  ∧ ∀ f,
      pkg_candidate w (path_or root_path (parse ".")) (FILENAME name) f →
      render f ≠ FILENAME name.
Proof.
  intros Henv Hcwd Hname Hex.
  destruct (FILENAME_plain name Hname) as [Hparse Hdd].
  set (root := path_or root_path (parse ".")) in *.
  set (F := FILENAME name) in *.
  split.
  - unfold entry_point, env_get. rewrite Henv. fold root. fold F.
    rewrite Hex. simpl.
    assert (find_file_recursively w F 6 (PPath root)
            = Some (resolve (cwd w) root ++ [F])) as ->.
    { unfold find_file_recursively. simpl.
      assert (resolve (cwd w) (join root (parse F))
              = resolve (cwd w) root ++ [F]) as Hres.
      { rewrite Hparse. unfold join, resolve. simpl.
        rewrite fold_left_app. simpl. unfold step at 1.
        by rewrite decide_False. }
      assert (join (of_loc (resolve (cwd w) root)) (parse F)
              = of_loc (resolve (cwd w) (join root (parse F)))) as ->.
      { rewrite Hres. by rewrite Hparse. }
      rewrite (exists_resolved w _ Hcwd Hex). rewrite Hres.
      f_equal. apply resolve_of_loc. apply normal_app. split.
      - by apply normal_resolve.
      - apply normal_cons. split; [done | apply normal_nil]. }
    cbv zeta.
    assert (normal (resolve (cwd w) root ++ [F])) as Hnorm.
    { apply normal_app. split; [by apply normal_resolve|].
      apply normal_cons. split; [done | apply normal_nil]. }
    rewrite (resolve_of_loc _ _ Hnorm).
    destruct (_package_location w root F); unfold relpath;
      by rewrite relpath_names_app.
  - intros f (ds & d & _ & _ & _ & -> & _).
    rewrite Hparse. unfold join. simpl.
    rewrite <- !app_assoc. simpl.
    replace (names root ++ ["src"; d; F])
      with ((names root ++ ["src"; d]) ++ [F]) by by rewrite <- app_assoc.
    apply render_longer. by destruct (names root).
Qed.

Lemma entry_point_direct_witness :
  (∃ f, pkg_candidate Ex.both_manifests (parse ".") "pipeline.yaml" f) ∧
  entry_point ∅ Ex.both_manifests PNone None = Ok "pipeline.yaml".
Proof.
  split.
  { exists (parse "src/some_pkg/pipeline.yaml"), ["some_pkg"], "some_pkg".
    repeat split. by left. }
  apply (entry_point_direct ∅ Ex.both_manifests PNone None).
  - reflexivity.
  - solve_normal.
  - intros n Hn. discriminate Hn.
  - reflexivity.
Defined.

(* ================================================================== *)
(** * Further properties of the two modules *)

(** ** The storage client *)

Lemma first_root_normal w starting_dir names root :
  normal (cwd w) →
  first_root w starting_dir names = Some root → normal root.
Proof.
  intros Hcwd. induction names as [|n names IH]; simpl; [done|].
  destruct (find_file_recursively w n 6 starting_dir) as [p|] eqn:E; [|done].
  intros [= <-]. apply normal_removelast.
  unfold find_file_recursively in E.
  revert E. generalize (resolve (cwd w) (path_or starting_dir (of_loc (cwd w)))).
  generalize 6. intros k. induction k as [|k IHk]; intros dir; simpl; [done|].
  destruct (exists_ w (join (of_loc dir) (parse n))).
  - intros [= <-]. by apply normal_resolve.
  - apply IHk.
Qed.

(** X1.  The constructor only adds directories to the store.  When it
    succeeds the backup directory exists and is the one recorded, and
    constructing again from the resulting store returns the same client
    and changes nothing. *)
Theorem init_makes_backup_dir backup root w r w' :
  __init__ backup root w = (r, w') →
  only_new_dirs w w' ∧
  (∀ c, r = Ok c →
     is_dir w' backup = true ∧
     _path_to_backup_dir c = backup ∧
     __init__ backup root w' = (Ok c, w')).
Proof.
  unfold __init__, mbind, mread.
  destruct (mkdir_parents backup w) as [[u|e] w1] eqn:Hm.
  - destruct u. apply mkdir_parents_spec in Hm as [Hn Hd].
    specialize (Hd eq_refl).
    intros [= <- <-]. split; [done|]. intros c Hc.
    rewrite (mkdir_parents_existing _ _ Hd), Hc. repeat split; [done|].
    destruct (truthy root).
    + destruct (to_Path root); simpl in Hc; [|done]. by injection Hc as <-.
    + destruct (find_root_recursively w1 PNone true) as [[p|]|];
        simpl in Hc; try done. by injection Hc as <-.
  - apply mkdir_parents_spec in Hm as [Hn _].
    intros [= <- <-]. by split.
Qed.

Lemma init_makes_backup_dir_witness :
  ∃ c w',
    __init__ (parse "my/backup/dir") (PStr ".") Ex.project = (Ok c, w') ∧
    is_dir w' (parse "my/backup/dir") = true ∧
    __init__ (parse "my/backup/dir") (PStr ".") w' = (Ok c, w').
Proof.
  destruct (__init__ (parse "my/backup/dir") (PStr ".") Ex.project)
    as [r w'] eqn:E.
  destruct (init_makes_backup_dir _ _ _ _ _ E) as [_ H].
  assert (∃ c, r = Ok c) as [c ->].
  { vm_compute in E. injection E as <- _. by eexists. }
  exists c, w'. destruct (H c eq_refl) as (Hd & _ & Hagain). by repeat split.
Defined.

(** X2.  Without an explicit project root the constructor makes the
    backup directory first and only then searches for the root from the
    working directory: when a marker is found the client is anchored at
    the directory that holds it; when none is found the constructor
    raises [ValueError], and the backup directory made on the way stays. *)
Theorem init_searches_root backup w w1 :
  normal (cwd w) →
  mkdir_parents backup w = (Ok (), w1) →
  (∀ root,
     find_root_recursively w1 PNone true = Ok (Some root) →
     __init__ backup PNone w
       = (Ok {| _path_to_backup_dir := backup;
                _path_to_project_root := root |}, w1))
  ∧ (find_root_recursively w1 PNone true = Raise ValueError →
     __init__ backup PNone w = (Raise ValueError, w1) ∧
     is_dir w1 backup = true).
Proof.
  intros Hcwd Hm.
  pose proof (mkdir_parents_spec _ _ _ _ Hm) as [[Hc _] Hd].
  split.
  - intros root Hroot. unfold __init__, mbind, mread. rewrite Hm. simpl.
    rewrite Hroot. simpl. do 3 f_equal. apply resolve_of_loc.
    unfold find_root_recursively in Hroot.
    destruct (first_root w1 PNone options) as [r|] eqn:E; [|done].
    injection Hroot as <-. apply (first_root_normal w1 PNone options).
    + by rewrite Hc.
    + done.
  - intros Hnone. split; [|by apply Hd].
    unfold __init__, mbind, mread. rewrite Hm. simpl. by rewrite Hnone.
Qed.

Lemma init_searches_root_witness :
  __init__ (parse "my/backup/dir") PNone Ex.nested_package
    = (Ok {| _path_to_backup_dir := parse "my/backup/dir";
             _path_to_project_root := [] |},
       snd (mkdir_parents (parse "my/backup/dir") Ex.nested_package))
  ∧ fst (__init__ (parse "backup") PNone (mkWorld [] (Dir [])))
    = Raise ValueError
  ∧ is_dir (snd (__init__ (parse "backup") PNone (mkWorld [] (Dir []))))
      (parse "backup") = true.
Proof.
  destruct (init_searches_root (parse "my/backup/dir") Ex.nested_package
              (snd (mkdir_parents (parse "my/backup/dir") Ex.nested_package)))
    as [Hfound _]; [solve_normal | reflexivity |].
  destruct (init_searches_root (parse "backup") (mkWorld [] (Dir []))
              (snd (mkdir_parents (parse "backup") (mkWorld [] (Dir [])))))
    as [_ Hnone]; [apply normal_nil | reflexivity |].
  destruct Hnone as [Hraise Hdir]; [reflexivity|].
  split; [by apply Hfound|]. split; [by rewrite Hraise | by rewrite Hraise].
Defined.

Section more_client.

Context (_resolve : list string → Path → list string).

Local Abbreviation _remote_path := (Local._remote_path _resolve).
Local Abbreviation _remote_exists := (Local._remote_exists _resolve).
Local Abbreviation download := (Local.download _resolve).
Local Abbreviation upload := (Local.upload _resolve).

Implicit Types (w : world) (c : LocalStorageClient) (local remote : Path).

(** X3.  The mapping to mirror paths is one to one: two paths with the
    same mirror path resolve to the same location. *)
Theorem remote_path_injective c w local1 local2 remote :
  _remote_path c w local1 = Ok remote →
  _remote_path c w local2 = Ok remote →
  _resolve (cwd w) local1 = _resolve (cwd w) local2.
Proof.
  unfold Local._remote_path, relative_to.
  destruct (strip _ (_resolve (cwd w) local1)) as [s1|] eqn:E1; [|done].
  destruct (strip _ (_resolve (cwd w) local2)) as [s2|] eqn:E2; [|done].
  simpl. intros [= <-] [= H]. unfold join in H. simpl in H.
  apply app_inv_head in H.
  apply strip_Some in E1, E2. congruence.
Qed.

Lemma remote_exists_of_stat c w local remote n :
  _remote_path c w local = Ok remote →
  stat w remote = Ok n →
  _remote_exists c local w = (Ok true, w).
Proof.
  intros Hr Hs. unfold Local._remote_exists, mbind, mread. rewrite Hr.
  unfold exists_. by rewrite Hs.
Qed.

(** X4.  A regular file that [upload] can copy (its mirror path is not
    the file itself and is not a directory once the mirror's parent has
    been made) is left as it was, [_remote_exists] answers [True]
    afterwards, and uploading it once more succeeds and changes nothing. *)
Theorem upload_file_again c w local remote w1 data :
  _remote_path c w local = Ok remote →
  mkdir_parents (parent remote) w = (Ok (), w1) →
  Shutil.read_file w local = Ok data →
  is_dir w1 remote = false →
  resolve (cwd w) local ≠ resolve (cwd w) remote →
  ∃ w2,
    upload c local w = (Ok (), w2) ∧
    Shutil.read_file w2 local = Ok data ∧
    _remote_exists c local w2 = (Ok true, w2) ∧
    upload c local w2 = (Ok (), w2).
Proof.
  intros Hr Hm Hread Hnd Hne.
  destruct (upload_file _resolve c w local remote w1 data Hr Hm Hread Hnd Hne)
    as (t' & Hup & Hrr & Hrl & Hk & _).
  pose proof (mkdir_parents_spec _ _ _ _ Hm) as [[Hc _] Hpar].
  specialize (Hpar eq_refl).
  set (w2 := with_tree w1 t') in *.
  assert (_remote_path c w2 local = Ok remote) as Hr2
    by by rewrite (remote_path_cwd _resolve c w).
  assert (is_dir w2 (parent remote) = true) as Hpar2
    by by apply (is_dir_keeps w1).
  pose proof (is_file_read _ _ _ Hrr) as Hsr.
  exists w2. repeat split; try done.
  - by apply (remote_exists_of_stat c w2 local remote (File data)).
  - assert (is_dir w2 remote = false) as Hnd2 by (unfold is_dir; by rewrite Hsr).
    destruct (copy_file_spec w2 local remote data Hrl Hpar2 Hnd2)
      as (t2 & Hput & Hcopy & _); [simpl; by rewrite Hc|].
    apply stat_inv in Hsr as (loc & Hl & Hg).
    rewrite <- (locate_resolve _ _ _ Hl), (put_get_id _ _ _ Hg) in Hput.
    injection Hput as <-. rewrite with_tree_same in Hcopy.
    unfold Local.upload, mbind, mread. rewrite Hr2. simpl.
    rewrite (mkdir_parents_existing _ _ Hpar2).
    by rewrite (stat_is_file _ _ _ (is_file_read _ _ _ Hrl)).
Qed.

(** X5.  A directory that [upload] can copy (its mirror path does not
    exist once the mirror's parent has been made and does not lie inside
    the directory) is left as it was and [_remote_exists] answers [True]
    afterwards; uploading it once more raises [FileExistsError] and
    changes nothing, the mirror keeping the first copy. *)
Theorem upload_dir_again c w local remote w1 es :
  _remote_path c w local = Ok remote →
  mkdir_parents (parent remote) w = (Ok (), w1) →
  stat w1 local = Ok (Dir es) →
  exists_ w1 remote = false →
  strip (resolve (cwd w) local) (resolve (cwd w) remote) = None →
  ∃ w2,
    upload c local w = (Ok (), w2) ∧
    stat w2 local = Ok (Dir es) ∧
    _remote_exists c local w2 = (Ok true, w2) ∧
    upload c local w2 = (Raise FileExistsError, w2).
Proof.
  intros Hr Hm Hs Hex Hout.
  destruct (upload_dir _resolve c w local remote w1 es Hr Hm Hs Hex Hout)
    as (t' & Hup & Hsr & Hsl & Hk & _).
  pose proof (mkdir_parents_spec _ _ _ _ Hm) as [[Hc _] Hpar].
  specialize (Hpar eq_refl).
  set (w2 := with_tree w1 t') in *.
  assert (_remote_path c w2 local = Ok remote) as Hr2
    by by rewrite (remote_path_cwd _resolve c w).
  assert (is_dir w2 (parent remote) = true) as Hpar2
    by by apply (is_dir_keeps w1).
  exists w2. repeat split; try done.
  - by apply (remote_exists_of_stat c w2 local remote (Dir es)).
  - unfold Local.upload, mbind, mread. rewrite Hr2. simpl.
    rewrite (mkdir_parents_existing _ _ Hpar2).
    rewrite (proj1 (stat_is_dir _ _ _ Hsl)).
    by apply (copytree_existing w2 local remote es (Dir es)).
Qed.

(** X6.  [download] of a mirrored regular file: the destination's parent
    directories are made as needed, and when the destination is then
    neither a directory nor the mirror file itself it receives the
    mirror's bytes; the mirror keeps them and no other location changes
    its kind or content. *)
Theorem download_file_to c w local destination remote w1 data :
  _remote_path c w local = Ok remote →
  mkdir_parents (parent (default local destination)) w = (Ok (), w1) →
  Shutil.read_file w remote = Ok data →
  is_dir w1 (default local destination) = false →
  resolve (cwd w) remote ≠ resolve (cwd w) (default local destination) →
  ∃ w2,
    download c local destination w = (Ok (), w2) ∧
    Shutil.read_file w2 (default local destination) = Ok data ∧
    Shutil.read_file w2 remote = Ok data ∧
    ∀ q, q ≠ resolve (cwd w) (default local destination) →
         kind_at w2 q = kind_at w1 q.
Proof.
  intros Hr Hm Hread Hnd Hne.
  pose proof (mkdir_parents_spec _ _ _ _ Hm) as [Hn Hpar].
  specialize (Hpar eq_refl). pose proof (proj1 Hn) as Hc.
  pose proof (read_file_new_dirs _ _ _ _ Hn Hread) as Hread1.
  rewrite <- Hc in Hne.
  destruct (copy_file_spec w1 remote _ data Hread1 Hpar Hnd Hne)
    as (t' & Hput & Hcopy & Hrd & Hrs & Hk & Hkinds).
  exists (with_tree w1 t'). repeat split; try done.
  - unfold Local.download, mbind, mread. rewrite Hr. simpl. rewrite Hm.
    by rewrite (stat_is_file _ _ _ (is_file_read _ _ _ Hread1)).
  - intros q Hq. unfold kind_at at 1. simpl. rewrite Hkinds, Hc.
    by rewrite decide_False.
Qed.

(** X7.  [download] of a mirrored regular file onto a destination that
    is a directory does not replace the directory: [shutil.copy] writes
    the bytes inside it, under the mirror file's name. *)
Theorem download_file_into_dir c w local destination remote w1 data :
  _remote_path c w local = Ok remote →
  mkdir_parents (parent (default local destination)) w = (Ok (), w1) →
  Shutil.read_file w remote = Ok data →
  is_dir w1 (default local destination) = true →
  name remote ≠ "" →
  let inside :=
    join (default local destination) (mkPath false [name remote]) in
  is_dir w1 inside = false →
  resolve (cwd w) remote ≠ resolve (cwd w) inside →
  ∃ w2,
    download c local destination w = (Ok (), w2) ∧
    Shutil.read_file w2 inside = Ok data ∧
    is_dir w2 (default local destination) = true ∧
    ∀ q, q ≠ resolve (cwd w) inside → kind_at w2 q = kind_at w1 q.
Proof.
  intros Hr Hm Hread Hd Hname inside Hnd Hne.
  pose proof (mkdir_parents_spec _ _ _ _ Hm) as [Hn _].
  pose proof (proj1 Hn) as Hc.
  pose proof (read_file_new_dirs _ _ _ _ Hn Hread) as Hread1.
  rewrite <- Hc in Hne.
  assert (parent inside = default local destination) as Hpi.
  { unfold inside, join. simpl. rewrite parent_snoc.
    by destruct (default local destination). }
  assert (is_dir w1 (parent inside) = true) as Hpar by by rewrite Hpi.
  destruct (copy_file_spec w1 remote inside data Hread1 Hpar Hnd Hne)
    as (t' & Hput & Hcopy & Hrd & Hrs & Hk & Hkinds).
  exists (with_tree w1 t'). repeat split; try done.
  - unfold Local.download, mbind, mread. rewrite Hr. simpl. rewrite Hm.
    rewrite (stat_is_file _ _ _ (is_file_read _ _ _ Hread1)).
    unfold Shutil.copy in *. rewrite Hnd in Hcopy. rewrite Hd.
    by rewrite decide_False.
  - by apply (is_dir_keeps w1).
  - intros q Hq. unfold kind_at at 1. simpl. rewrite Hkinds, Hc.
    by rewrite decide_False.
Qed.

End more_client.

Lemma remote_path_injective_witness :
  spec_resolve (cwd Ex.project) (parse "dir/../file")
    = spec_resolve (cwd Ex.project) (parse "file").
Proof.
  apply (remote_path_injective spec_resolve Ex.client Ex.project
           (parse "dir/../file") (parse "file") (parse "backup/file"));
    reflexivity.
Defined.

Lemma upload_file_again_witness :
  ∃ w2,
    Ex.upload (parse "file") Ex.project = (Ok (), w2) ∧
    Shutil.read_file w2 (parse "file") = Ok (Ex.bytes "content") ∧
    Local._remote_exists spec_resolve Ex.client (parse "file") w2
      = (Ok true, w2) ∧
    Ex.upload (parse "file") w2 = (Ok (), w2).
Proof.
  apply (upload_file_again spec_resolve Ex.client Ex.project (parse "file")
           (parse "backup/file") Ex.project (Ex.bytes "content"));
    [reflexivity | reflexivity | reflexivity | reflexivity | discriminate].
Defined.

Lemma upload_dir_again_witness :
  ∃ w2,
    Ex.upload (parse "dir") Ex.project = (Ok (), w2) ∧
    stat w2 (parse "dir") = Ok (Dir [("file", File (Ex.bytes "content"))]) ∧
    Local._remote_exists spec_resolve Ex.client (parse "dir") w2
      = (Ok true, w2) ∧
    Ex.upload (parse "dir") w2 = (Raise FileExistsError, w2).
Proof.
  apply (upload_dir_again spec_resolve Ex.client Ex.project (parse "dir")
           (parse "backup/dir") Ex.project); reflexivity.
Defined.

Lemma download_file_to_witness :
  ∃ w2,
    Ex.download (parse "file") (Some (parse "another/copy")) Ex.mirrored
      = (Ok (), w2) ∧
    Shutil.read_file w2 (parse "another/copy") = Ok (Ex.bytes "content") ∧
    Shutil.read_file w2 (parse "backup/file") = Ok (Ex.bytes "content").
Proof.
  destruct (download_file_to spec_resolve Ex.client Ex.mirrored (parse "file")
              (Some (parse "another/copy")) (parse "backup/file")
              (snd (mkdir_parents (parse "another") Ex.mirrored))
              (Ex.bytes "content"))
    as (w2 & Hd & Hdest & Hmirror & _);
    [reflexivity | reflexivity | reflexivity | reflexivity | discriminate |].
  by exists w2.
Defined.

Lemma download_file_into_dir_witness :
  ∃ w2,
    Ex.download (parse "file") (Some (parse "dir")) Ex.mirrored
      = (Ok (), w2) ∧
    Shutil.read_file w2 (parse "dir/file") = Ok (Ex.bytes "content") ∧
    is_dir w2 (parse "dir") = true.
Proof.
  destruct (download_file_into_dir spec_resolve Ex.client Ex.mirrored
              (parse "file") (Some (parse "dir")) (parse "backup/file")
              Ex.mirrored (Ex.bytes "content"))
    as (w2 & Hd & Hin & Hdir & _);
    [reflexivity | reflexivity | reflexivity | reflexivity | discriminate
    | reflexivity | discriminate |].
  by exists w2.
Defined.

(** ** Package-style candidates *)

Section package_order.
Implicit Types (x y z : string) (l : list string).

Lemma ascii_compare_N a b :
  Ascii.compare a b = N.compare (N_of_ascii a) (N_of_ascii b).
Proof. reflexivity. Qed.

Lemma string_leb_trans x y z :
  String.leb x y = true → String.leb y z = true → String.leb x z = true.
Proof.
  unfold String.leb. revert y z.
  induction x as [|a x IH]; intros [|b y] [|c z]; simpl; try done.
  rewrite !ascii_compare_N.
  destruct (N.compare_spec (N_of_ascii a) (N_of_ascii b)) as [Hab|Hab|Hab];
    destruct (N.compare_spec (N_of_ascii b) (N_of_ascii c)) as [Hbc|Hbc|Hbc];
    try done.
  - rewrite Hab, Hbc, N.compare_refl. apply IH.
  - intros _ _. rewrite Hab. by apply N.compare_lt_iff in Hbc as ->.
  - intros _ _. rewrite <- Hbc. by apply N.compare_lt_iff in Hab as ->.
  - intros _ _.
    assert (N_of_ascii a < N_of_ascii c)%N as H by lia.
    by apply N.compare_lt_iff in H as ->.
Qed.

Lemma insert_sorted_ascending x l :
  ascending l → ascending (insert_sorted x l).
Proof.
  induction l as [|y l IH]; simpl.
  - intros _. split; [|done]. intros z Hz. by apply elem_of_nil in Hz.
  - intros [Hy Hl]. destruct (String.leb x y) eqn:E; simpl.
    + split; [|by split]. intros z [->|Hz]%elem_of_cons; [done|].
      apply (string_leb_trans _ y); [done | by apply Hy].
    + split; [|by apply IH]. intros z [->|Hz]%elem_of_insert_sorted.
      * destruct (String.leb_total x y) as [H|H]; congruence.
      * by apply Hy.
Qed.

Lemma sorted_ascending l : ascending (sorted l).
Proof.
  induction l as [|x l IH]; simpl; [done|].
  by apply insert_sorted_ascending.
Qed.

Lemma string_leb_refl x : String.leb x x = true.
Proof. by destruct (String.leb_total x x). Qed.

Lemma head_sorted_least l x y :
  head (sorted l) = Some x → y ∈ l → String.leb x y = true.
Proof.
  intros [l' H]%head_Some Hy.
  pose proof (sorted_ascending l) as Ha. rewrite H in Ha. destruct Ha as [Ha _].
  apply elem_of_sorted in Hy. rewrite H in Hy.
  apply elem_of_cons in Hy as [->|Hy]; [apply string_leb_refl | by apply Ha].
Qed.

End package_order.

(** The least of the matches. *)
Lemma package_location_head w root_path name s g :
  magic_free root_path →
  has_magic name = false →
  anchored (parse name) = false →
  _package_location w root_path name = Some s →
  pkg_candidate w root_path name g →
  String.leb s (render g) = true.
Proof.
  intros Hroot Hname Hrel Hs (ds & d & Hl & Hd & Hh & Hg & Hex & Hegg).
  unfold _package_location in Hs. apply (head_sorted_least _ _ _ Hs).
  apply elem_of_map. exists g. split; [done|].
  apply list_elem_of_filter. split; [done|].
  apply glob_src_star_spec; [done|done|done|]. by exists ds, d.
Qed.

(** X8.  When neither [root_path] nor [name] has one of the signs [*],
    [?], [[] and [name] is a relative path, [_package_location] returns
    no path exactly when [root_path] has no package-style candidate;
    otherwise it returns the path of a candidate (an entry of [src]
    matched by [*], hence not hidden, whose path does not end in
    [.egg-info], holding the file), and that path is the least of all
    candidates' paths in byte order. *)
Theorem package_location_least w root_path name :
  magic_free root_path →
  has_magic name = false →
  anchored (parse name) = false →
  (_package_location w root_path name = None ↔
   ¬ ∃ f, pkg_candidate w root_path name f)
  ∧ (∀ s, _package_location w root_path name = Some s →
       (∃ f, pkg_candidate w root_path name f ∧ s = render f) ∧
       ∀ g, pkg_candidate w root_path name g →
            String.leb s (render g) = true).
Proof.
  intros Hroot Hname Hrel.
  split; [by apply package_location_None|].
  intros s Hs. split; [by apply package_location_Some|].
  intros g Hg. by apply (package_location_head w root_path name).
Qed.

Lemma package_location_least_witness :
  _package_location Ex.packages (parse ".") "pipeline.yaml"
    = Some "src/package_b/pipeline.yaml"
  ∧ String.leb "src/package_b/pipeline.yaml" "src/package_c/pipeline.yaml"
    = true.
Proof.
  destruct (package_location_least Ex.packages (parse ".") "pipeline.yaml")
    as [_ H]; [reflexivity | reflexivity | reflexivity |].
  destruct (H "src/package_b/pipeline.yaml" eq_refl) as [_ Hleast].
  split; [reflexivity|].
  apply (Hleast (parse "src/package_c/pipeline.yaml")).
  exists [ "package_c"; ".hidden"; "package_a.egg-info"; "package_b" ],
    "package_c".
  repeat split. by left.
Defined.

(** X24.  A file name with one of the signs [*], [?], [[] is a pattern
    to [_package_location]: for a [root_path] without signs and a name
    that is a single component, the candidates are the entries that the
    pattern matches in the directories of [root_path/src] that are
    neither hidden nor named [*.egg-info] (a file of that very name need
    not be among them); the result is [None] exactly when there is none,
    and otherwise the path of a candidate, the least in byte order. *)
Theorem package_location_pattern w root_path name :
  magic_free root_path →
  has_sep name = false →
  has_magic name = true →
  (_package_location w root_path name = None ↔
   ¬ ∃ f, pattern_candidate w root_path name f)
  ∧ (∀ s, _package_location w root_path name = Some s →
       (∃ f, pattern_candidate w root_path name f ∧ s = render f) ∧
       ∀ g, pattern_candidate w root_path name g →
            String.leb s (render g) = true).
Proof.
  intros Hroot Hsep Hmagic.
  assert (∀ f,
    f ∈ filter (λ f, endswith (render (parent f)) ".egg-info" = false)
          (glob w (join (join (join root_path (parse "src")) (parse "*"))
                        (parse name))) ↔
    pattern_candidate w root_path name f) as Hcand.
  { intros f. rewrite list_elem_of_filter.
    rewrite (glob_src_pattern_spec w root_path name f Hroot Hsep Hmagic).
    split.
    - intros (Hegg & ds & d & ns & n & H). exists ds, d, ns, n.
      destruct H as (? & ? & ? & ? & ? & ? & ? & ?). by repeat split.
    - intros (ds & d & ns & n & H).
      destruct H as (? & ? & ? & ? & ? & ? & ? & ? & ?).
      split; [done|]. by exists ds, d, ns, n. }
  unfold _package_location. split.
  - rewrite head_sorted_None. split.
    + intros Hnil (f & Hf%Hcand).
      assert (render f ∈ ([] : list string)) as Hin;
        [|by apply elem_of_nil in Hin].
      rewrite <- Hnil. apply elem_of_map. by exists f.
    + intros Hnone. apply elem_of_nil_inv. intros s Hs.
      apply elem_of_map in Hs as (f & -> & Hf%Hcand).
      apply Hnone. by exists f.
  - intros s Hs. split.
    + pose proof (head_sorted_Some _ _ Hs) as Hin.
      apply elem_of_map in Hin as (f & -> & Hf%Hcand). by exists f.
    + intros g Hg%Hcand. apply (head_sorted_least _ _ _ Hs).
      apply elem_of_map. by exists g.
Qed.

Lemma package_location_pattern_witness :
  _package_location Ex.bracket_manifests (parse ".") "pipeline.[a].yaml"
    = None
  ∧ ∃ f, pattern_candidate Ex.packages (parse ".") "pipeline.???[a-z]" f
         ∧ "src/package_b/pipeline.yaml" = render f.
Proof.
  destruct (package_location_pattern Ex.bracket_manifests (parse ".")
              "pipeline.[a].yaml") as [Hnone _];
    [reflexivity | reflexivity | reflexivity |].
  destruct (package_location_pattern Ex.packages (parse ".")
              "pipeline.???[a-z]") as [_ Hsome];
    [reflexivity | reflexivity | reflexivity |].
  split.
  - apply Hnone. intros (f & ds & d & ns & n & Hl & Hd & _ & Hln & Hn & _
                         & Hm & _).
    injection Hl as <-.
    apply elem_of_cons in Hd as [->|Hd]; [|by apply elem_of_nil in Hd].
    injection Hln as <-.
    apply elem_of_cons in Hn as [->|Hn]; [|by apply elem_of_nil in Hn].
    discriminate Hm.
  - destruct (Hsome "src/package_b/pipeline.yaml") as [Hf _];
      [reflexivity | exact Hf].
Defined.

(** ** [entry_point] beyond the direct file *)

Section upward_search.
Context (w : world).

Lemma ascend_Some_inv name n dir p :
  ascend w name n dir = Some p →
  ∃ k, k < n ∧ marker w dir name k ∧
       (∀ j, j < k → ¬ marker w dir name j) ∧
       p = resolve (cwd w) (join (of_loc (up k dir)) (parse name)).
Proof.
  revert dir. induction n as [|n IH]; intros dir; simpl; [done|].
  destruct (exists_ w (join (of_loc dir) (parse name))) eqn:E.
  - intros [= <-]. exists 0. repeat split; [lia | exact E |].
    intros j Hj. lia.
  - intros (k & Hk & Hm & Hfirst & ->)%IH. exists (S k).
    repeat split; [lia | exact Hm |].
    intros [|j] Hj; unfold marker; simpl.
    + by rewrite E.
    + apply Hfirst. lia.
Qed.

Lemma first_root_inv sd names root :
  normal (cwd w) →
  names ⊆ options →
  first_root w sd names = Some root →
  ∃ pre name post k,
    names = pre ++ name :: post ∧
    (∀ n j, n ∈ pre → j < 6 → ¬ marker w (start_dir w sd) n j) ∧
    k < 6 ∧ marker w (start_dir w sd) name k ∧
    (∀ j, j < k → ¬ marker w (start_dir w sd) name j) ∧
    root = up k (start_dir w sd).
Proof.
  intros Hcwd. induction names as [|n names IH]; intros Hsub; simpl; [done|].
  unfold find_file_recursively. fold (start_dir w sd).
  destruct (ascend w n 6 (start_dir w sd)) as [p|] eqn:E.
  - intros [= <-]. apply ascend_Some_inv in E as (k & Hk & Hm & Hfirst & ->).
    exists [], n, names, k. repeat split; try done.
    + intros n' j Hn'. by apply elem_of_nil in Hn'.
    + apply marker_parent; [by apply normal_resolve|].
      apply Hsub. by left.
  - intros (pre & name & post & k & -> & Hpre & Hk & Hm & Hfirst & ->)%IH.
    + exists (n :: pre), name, post, k. repeat split; try done.
      intros n' j [Heq|Hn']%elem_of_cons Hj.
      * rewrite Heq. by apply (proj1 (ascend_None w n 6 (start_dir w sd)) E).
      * by apply Hpre.
    + intros x Hx. apply Hsub. by right.
Qed.

End upward_search.

Section entry_point_rules.
Implicit Types (w : world) (R S : list string).

Lemma up_ge k R : length R ≤ k → up k R = [].
Proof.
  revert R. induction k as [|k IH]; intros R H; simpl.
  - destruct R; [done | simpl in H; lia].
  - apply IH. destruct R as [|x R] using rev_ind; [simpl; lia|].
    rewrite removelast_last. rewrite length_app in H. simpl in H. lia.
Qed.

Lemma up_split k R :
  k ≤ length R → ∃ S, R = up k R ++ S ∧ length S = k.
Proof.
  revert R. induction k as [|k IH]; intros R H; simpl.
  - exists []. by rewrite app_nil_r.
  - destruct R as [|x R _] using rev_ind; [simpl in H; lia|].
    rewrite removelast_last. rewrite length_app in H. simpl in H.
    destruct (IH R) as (S & HS & Hlen); [lia|].
    exists (S ++ [x]). split.
    + rewrite app_assoc. by rewrite <- HS.
    + rewrite length_app. simpl. lia.
Qed.

Lemma relpath_names_common P l S :
  relpath_names (P ++ l) (P ++ S) = relpath_names l S.
Proof. induction P as [|c P IH]; simpl; [done|]. by rewrite decide_True. Qed.

Lemma relpath_names_up k R F :
  F ∉ R → k ≤ length R →
  relpath_names (up k R ++ [F]) R = replicate k ".." ++ [F].
Proof.
  intros HF Hk. destruct (up_split k R Hk) as (S & HS & Hlen).
  rewrite HS at 2. rewrite relpath_names_common.
  destruct S as [|d S]; simpl in *.
  - by subst k.
  - rewrite decide_False.
    + by rewrite <- Hlen.
    + intros ->. apply HF. rewrite HS. apply elem_of_app. right. by left.
Qed.

(** The nearest level at which an entry is found is no deeper than the
    root of the store. *)
Lemma nearest_marker_depth w R F k :
  marker w R F k → (∀ j, j < k → ¬ marker w R F j) → k ≤ length R.
Proof.
  intros Hm Hfirst. destruct (decide (k ≤ length R)) as [|Hgt]; [done|].
  exfalso. apply (Hfirst (length R)); [lia|].
  unfold marker in *. rewrite up_ge in Hm by lia. by rewrite up_ge.
Qed.

(** Paths without signs stay so under [resolve] and upwards. *)
Lemma magic_free_removelast l :
  existsb has_magic l = false → existsb has_magic (removelast l) = false.
Proof.
  destruct l as [|x l _] using rev_ind; [done|].
  rewrite removelast_last, existsb_app. by intros [? _]%orb_false_elim.
Qed.

Lemma magic_free_fold_step cs l :
  existsb has_magic l = false → existsb has_magic cs = false →
  existsb has_magic (fold_left step cs l) = false.
Proof.
  revert l. induction cs as [|c cs IH]; intros l Hl Hcs; simpl; [done|].
  simpl in Hcs. apply orb_false_elim in Hcs as [Hc Hcs].
  apply IH; [|done]. unfold step. destruct (decide (c = "..")).
  - by apply magic_free_removelast.
  - rewrite existsb_app, Hl. simpl. by rewrite Hc.
Qed.

Lemma magic_free_resolve w p :
  magic_free (of_loc (cwd w)) → magic_free p →
  magic_free (of_loc (resolve (cwd w) p)).
Proof.
  unfold magic_free, resolve. simpl. intros Hc Hp.
  apply magic_free_fold_step; [|done]. by destruct (anchored p).
Qed.

Lemma magic_free_up k l :
  existsb has_magic l = false → existsb has_magic (up k l) = false.
Proof.
  revert l. induction k as [|k IH]; intros l Hl; simpl; [done|].
  apply IH. by apply magic_free_removelast.
Qed.

(** A project root found from a path without signs has none. *)
Lemma find_root_magic_free w root project_root raise_ :
  normal (cwd w) →
  magic_free (of_loc (cwd w)) → magic_free root →
  find_root_recursively w (PPath root) raise_ = Ok (Some project_root) →
  magic_free (of_loc project_root).
Proof.
  intros Hcwd Hc Hroot Hfound. unfold find_root_recursively in Hfound.
  destruct (first_root w (PPath root) options) as [r|] eqn:E;
    [|by destruct raise_].
  injection Hfound as <-.
  apply first_root_inv in E as (_ & _ & _ & k & _ & _ & _ & _ & _ & ->);
    [|done|done].
  unfold magic_free. simpl. apply magic_free_up.
  by apply (magic_free_resolve w root).
Qed.

Lemma find_file_from_path w F n root :
  find_file_recursively w F n (PPath root)
    = ascend w F n (resolve (cwd w) root).
Proof. done. Qed.

End entry_point_rules.

(** X9.  With [ENTRY_POINT] unset or empty, no sign [*], [?], [[] in
    [root_path] or in the pipeline name, and no manifest file directly
    in [root_path], [entry_point] returns the path of a package-style
    candidate whenever there is one: the least of the candidates' paths
    in byte order. *)
Theorem entry_point_package environ w root_path name :
  env_get environ "ENTRY_POINT" = None →
  magic_free (path_or root_path (parse ".")) →
  has_magic (FILENAME name) = false →
  exists_ w (join (path_or root_path (parse ".")) (parse (FILENAME name)))
    = false →
  (∃ f, pkg_candidate w (path_or root_path (parse ".")) (FILENAME name) f) →
  ∃ f,
    pkg_candidate w (path_or root_path (parse ".")) (FILENAME name) f ∧
    entry_point environ w root_path name = Ok (render f) ∧
    ∀ g, pkg_candidate w (path_or root_path (parse ".")) (FILENAME name) g →
         String.leb (render f) (render g) = true.
Proof.
  intros Henv Hroot Hmagic Hno Hcand.
  pose proof (FILENAME_relative name) as Hrel.
  destruct (_package_location w (path_or root_path (parse "."))
              (FILENAME name)) as [s|] eqn:Hp.
  - destruct (package_location_Some _ _ _ _ Hroot Hmagic Hrel Hp)
      as (f & Hf & ->).
    exists f. repeat split; [done | |].
    + unfold entry_point. by rewrite Henv, Hp, Hno.
    + intros g Hg.
      by apply (package_location_head w (path_or root_path (parse "."))
                  (FILENAME name)).
  - by apply package_location_None in Hp.
Qed.

Lemma entry_point_package_witness :
  entry_point ∅ Ex.packages PNone None = Ok "src/package_b/pipeline.yaml".
Proof.
  destruct (entry_point_package ∅ Ex.packages PNone None)
    as (f & Hf & Hres & _);
    [reflexivity | reflexivity | reflexivity | reflexivity | |].
  - exists (parse "src/package_c/pipeline.yaml"),
      [ "package_c"; ".hidden"; "package_a.egg-info"; "package_b" ],
      "package_c".
    repeat split. by left.
  - reflexivity.
Defined.

(** X10.  With [ENTRY_POINT] unset or empty, no sign [*], [?], [[] in
    [root_path] or in the pipeline name, no package-style candidate under
    [root_path], and the manifest file found [k] directories above
    [root_path] ([k] below 6, nearest first), [entry_point] returns the
    file name behind [k] times [".."], a path relative to [root_path].
    (No directory on the way to [root_path] bears the manifest's name.) *)
Theorem entry_point_in_parent environ w root_path name k :
  env_get environ "ENTRY_POINT" = None →
  normal (cwd w) →
  magic_free (path_or root_path (parse ".")) →
  has_magic (FILENAME name) = false →
  (∀ n, name = Some n → has_sep n = false) →
  (¬ ∃ f, pkg_candidate w (path_or root_path (parse ".")) (FILENAME name) f) →
  k < 6 →
  marker w (resolve (cwd w) (path_or root_path (parse "."))) (FILENAME name) k →
  (∀ j, j < k →
     ¬ marker w (resolve (cwd w) (path_or root_path (parse ".")))
         (FILENAME name) j) →
  FILENAME name ∉ resolve (cwd w) (path_or root_path (parse ".")) →
  entry_point environ w root_path name
    = Ok (String.concat "/" (replicate k ".." ++ [FILENAME name])).
Proof.
  intros Henv Hcwd Hroot Hmagic Hname Hnone Hk Hm Hfirst Hnot.
  destruct (FILENAME_plain name Hname) as [Hparse Hdd].
  pose proof (FILENAME_relative name) as Hrel.
  set (root := path_or root_path (parse ".")) in *.
  set (F := FILENAME name) in *.
  set (R := resolve (cwd w) root) in *.
  assert (normal R) as HR by by apply normal_resolve.
  apply package_location_None in Hnone; [|done|done|done].
  unfold entry_point. rewrite Henv. fold root F. rewrite Hnone.
  rewrite find_file_from_path. fold R.
  rewrite (ascend_Some w F 6 R k Hk Hm Hfirst).
  assert (resolve (cwd w) (join (of_loc (up k R)) (parse F)) = up k R ++ [F])
    as ->.
  { rewrite Hparse. unfold join. simpl. apply (resolve_of_loc _ (_ ++ _)).
    apply normal_app. split; [by apply normal_up|].
    apply normal_cons. split; [done | apply normal_nil]. }
  rewrite resolve_of_loc.
  2:{ apply normal_app. split; [by apply normal_up|].
      apply normal_cons. split; [done | apply normal_nil]. }
  unfold relpath. rewrite relpath_names_up; [|done|].
  - unfold render. simpl. by destruct k.
  - by apply (nearest_marker_depth w R F).
Qed.

Lemma entry_point_in_parent_witness :
  entry_point ∅ (mkWorld ["proj"; "src"] (tree Ex.both_manifests)) PNone None
    = Ok "../pipeline.yaml".
Proof.
  apply (entry_point_in_parent ∅
           (mkWorld ["proj"; "src"] (tree Ex.both_manifests)) PNone None 1).
  - reflexivity.
  - solve_normal.
  - reflexivity.
  - reflexivity.
  - intros n Hn. discriminate Hn.
  - intros (f & ds & d & Hl & _). discriminate Hl.
  - lia.
  - reflexivity.
  - intros [|j] Hj; [discriminate | lia].
  - change (resolve _ _) with ["proj"; "src"].
    intros H. rewrite !elem_of_cons, elem_of_nil in H.
    by destruct H as [?|[?|[]]].
Defined.

(** X11.  Where neither the working directory, nor [root_path], nor
    the pipeline name has one of the signs [*], [?], [[], [entry_point]
    fails in one way only, with [DAGSpecNotFound], and exactly when
    every rule comes up empty: [ENTRY_POINT] is unset or empty,
    [root_path] offers no package-style candidate (or offers one that
    the direct file would shadow), the manifest file is in none of the
    six directories from [root_path] upwards, and the project root, when
    one is found, has no package-style candidate either. *)
Theorem entry_point_not_found environ w root_path name e :
  normal (cwd w) →
  magic_free (of_loc (cwd w)) →
  magic_free (path_or root_path (parse ".")) →
  has_magic (FILENAME name) = false →
  entry_point environ w root_path name = Raise e ↔
  e = DAGSpecNotFound ∧
  env_get environ "ENTRY_POINT" = None ∧
  ((¬ ∃ f, pkg_candidate w (path_or root_path (parse "."))
             (FILENAME name) f) ∨
   exists_ w (join (path_or root_path (parse ".")) (parse (FILENAME name)))
     = true) ∧
  (∀ k, k < 6 →
     ¬ marker w (resolve (cwd w) (path_or root_path (parse ".")))
         (FILENAME name) k) ∧
  (∀ project_root,
     find_root_recursively w (PPath (path_or root_path (parse "."))) false
       = Ok (Some project_root) →
     ¬ ∃ f, pkg_candidate w (of_loc project_root) (FILENAME name) f).
Proof.
  intros Hcwd Hcwdm Hroot Hmagic.
  pose proof (FILENAME_relative name) as Hrel.
  set (root := path_or root_path (parse ".")) in *.
  set (F := FILENAME name) in *.
  unfold entry_point. fold root F. rewrite find_file_from_path.
  destruct (env_get environ "ENTRY_POINT") as [v|].
  { split; [done|]. by intros (_ & [=] & _). }
  assert (∀ r : res string,
    (r = Raise e ↔ e = DAGSpecNotFound ∧ (∀ k, k < 6 →
         ¬ marker w (resolve (cwd w) root) F k) ∧
       (∀ project_root,
          find_root_recursively w (PPath root) false = Ok (Some project_root) →
          ¬ ∃ f, pkg_candidate w (of_loc project_root) F f)) →
    ∀ (early : bool),
      (early = false ↔ (¬ ∃ f, pkg_candidate w root F f) ∨
                       exists_ w (join root (parse F)) = true) →
      ∀ s, ((if early then Ok s else r) = Raise e ↔
            e = DAGSpecNotFound ∧ None = (None : option string) ∧
            ((¬ ∃ f, pkg_candidate w root F f) ∨
             exists_ w (join root (parse F)) = true) ∧
            (∀ k, k < 6 → ¬ marker w (resolve (cwd w) root) F k) ∧
            (∀ project_root,
               find_root_recursively w (PPath root) false
                 = Ok (Some project_root) →
               ¬ ∃ f, pkg_candidate w (of_loc project_root) F f))) as Hcase.
  { intros r Hr [|] Hearly s.
    - split; [done|]. intros (_ & _ & He & _). apply Hearly in He. done.
    - rewrite Hr. pose proof (proj1 Hearly eq_refl). tauto. }
  assert (match ascend w F 6 (resolve (cwd w) root) with
          | Some parent_location =>
              Ok (relpath (resolve (cwd w) (of_loc parent_location))
                    (resolve (cwd w) root))
          | None =>
              match find_root_recursively w (PPath root) false with
              | Ok (Some root_project) =>
                  match _package_location w (of_loc root_project) F with
                  | Some pkg_location =>
                      Ok (relpath (resolve (cwd w) (parse pkg_location))
                            (resolve (cwd w) root))
                  | None => Raise DAGSpecNotFound
                  end
              | Ok None => Raise DAGSpecNotFound
              | Raise e0 => Raise e0
              end
          end = Raise e ↔
          e = DAGSpecNotFound ∧
          (∀ k, k < 6 → ¬ marker w (resolve (cwd w) root) F k) ∧
          (∀ project_root,
             find_root_recursively w (PPath root) false
               = Ok (Some project_root) →
             ¬ ∃ f, pkg_candidate w (of_loc project_root) F f)) as Hrest.
  { destruct (ascend w F 6 (resolve (cwd w) root)) as [p|] eqn:Ea.
    - split; [done|]. intros (_ & Hno & _).
      pose proof (proj2 (ascend_None w F 6 (resolve (cwd w) root)) Hno).
      congruence.
    - pose proof (proj1 (ascend_None w F 6 (resolve (cwd w) root)) Ea) as Hm.
      destruct (find_root_recursively w (PPath root) false)
        as [[r|]|e0] eqn:Er.
      + pose proof (find_root_magic_free w root r false Hcwd Hcwdm Hroot Er)
          as Hr.
        destruct (_package_location w (of_loc r) F) as [s|] eqn:Hp.
        * split; [done|]. intros (_ & _ & Hno).
          apply package_location_Some in Hp as (f & Hf & _);
            [|done|done|done].
          destruct (Hno r eq_refl). by exists f.
        * apply package_location_None in Hp; [|done|done|done]. split.
          -- intros [= <-]. repeat split; [done|].
             by intros r' [= <-].
          -- by intros (-> & _).
      + split.
        * intros [= <-]. repeat split; [done|]. by intros r' [=].
        * by intros (-> & _).
      + exfalso. unfold find_root_recursively in Er.
        by destruct (first_root w (PPath root) options). }
  destruct (_package_location w root F) as [s|] eqn:Hp.
  - pose proof (package_location_Some _ _ _ _ Hroot Hmagic Hrel Hp)
      as (f & Hf & _).
    apply (Hcase _ Hrest (negb (exists_ w (join root (parse F)))) ).
    destruct (exists_ w (join root (parse F))); simpl; split; try done.
    + by right.
    + intros [Hno|?]; [|done]. destruct Hno. by exists f.
  - apply package_location_None in Hp; [|done|done|done].
    apply (Hcase _ Hrest false); [|exact ""]. split; [by left | done].
Qed.

Lemma entry_point_not_found_witness :
  entry_point ∅ Ex.project PNone None = Raise DAGSpecNotFound.
Proof.
  apply (entry_point_not_found ∅ Ex.project PNone None DAGSpecNotFound);
    [solve_normal | reflexivity | reflexivity | reflexivity |].
  repeat split.
  - left. intros (f & ds & d & Hl & _). discriminate Hl.
  - intros k Hk.
    do 6 (destruct k as [|k]; [discriminate|]). lia.
  - intros r [= <-] (f & ds & d & Hl & _). discriminate Hl.
Defined.

(* ================================================================== *)
(** * The upward search *)

(** X12.  [find_file_recursively] looks in the starting directory and
    then in one parent after another, [max_levels_up] directories in all:
    it returns [None] exactly when none of them holds [name], and
    otherwise the resolved path of [name] in the nearest one that does;
    a result found within [max_levels_up] levels is the result for every
    larger bound. *)
Theorem find_file_recursively_nearest w name max_levels_up starting_dir :
  (find_file_recursively w name max_levels_up starting_dir = None ↔
   ∀ k, k < max_levels_up → ¬ marker w (start_dir w starting_dir) name k) ∧
  (∀ path,
     find_file_recursively w name max_levels_up starting_dir = Some path →
     (∃ k, k < max_levels_up ∧
           marker w (start_dir w starting_dir) name k ∧
           (∀ j, j < k → ¬ marker w (start_dir w starting_dir) name j) ∧
           path = resolve (cwd w)
                    (join (of_loc (up k (start_dir w starting_dir)))
                          (parse name))) ∧
     ∀ more, max_levels_up ≤ more →
       find_file_recursively w name more starting_dir = Some path).
Proof.
  unfold find_file_recursively. fold (start_dir w starting_dir). split.
  - apply ascend_None.
  - intros path (k & Hk & Hm & Hfirst & ->)%ascend_Some_inv. split.
    + by exists k.
    + intros more Hmore. apply ascend_Some; [lia | done | done].
Qed.

(** X13.  A root returned by [find_root_recursively] is the starting
    directory or one of its five nearest ancestors and holds one of the
    marker names, no earlier marker name being anywhere in those six
    directories; the result does not depend on [raise_], which only
    turns the answer [None] into [ValueError], the one exception the
    function raises. *)
Theorem find_root_recursively_sound w starting_dir raise_ :
  normal (cwd w) →
  (∀ root,
     find_root_recursively w starting_dir raise_ = Ok (Some root) →
     (∃ pre name post k,
        options = pre ++ name :: post ∧
        (∀ n j, n ∈ pre → j < 6 →
           ¬ marker w (start_dir w starting_dir) n j) ∧
        k < 6 ∧ marker w (start_dir w starting_dir) name k ∧
        root = up k (start_dir w starting_dir)) ∧
     find_root_recursively w starting_dir (negb raise_) = Ok (Some root)) ∧
  (∀ e, find_root_recursively w starting_dir raise_ = Raise e →
        e = ValueError ∧ raise_ = true ∧
        find_root_recursively w starting_dir false = Ok None) ∧
  (find_root_recursively w starting_dir raise_ = Ok None →
   raise_ = false ∧
   find_root_recursively w starting_dir true = Raise ValueError).
Proof.
  intros Hcwd. unfold find_root_recursively.
  destruct (first_root w starting_dir options) as [r|] eqn:E.
  - split; [|split]; try done.
    intros root [= <-]. split; [|done].
    apply first_root_inv in E
      as (pre & name & post & k & Ho & Hpre & Hk & Hm & _ & ->);
      [|done|done].
    by exists pre, name, post, k.
  - split; [|split].
    + intros root. by destruct raise_.
    + intros e. destruct raise_; [|done]. by intros [= <-].
    + by destruct raise_.
Qed.

Lemma find_root_recursively_sound_witness :
  ∃ pre name post k,
    options = pre ++ name :: post ∧
    (∀ n j, n ∈ pre → j < 6 →
       ¬ marker Ex.nested_package (start_dir Ex.nested_package PNone) n j) ∧
    k < 6 ∧ marker Ex.nested_package (start_dir Ex.nested_package PNone) name k ∧
    [] = up k (start_dir Ex.nested_package PNone).
Proof.
  assert (normal (cwd Ex.nested_package)) as Hn by solve_normal.
  exact (proj1 (proj1 (find_root_recursively_sound Ex.nested_package PNone
                         false Hn) [] eq_refl)).
Defined.

(* ================================================================== *)
(** * Names inside file names *)

Section split_facts.
Context (sep : ascii).

Lemma split_on_nonempty s : split_on sep s ≠ [].
Proof.
  destruct s as [|c s]; simpl; [done|].
  destruct (Ascii.eqb c sep); [done|]. by destruct (split_on sep s).
Qed.

Lemma split_on_none s : contains sep s = false → split_on sep s = [s].
Proof.
  induction s as [|c s IH]; simpl; [done|].
  intros [Hc Hs]%orb_false_elim. rewrite Hc. by rewrite (IH Hs).
Qed.

Lemma split_on_app a b :
  contains sep a = false →
  split_on sep (a +:+ String sep b) = a :: split_on sep b.
Proof.
  induction a as [|c a IH]; simpl.
  - intros _. by rewrite Ascii.eqb_refl.
  - intros [Hc Ha]%orb_false_elim. rewrite Hc. by rewrite (IH Ha).
Qed.

Lemma split_on_cons s a x l :
  split_on sep s = a :: x :: l →
  ∃ s', s = a +:+ String sep s' ∧ contains sep a = false ∧
        split_on sep s' = x :: l.
Proof.
  revert a. induction s as [|c s IH]; intros a; simpl; [done|].
  destruct (Ascii.eqb c sep) eqn:Hc.
  - intros [= <- Hs]. apply Ascii.eqb_eq in Hc as ->. by exists s.
  - destruct (split_on sep s) as [|y ys] eqn:Hs; [done|].
    intros [= <- ->]. destruct (IH y eq_refl) as (s' & -> & Hy & Hs').
    exists s'. simpl. by rewrite Hc, Hy.
Qed.

End split_facts.

Lemma contains_sep s : contains "/" s = has_sep s.
Proof. induction s as [|c s IH]; simpl; [done|]. by rewrite IH. Qed.

Lemma contains_app ch a b :
  contains ch (a +:+ b) = contains ch a || contains ch b.
Proof.
  induction a as [|c a IH]; simpl; [done|]. by rewrite IH, orb_assoc.
Qed.

(** A name without a separator is the whole of its path's last
    component. *)
Lemma name_join_plain dir s :
  has_sep s = false → s ≠ "" → s ≠ "." →
  name (join dir (parse s)) = s.
Proof.
  intros Hsep H1 H2. unfold parse. rewrite (segments_no_sep _ Hsep).
  rewrite filter_cons_True, filter_nil.
  - unfold join, name. simpl.
    destruct s as [|c s]; [done|]. simpl in Hsep.
    apply orb_false_elim in Hsep as [-> _]. simpl. apply last_last.
  - unfold is_name. by rewrite !bool_decide_eq_false_2.
Qed.

(** X14.  [extract_name] returns a name exactly for the paths whose last
    component has two dots or more, and the name is what stands between
    the first two: for [something.name.rest] it is [name], whatever
    [rest] is, and with fewer than two dots the answer is [None]. *)
Theorem extract_name_between_dots path n :
  extract_name path = Some n ↔
  ∃ before rest,
    name path = before +:+ "." +:+ n +:+ "." +:+ rest ∧
    contains "." before = false ∧ contains "." n = false.
Proof.
  unfold extract_name. split.
  - case_bool_decide as Hlen; [done|].
    destruct (split_on "." (name path)) as [|a [|x [|y l]]] eqn:Hs;
      simpl in Hlen; try lia.
    intros [= ->].
    apply split_on_cons in Hs as (s' & Hname & Ha & Hs').
    apply split_on_cons in Hs' as (s'' & -> & Hn & _).
    by exists a, s''.
  - intros (a & rest & -> & Ha & Hn).
    change (a +:+ "." +:+ n +:+ "." +:+ rest)
      with (a +:+ String "." (n +:+ String "." rest)).
    rewrite !split_on_app by done.
    pose proof (split_on_nonempty "." rest).
    destruct (split_on "." rest) as [|y l]; [done|].
    rewrite bool_decide_eq_false_2 by (simpl; lia). done.
Qed.

(** X15.  The file name that [entry_point] builds for a pipeline name
    gives that name back: [extract_name] of [pipeline.{name}.yaml], in
    any directory, is [name] when the name has no dot and no separator,
    and [extract_name] of the default [pipeline.yaml] is [None]. *)
Theorem extract_name_of_FILENAME dir name :
  (∀ n, name = Some n → has_sep n = false ∧ contains "." n = false) →
  extract_name (join dir (parse (FILENAME name))) = name.
Proof.
  intros Hname. destruct name as [n|].
  - destruct (Hname n eq_refl) as [Hsep Hdot].
    unfold extract_name. rewrite name_join_plain.
    + change (FILENAME (Some n))
        with ("pipeline" +:+ String "." (n +:+ String "." "yaml")).
      by rewrite !split_on_app.
    + unfold FILENAME. by rewrite !has_sep_app, Hsep.
    + done.
    + done.
  - unfold extract_name. by rewrite name_join_plain.
Qed.

Lemma extract_name_of_FILENAME_witness :
  extract_name (join (parse "projects/ml") (parse (FILENAME (Some "serve"))))
    = Some "serve".
Proof.
  apply (extract_name_of_FILENAME (parse "projects/ml") (Some "serve")).
  intros n [= <-]. split; reflexivity.
Defined.

(* ================================================================== *)
(** * Environment files *)

Section env_files.
Context (environ : gmap string string) (w : world).

Lemma first_existing_app l1 l2 :
  first_existing w (l1 ++ l2)
    = match first_existing w l1 with
      | Some s => Some s
      | None => first_existing w l2
      end.
Proof.
  unfold first_existing. induction l1 as [|loc l1 IH]; simpl; [done|].
  by destruct (exists_ w (of_loc loc)).
Qed.

Lemma path_to_env_with_name_unset name path_to_parent :
  env_get environ "PLOOMBER_ENV_FILENAME" = None →
  path_to_env_with_name environ w name path_to_parent
    = Ok (first_existing w
            (env_here w (env_filename name) ::
             match (if truthy path_to_parent then to_Path path_to_parent
                    else Raise TypeError) with
             | Ok p => [env_sibling w p (env_filename name)]
             | Raise _ => []
             end)).
Proof.
  intros Hget. unfold path_to_env_with_name. rewrite Hget. simpl.
  fold (env_filename name). fold (env_here w (env_filename name)).
  unfold first_existing. simpl.
  destruct (exists_ w (of_loc (env_here w (env_filename name)))); [done|].
  destruct (truthy path_to_parent); [|done].
  destruct (to_Path path_to_parent) as [p|e]; simpl; [|done].
  fold (env_sibling w p (env_filename name)).
  by destruct (exists_ w (of_loc (env_sibling w p (env_filename name)))).
Qed.

End env_files.

(** X16.  While [PLOOMBER_ENV_FILENAME] is unset or empty,
    [path_to_env_with_name] never raises: it looks for [env.yaml], or
    [env.{name}.yaml], in the working directory first and then next to
    [path_to_parent], and returns the resolved path of the first that
    exists, or [None]; with a falsy [path_to_parent] only the working
    directory is tried. *)
Theorem path_to_env_with_name_default environ w name path_to_parent :
  env_get environ "PLOOMBER_ENV_FILENAME" = None →
  (truthy path_to_parent = false →
   path_to_env_with_name environ w name path_to_parent
     = Ok (first_existing w [env_here w (env_filename name)])) ∧
  (∀ p, truthy path_to_parent = true →
        to_Path path_to_parent = Ok p →
        path_to_env_with_name environ w name path_to_parent
          = Ok (first_existing w [env_here w (env_filename name);
                                  env_sibling w p (env_filename name)])).
Proof.
  intros Hget. split.
  - intros Ht. rewrite path_to_env_with_name_unset by done. by rewrite Ht.
  - intros p Ht Hp. rewrite path_to_env_with_name_unset by done.
    by rewrite Ht, Hp.
Qed.

Lemma path_to_env_with_name_default_witness :
  path_to_env_with_name ∅ Ex.with_envs None (PStr "dir")
    = Ok (Some "/proj/env.yaml")
  ∧ path_to_env_with_name ∅ Ex.with_envs (Some "dev") (PStr "dir")
    = Ok (Some "/proj/dir/env.dev.yaml")
  ∧ path_to_env_with_name ∅ Ex.with_envs (Some "dev") PNone = Ok None.
Proof.
  destruct (path_to_env_with_name_default ∅ Ex.with_envs None (PStr "dir"))
    as [_ Hplain]; [reflexivity|].
  destruct (path_to_env_with_name_default ∅ Ex.with_envs (Some "dev")
              (PStr "dir")) as [_ Hnamed]; [reflexivity|].
  destruct (path_to_env_with_name_default ∅ Ex.with_envs (Some "dev") PNone)
    as [Halone _]; [reflexivity|].
  split; [|split].
  - rewrite (Hplain (parse "dir")); reflexivity.
  - rewrite (Hnamed (parse "dir")); reflexivity.
  - rewrite Halone; reflexivity.
Defined.

(** X17.  For a spec path that is no directory and has an extension, and
    without an override, [path_to_env] returns the first that exists of:
    [env.{name}.yaml] in the working directory, [env.{name}.yaml] next
    to the spec, [env.yaml] in the working directory, [env.yaml] next to
    the spec; the first two only when the spec is called
    [something.{name}.ext].  So a named file next to the spec is taken
    before a plain [env.yaml] in the working directory.  When none
    exists the answer is [None]. *)
Theorem path_to_env_order environ w path_to_spec spec :
  env_get environ "PLOOMBER_ENV_FILENAME" = None →
  to_Path path_to_spec = Ok spec →
  is_dir w spec = false →
  has_suffix spec = true →
  path_to_env environ w path_to_spec
    = Ok (first_existing w
            (match extract_name spec with
             | Some n => [env_here w (env_filename (Some n));
                          env_sibling w (parent spec) (env_filename (Some n))]
             | None => []
             end ++
             [env_here w "env.yaml"; env_sibling w (parent spec) "env.yaml"])).
Proof.
  intros Hget Hspec Hdir Hsuf.
  assert (path_to_env environ w path_to_spec
          = match extract_name spec with
            | None => path_to_env_with_name environ w None (PPath (parent spec))
            | Some name =>
                (path <- path_to_env_with_name environ w (Some name)
                           (PPath (parent spec));;
                 match path with
                 | None =>
                     path_to_env_with_name environ w None (PPath (parent spec))
                 | Some _ => Ok path
                 end)%py
            end) as ->.
  { destruct path_to_spec as [|s|p]; [done| |];
      unfold path_to_env; rewrite Hspec; simpl; by rewrite Hdir, Hsuf. }
  rewrite first_existing_app.
  destruct (extract_name spec) as [n|];
    rewrite !path_to_env_with_name_unset by done; simpl; [|done].
  by destruct (first_existing w _).
Qed.

Lemma path_to_env_order_witness :
  path_to_env ∅ Ex.with_envs (PStr "dir/pipeline.dev.yaml")
    = Ok (Some "/proj/dir/env.dev.yaml")
  ∧ path_to_env ∅ Ex.with_envs (PStr "dir/pipeline.yaml")
    = Ok (Some "/proj/env.yaml").
Proof.
  split.
  - rewrite (path_to_env_order ∅ Ex.with_envs (PStr "dir/pipeline.dev.yaml")
               (parse "dir/pipeline.dev.yaml")); reflexivity.
  - rewrite (path_to_env_order ∅ Ex.with_envs (PStr "dir/pipeline.yaml")
               (parse "dir/pipeline.yaml")); reflexivity.
Defined.

(** X18.  [path_to_env] checks the spec path before it reads the
    environment: a path to a directory, or one whose last component has
    no extension, raises [ValueError] whatever [PLOOMBER_ENV_FILENAME]
    holds and whatever else the store contains. *)
Theorem path_to_env_bad_spec environ w path_to_spec spec :
  to_Path path_to_spec = Ok spec →
  is_dir w spec = true ∨ has_suffix spec = false →
  path_to_env environ w path_to_spec = Raise ValueError.
Proof.
  intros Hspec Hbad.
  destruct path_to_spec as [|s|p]; [done| |];
    unfold path_to_env; rewrite Hspec; simpl;
    (destruct (is_dir w spec); [done|]);
    destruct Hbad as [?| ->]; done.
Qed.

Lemma path_to_env_bad_spec_witness :
  path_to_env {[ "PLOOMBER_ENV_FILENAME" := "env.dev.yaml" ]} Ex.project
    (PStr "dir") = Raise ValueError
  ∧ path_to_env ∅ Ex.project (PStr "file") = Raise ValueError.
Proof.
  split.
  - apply (path_to_env_bad_spec _ Ex.project (PStr "dir") (parse "dir"));
      [reflexivity | left; reflexivity].
  - apply (path_to_env_bad_spec _ Ex.project (PStr "file") (parse "file"));
      [reflexivity | right; reflexivity].
Defined.

(** X19.  With [PLOOMBER_ENV_FILENAME] set to a non-empty value the
    pipeline name plays no part: [path_to_env_with_name] gives the same
    outcome for every [name], that outcome is never [None], and
    [path_to_env] on a well-formed spec path is the single lookup of the
    override next to the spec's parent. *)
Theorem path_to_env_override environ w v :
  env_get environ "PLOOMBER_ENV_FILENAME" = Some v →
  (∀ name name' path_to_parent,
     path_to_env_with_name environ w name path_to_parent
       = path_to_env_with_name environ w name' path_to_parent) ∧
  (∀ name path_to_parent,
     path_to_env_with_name environ w name path_to_parent ≠ Ok None) ∧
  (∀ path_to_spec spec,
     to_Path path_to_spec = Ok spec →
     is_dir w spec = false →
     has_suffix spec = true →
     path_to_env environ w path_to_spec
       = path_to_env_with_name environ w None (PPath (parent spec))).
Proof.
  intros Hget.
  assert (∀ name path_to_parent,
            path_to_env_with_name environ w name path_to_parent
              = path_to_env_with_name environ w None path_to_parent) as Hname.
  { intros name a. unfold path_to_env_with_name. by rewrite Hget. }
  assert (∀ name path_to_parent,
            path_to_env_with_name environ w name path_to_parent ≠ Ok None)
    as Hsome.
  { intros name a. unfold path_to_env_with_name. rewrite Hget.
    case_bool_decide; [by destruct a|]. simpl.
    destruct (exists_ w _); [done|].
    destruct (truthy a); [|done].
    destruct (to_Path a) as [p|e]; [|done].
    by destruct (exists_ w _). }
  split; [|split].
  - intros name name' a. by rewrite (Hname name), (Hname name').
  - exact Hsome.
  - intros a spec Hspec Hdir Hsuf.
    assert (path_to_env environ w a
            = match extract_name spec with
              | None =>
                  path_to_env_with_name environ w None (PPath (parent spec))
              | Some name =>
                  (path <- path_to_env_with_name environ w (Some name)
                             (PPath (parent spec));;
                   match path with
                   | None => path_to_env_with_name environ w None
                               (PPath (parent spec))
                   | Some _ => Ok path
                   end)%py
              end) as ->.
    { destruct a as [|s|p]; [done| |];
        unfold path_to_env; rewrite Hspec; simpl; by rewrite Hdir, Hsuf. }
    destruct (extract_name spec) as [n|]; [|done].
    rewrite (Hname (Some n)).
    pose proof (Hsome None (PPath (parent spec))) as Hne.
    by destruct (path_to_env_with_name environ w None (PPath (parent spec)))
      as [[s|]|e].
Qed.

Lemma path_to_env_override_witness :
  path_to_env {[ "PLOOMBER_ENV_FILENAME" := "file" ]} Ex.project
    (PStr "dir/pipeline.dev.yaml")
    = path_to_env_with_name {[ "PLOOMBER_ENV_FILENAME" := "file" ]}
        Ex.project None (PPath (parent (parse "dir/pipeline.dev.yaml"))).
Proof.
  destruct (path_to_env_override {[ "PLOOMBER_ENV_FILENAME" := "file" ]}
              Ex.project "file") as (_ & _ & H); [reflexivity|].
  apply H; reflexivity.
Defined.

(* ================================================================== *)
(** * Paths printed and read back *)

Section render_parse.
Implicit Types (l : list string) (f : Path).

Lemma concat_cons2 x y l :
  String.concat "/" (x :: y :: l)
    = x +:+ String "/" (String.concat "/" (y :: l)).
Proof. done. Qed.

Lemma segments_concat l :
  l ≠ [] → Forall (λ c, has_sep c = false) l →
  segments (String.concat "/" l) = l.
Proof.
  induction l as [|x [|y l] IH]; intros Hne Hl; [done| |].
  - simpl. apply segments_no_sep. by inversion Hl.
  - rewrite concat_cons2. unfold segments.
    rewrite split_on_app by (rewrite contains_sep; by inversion Hl).
    f_equal. apply IH; [done | by inversion Hl].
Qed.

Lemma filter_plain l :
  Forall plain_name l → filter (λ c, is_name c = true) l = l.
Proof.
  induction 1 as [|x l (_ & H1 & H2) _ IH]; [done|].
  rewrite filter_cons_True, IH; [done|].
  unfold is_name. by rewrite !bool_decide_eq_false_2.
Qed.

(** [Path(str(f)) == f] for a path of plain names. *)
Lemma parse_render f : Forall plain_name (names f) → parse (render f) = f.
Proof.
  destruct f as [a l]. simpl. intros Hl.
  assert (Forall (λ c, has_sep c = false) l) as Hsep.
  { eapply Forall_impl; [exact Hl|]. by intros c (? & _). }
  unfold render. simpl. destruct a.
  - unfold parse. simpl. f_equal.
    destruct l as [|x l]; [done|].
    change (segments ("/" +:+ String.concat "/" (x :: l)))
      with ("" :: segments (String.concat "/" (x :: l))).
    rewrite segments_concat by done.
    rewrite filter_cons_False by done. by apply filter_plain.
  - destruct l as [|x l]; [done|].
    unfold parse. rewrite segments_concat by done.
    rewrite filter_plain by done. f_equal.
    inversion Hl as [|? ? (Hx & Hx1 & _) _]; subst.
    destruct l as [|y l].
    + simpl. destruct x as [|c x]; [done|]. simpl in Hx.
      by apply orb_false_elim in Hx as [-> _].
    + rewrite concat_cons2. destruct x as [|c x]; [done|]. simpl in *.
      by apply orb_false_elim in Hx as [-> _].
Qed.

Lemma FILENAME_plain_name name :
  (∀ n, name = Some n → has_sep n = false) → plain_name (FILENAME name).
Proof.
  intros Hname. destruct name as [n|]; [|done].
  split; [|done]. unfold FILENAME. by rewrite !has_sep_app, (Hname n eq_refl).
Qed.

(** The components of a candidate's path. *)
Lemma names_src_file root d F :
  plain_name F →
  src_file (of_loc root) d F = of_loc (root ++ ["src"; d; F]).
Proof.
  intros (HF & H1 & H2). unfold src_file, parse.
  rewrite (segments_no_sep F HF).
  rewrite (filter_cons_True _ F), filter_nil
    by (unfold is_name; by rewrite !bool_decide_eq_false_2).
  destruct F as [|c F]; [done|]. simpl in HF.
  apply orb_false_elim in HF as [Hc _].
  unfold join, of_loc. simpl. rewrite Hc. simpl.
  by rewrite <- !app_assoc.
Qed.

Lemma name_parent_of_loc l a b c :
  name (parent (of_loc (l ++ [a; b; c]))) = b.
Proof.
  unfold name, parent. simpl.
  replace (l ++ [a; b; c]) with ((l ++ [a; b]) ++ [c])
    by by rewrite <- app_assoc.
  rewrite removelast_last.
  replace (l ++ [a; b]) with ((l ++ [a]) ++ [b]) by by rewrite <- app_assoc.
  apply last_last.
Qed.

Lemma hidden_not_dots d : hidden d = false → d ≠ "." ∧ d ≠ "..".
Proof. intros H. split; by intros ->. Qed.

End render_parse.

(** X20.  [find_package_name] raises nothing but [ValueError]: when no
    project root is found, and, for a root with none of the signs [*],
    [?], [[] in its path, when the root has no package-style candidate
    for [pipeline.yaml].  Otherwise it returns the name of the directory
    under [src] that holds the least candidate. *)
Theorem find_package_name_least w starting_dir :
  (∀ e, find_package_name w starting_dir = Raise e → e = ValueError) ∧
  (find_root_recursively w starting_dir true = Raise ValueError →
   find_package_name w starting_dir = Raise ValueError) ∧
  (∀ root,
     find_root_recursively w starting_dir true = Ok (Some root) →
     magic_free (of_loc root) →
     (find_package_name w starting_dir = Raise ValueError ↔
      ¬ ∃ f, pkg_candidate w (of_loc root) "pipeline.yaml" f) ∧
     (Forall plain_name root →
      (∀ ds d, listdir w (join (of_loc root) (parse "src")) = Ok ds →
               d ∈ ds → has_sep d = false ∧ d ≠ "") →
      ∀ pkg, find_package_name w starting_dir = Ok pkg →
        pkg_candidate w (of_loc root) "pipeline.yaml"
          (src_file (of_loc root) pkg "pipeline.yaml") ∧
        ∀ g, pkg_candidate w (of_loc root) "pipeline.yaml" g →
             String.leb (render (src_file (of_loc root) pkg "pipeline.yaml"))
                        (render g) = true)).
Proof.
  unfold find_package_name, find_root_recursively.
  destruct (first_root w starting_dir options) as [r|]; simpl.
  - split; [|split; [done|]].
    + intros e. by destruct (_package_location w (of_loc r) "pipeline.yaml");
        [|intros [= <-]].
    + intros root [= <-] Hmagic. split.
      * destruct (_package_location w (of_loc r) "pipeline.yaml") as [s|] eqn:Hp.
        -- split; [done|]. intros Hno.
           apply package_location_Some in Hp as (f & Hf & _);
             [|done|done|done].
           destruct Hno. by exists f.
        -- by apply package_location_None in Hp.
      * intros Hroot Hentries pkg.
        destruct (_package_location w (of_loc r) "pipeline.yaml") as [s|] eqn:Hp;
          [|done].
        pose proof (package_location_Some w (of_loc r) "pipeline.yaml" s
                      Hmagic eq_refl eq_refl Hp) as (f & Hf & ->).
        pose proof Hf as (ds & d & Hl & Hd & Hh & Heq & Hex & Hegg).
        destruct (Hentries ds d Hl Hd) as [Hsep Hne].
        destruct (hidden_not_dots d Hh) as [Hdot _].
        fold (src_file (of_loc r) d "pipeline.yaml") in Heq.
        assert (f = of_loc (r ++ ["src"; d; "pipeline.yaml"])) as Hnames.
        { rewrite Heq. by apply names_src_file. }
        rewrite parse_render.
        2:{ rewrite Hnames. simpl. apply Forall_app. split; [done|].
            repeat constructor; done. }
        assert (name (parent f) = d) as ->.
        { rewrite Hnames. apply name_parent_of_loc. }
        intros [= <-]. rewrite <- Heq. split; [done|].
        intros g Hg.
        by apply (package_location_head w (of_loc r) "pipeline.yaml").
  - split; [|split; [done|]]; [by intros e [= <-] | by intros root].
Qed.

Lemma find_package_name_least_witness :
  pkg_candidate Ex.installable (of_loc ["proj"]) "pipeline.yaml"
    (src_file (of_loc ["proj"]) "package_b" "pipeline.yaml").
Proof.
  destruct (find_package_name_least Ex.installable PNone) as (_ & _ & H).
  destruct (H ["proj"]) as [_ Hok]; [reflexivity | reflexivity |].
  apply Hok.
  - repeat constructor; discriminate.
  - intros ds d [= <-] Hd. rewrite !elem_of_cons, elem_of_nil in Hd.
    destruct Hd as [->|[->|[]]]; split; (reflexivity || discriminate).
  - reflexivity.
Defined.

(** X21.  The last rule of [entry_point]: with [ENTRY_POINT] unset or
    empty, none of the signs [*], [?], [[] in [root_path], in the
    pipeline name or in the project root, nothing returned for
    [root_path] itself, and the manifest file in none of the six
    directories from [root_path] upwards, the project root is searched
    for; when it is found and has package-style candidates, the result
    is the path of the least of them, made relative to [root_path]. *)
Theorem entry_point_project_package environ w root_path name project_root :
  env_get environ "ENTRY_POINT" = None →
  normal (cwd w) →
  magic_free (path_or root_path (parse ".")) →
  has_magic (FILENAME name) = false →
  magic_free (of_loc project_root) →
  (∀ n, name = Some n → has_sep n = false) →
  (¬ ∃ f, pkg_candidate w (path_or root_path (parse ".")) (FILENAME name) f) ∨
  exists_ w (join (path_or root_path (parse ".")) (parse (FILENAME name)))
    = true →
  (∀ k, k < 6 →
     ¬ marker w (resolve (cwd w) (path_or root_path (parse ".")))
         (FILENAME name) k) →
  find_root_recursively w (PPath (path_or root_path (parse "."))) false
    = Ok (Some project_root) →
  Forall plain_name project_root →
  (∀ ds d, listdir w (join (of_loc project_root) (parse "src")) = Ok ds →
           d ∈ ds → has_sep d = false ∧ d ≠ "") →
  (∃ f, pkg_candidate w (of_loc project_root) (FILENAME name) f) →
  ∃ d,
    pkg_candidate w (of_loc project_root) (FILENAME name)
      (src_file (of_loc project_root) d (FILENAME name)) ∧
    (∀ g, pkg_candidate w (of_loc project_root) (FILENAME name) g →
          String.leb
            (render (src_file (of_loc project_root) d (FILENAME name)))
            (render g) = true) ∧
    entry_point environ w root_path name
      = Ok (relpath (project_root ++ ["src"; d; FILENAME name])
                    (resolve (cwd w) (path_or root_path (parse ".")))).
Proof.
  intros Henv Hcwd Hrootm Hmagic Hprm Hname Hfirst Hnomarker Hroot Hplain
    Hentries Hcand.
  destruct (FILENAME_plain name Hname) as [_ Hdd].
  pose proof (FILENAME_plain_name name Hname) as HF.
  pose proof (FILENAME_relative name) as Hrel.
  set (root := path_or root_path (parse ".")) in *.
  set (F := FILENAME name) in *.
  assert (normal project_root) as Hnormal.
  { unfold find_root_recursively in Hroot.
    destruct (first_root w (PPath root) options) as [r|] eqn:E; [|done].
    injection Hroot as <-. by apply (first_root_normal w (PPath root) options). }
  destruct (_package_location w (of_loc project_root) F) as [s|] eqn:Hp.
  2:{ by apply package_location_None in Hp. }
  pose proof (package_location_Some _ _ _ _ Hprm Hmagic Hrel Hp)
    as (f & Hf & ->).
  pose proof Hf as (ds & d & Hl & Hd & Hh & Heq & Hex & Hegg).
  destruct (Hentries ds d Hl Hd) as [Hsep Hne].
  destruct (hidden_not_dots d Hh) as [Hdot Hdotdot].
  fold (src_file (of_loc project_root) d F) in Heq.
  assert (f = of_loc (project_root ++ ["src"; d; F])) as Hnames.
  { rewrite Heq. by apply names_src_file. }
  exists d. rewrite <- Heq. split; [done|]. split.
  - intros g Hg. by apply (package_location_head w (of_loc project_root) F).
  - assert (match find_file_recursively w F 6 (PPath root) with
            | Some parent_location =>
                Ok (relpath (resolve (cwd w) (of_loc parent_location))
                      (resolve (cwd w) root))
            | None =>
                match find_root_recursively w (PPath root) false with
                | Ok (Some root_project) =>
                    match _package_location w (of_loc root_project) F with
                    | Some pkg_location =>
                        Ok (relpath (resolve (cwd w) (parse pkg_location))
                              (resolve (cwd w) root))
                    | None => Raise DAGSpecNotFound
                    end
                | Ok None => Raise DAGSpecNotFound
                | Raise e0 => Raise e0
                end
            end = Ok (relpath (project_root ++ ["src"; d; F])
                        (resolve (cwd w) root))) as Hrest.
    { rewrite find_file_from_path.
      rewrite (proj2 (ascend_None w F 6 (resolve (cwd w) root)) Hnomarker).
      rewrite Hroot, Hp. rewrite parse_render.
      2:{ rewrite Hnames. simpl. apply Forall_app. split; [done|].
          constructor; [by split|]. constructor; [by split|].
          constructor; [done|]. constructor. }
      rewrite Hnames, resolve_of_loc; [done|].
      apply normal_app. split; [done|].
      repeat (apply normal_cons_intro; [done|]). apply normal_nil. }
    unfold entry_point. rewrite Henv. fold root F.
    destruct (_package_location w root F) as [s|] eqn:Hp0; [|exact Hrest].
    destruct Hfirst as [Hno| ->]; [|exact Hrest].
    apply package_location_Some in Hp0 as (f0 & Hf0 & _); [|done|done|done].
    destruct Hno. by exists f0.
Qed.

Lemma entry_point_project_package_witness :
  ∃ d,
    pkg_candidate Ex.installable (of_loc ["proj"]) "pipeline.yaml"
      (src_file (of_loc ["proj"]) d "pipeline.yaml") ∧
    (∀ g, pkg_candidate Ex.installable (of_loc ["proj"]) "pipeline.yaml" g →
          String.leb (render (src_file (of_loc ["proj"]) d "pipeline.yaml"))
                     (render g) = true) ∧
    entry_point ∅ Ex.installable PNone None
      = Ok (relpath (["proj"] ++ ["src"; d; "pipeline.yaml"])
                    ["proj"; "tests"]).
Proof.
  apply (entry_point_project_package ∅ Ex.installable PNone None ["proj"]).
  - reflexivity.
  - solve_normal.
  - reflexivity.
  - reflexivity.
  - reflexivity.
  - intros n Hn. discriminate Hn.
  - left. intros (f & ds & d & Hl & _). discriminate Hl.
  - intros k Hk. do 6 (destruct k as [|k]; [discriminate|]). lia.
  - reflexivity.
  - repeat constructor; discriminate.
  - intros ds d [= <-] Hd. rewrite !elem_of_cons, elem_of_nil in Hd.
    destruct Hd as [->|[->|[]]]; split; (reflexivity || discriminate).
  - exists (src_file (of_loc ["proj"]) "package_b" "pipeline.yaml"),
      [ "package_b.egg-info"; "package_b" ], "package_b".
    repeat split. right. by left.
Defined.

(* ================================================================== *)
(** * The client on directories and on missing paths *)

Section client_directories.

Context (_resolve : list string → Path → list string).

Local Abbreviation _remote_path := (Local._remote_path _resolve).
Local Abbreviation download := (Local.download _resolve).
Local Abbreviation upload := (Local.upload _resolve).

Implicit Types (w : world) (c : LocalStorageClient) (local remote : Path).

(** X22.  [download] of a mirrored directory, once the destination's
    parent directories are made: onto a destination that does not exist
    and does not lie inside the mirror directory the tree is copied, the
    mirror keeps it and nothing outside the destination changes; onto a
    destination that exists, be it a file or a directory, the call
    raises [FileExistsError] and copies nothing. *)
Theorem download_dir_to c w local destination remote w1 es :
  _remote_path c w local = Ok remote →
  mkdir_parents (parent (default local destination)) w = (Ok (), w1) →
  stat w1 remote = Ok (Dir es) →
  (exists_ w1 (default local destination) = false →
   strip (resolve (cwd w) remote)
         (resolve (cwd w) (default local destination)) = None →
   ∃ w2,
     download c local destination w = (Ok (), w2) ∧
     stat w2 (default local destination) = Ok (Dir es) ∧
     stat w2 remote = Ok (Dir es) ∧
     ∀ q, strip (resolve (cwd w) (default local destination)) q = None →
          kind_at w2 q = kind_at w1 q) ∧
  (exists_ w1 (default local destination) = true →
   download c local destination w = (Raise FileExistsError, w1)).
Proof.
  intros Hr Hm Hs.
  pose proof (mkdir_parents_spec _ _ _ _ Hm) as [Hn Hpar].
  specialize (Hpar eq_refl). pose proof (proj1 Hn) as Hc.
  assert (download c local destination w
          = Shutil.copytree remote (default local destination) w1) as Hd.
  { unfold Local.download, mbind, mread. rewrite Hr. simpl. rewrite Hm.
    by destruct (stat_is_dir _ _ _ Hs) as [-> ->]. }
  split.
  - intros Hex Hout. rewrite <- Hc in Hout.
    destruct (copytree_fresh w1 remote _ es Hs Hpar Hex Hout)
      as (t' & Hcopy & Hk & Hsd & Hsr & Hframe).
    exists (with_tree w1 t'). repeat split; try done.
    + by rewrite Hd.
    + intros q Hq. unfold kind_at at 1. simpl. apply Hframe. by rewrite Hc.
  - intros Hex. rewrite Hd. unfold exists_ in Hex.
    destruct (stat w1 (default local destination)) as [n|] eqn:Hsd; [|done].
    by apply (copytree_existing w1 remote _ es n).
Qed.

(** X23.  [upload] of a path that does not exist makes the parent
    directory of the mirror path all the same and only then fails, with
    the error of reading the path; apart from those new directories the
    store is as before. *)
Theorem upload_missing c w local remote w1 e :
  _remote_path c w local = Ok remote →
  mkdir_parents (parent remote) w = (Ok (), w1) →
  stat w1 local = Raise e →
  upload c local w = (Raise e, w1) ∧
  only_new_dirs w w1 ∧ is_dir w1 (parent remote) = true.
Proof.
  intros Hr Hm Hs.
  pose proof (mkdir_parents_spec _ _ _ _ Hm) as [Hn Hpar].
  repeat split; try apply Hn; [|by apply Hpar].
  unfold Local.upload, mbind, mread. rewrite Hr, Hm.
  unfold is_file, Shutil.copytree. by rewrite Hs.
Qed.

End client_directories.

Lemma download_dir_to_witness :
  (∃ w2,
     Ex.download (parse "dir") (Some (parse "restored/dir")) Ex.mirrored_dir
       = (Ok (), w2) ∧
     stat w2 (parse "restored/dir")
       = Ok (Dir [("file", File (Ex.bytes "content"))])) ∧
  Ex.download (parse "dir") None Ex.mirrored_dir
    = (Raise FileExistsError, Ex.mirrored_dir).
Proof.
  split.
  - destruct (download_dir_to spec_resolve Ex.client Ex.mirrored_dir
                (parse "dir") (Some (parse "restored/dir"))
                (parse "backup/dir")
                (snd (mkdir_parents (parse "restored") Ex.mirrored_dir))
                [("file", File (Ex.bytes "content"))])
      as [Hfresh _]; [reflexivity | reflexivity | reflexivity |].
    destruct Hfresh as (w2 & Hd & Hs & _); [reflexivity | reflexivity |].
    by exists w2.
  - destruct (download_dir_to spec_resolve Ex.client Ex.mirrored_dir
                (parse "dir") None (parse "backup/dir") Ex.mirrored_dir
                [("file", File (Ex.bytes "content"))])
      as [_ Hexists]; [reflexivity | reflexivity | reflexivity |].
    apply Hexists. reflexivity.
Defined.

Lemma upload_missing_witness :
  Ex.upload (parse "reports/missing") Ex.project
    = (Raise FileNotFoundError,
       snd (mkdir_parents (parse "backup/reports") Ex.project)).
Proof.
  apply (upload_missing spec_resolve Ex.client Ex.project
           (parse "reports/missing") (parse "backup/reports/missing"));
    reflexivity.
Defined.
